(** * mcp-sphinx-docs: the RST-to-Markdown converter and the LLM optimizer

    A shallow embedding of [SphinxConverter] (src/utils/file-handler.ts),
    [LLMOptimizer] (src/optimizers/llm-optimizer.ts) and the string methods
    of [FileHandler] (src/utils/file-handler.ts), the properties of the
    specification checked against it, and further properties of the code.

    Conventions.

    - A JavaScript string is a sequence of UTF-16 code units: [str] is
      [list N].  [u "text"] is the string of an ASCII literal.
    - The sources spell most of their separators and patterns with a doubled
      backslash: ['\\n'] is the two-unit string made of a backslash and the
      letter n (not a line feed), and [/\\s+/] is a backslash followed by
      one or more letters s (not a run of white space).  The embedding keeps
      every literal as it is written.  A Rocq string literal has no escape
      sequences either, so [u "\n"] is that same two-unit string.  A real
      line feed is the code unit [LF] (10).
    - Regular expressions are transcribed one by one into the syntax [re] and
      run by a backtracking matcher that enumerates the matches at a position
      in the order the ECMAScript matcher tries them. *)

From Stdlib Require Import String Ascii.
From Stdlib Require Import List NArith Arith Bool Lia Sorted.
From Stdlib Require DecimalString.
Import ListNotations.

Set Implicit Arguments.
Local Open Scope N_scope.
Local Open Scope nat_scope.
Local Open Scope list_scope.

(** ** Strings of code units *)

Definition str := list N.

Definition u (s : string) : str :=
  List.map N_of_ascii (list_ascii_of_string s).

Definition LF : N := 10%N.
Definition CR : N := 13%N.
Definition BSL : N := 92%N.   (* the backslash *)
Definition DQUOTE : N := 34%N.
Definition SQUOTE : N := 39%N.
Definition BTICK : N := 96%N.

Definition chr (s : string) : N :=
  match s with
  | String a _ => N_of_ascii a
  | EmptyString => 0%N
  end.

Fixpoint str_eqb (a b : str) : bool :=
  match a, b with
  | [], [] => true
  | x :: a', y :: b' => N.eqb x y && str_eqb a' b'
  | _, _ => false
  end.

(** LineTerminator and WhiteSpace of ECMAScript: what [.] excludes, what
    [^] and [$] look at under the [m] flag, what [\s] and [trim] cover. *)
Definition is_lt (c : N) : bool :=
  (c =? 10)%N || (c =? 13)%N || (c =? 8232)%N || (c =? 8233)%N.

Definition is_ws (c : N) : bool :=
  ((9 <=? c) && (c <=? 13))%N || (c =? 32)%N || (c =? 160)%N
  || (c =? 5760)%N || ((8192 <=? c) && (c <=? 8202))%N
  || (c =? 8232)%N || (c =? 8233)%N || (c =? 8239)%N || (c =? 8287)%N
  || (c =? 12288)%N || (c =? 65279)%N.

Fixpoint dropWhile (p : N -> bool) (s : str) : str :=
  match s with
  | [] => []
  | c :: t => if p c then dropWhile p t else s
  end.

Definition trimStart (s : str) : str := dropWhile is_ws s.
Definition trimEnd (s : str) : str := rev (dropWhile is_ws (rev s)).
(** [String.prototype.trim] *)
Definition trim (s : str) : str := trimEnd (trimStart s).

(** [s.startsWith(p)], returning what follows the prefix. *)
Fixpoint strip_prefix (p s : str) : option str :=
  match p with
  | [] => Some s
  | x :: p' =>
      match s with
      | y :: s' => if N.eqb y x then strip_prefix p' s' else None
      | [] => None
      end
  end.

Definition startsWith (s p : str) : bool :=
  match strip_prefix p s with Some _ => true | None => false end.

(** [s.includes(p)] *)
Fixpoint includes (s p : str) : bool :=
  startsWith s p ||
  match s with
  | [] => false
  | _ :: t => includes t p
  end.

(** [s.split(sep)] for a separator that is not empty.  [skip] counts the
    units of a separator still to be passed over, [cur] is the piece being
    read, in reverse. *)
Fixpoint split_go (sep : str) (skip : nat) (cur : str) (s : str) : list str :=
  match s with
  | [] => [rev cur]
  | c :: t =>
      match skip with
      | S k => split_go sep k cur t
      | O =>
          if startsWith s sep
          then rev cur :: split_go sep (pred (length sep)) [] t
          else split_go sep 0 (c :: cur) t
      end
  end.

Definition split (s sep : str) : list str := split_go sep 0 [] s.

(** [a.join(sep)] *)
Fixpoint join (sep : str) (l : list str) : str :=
  match l with
  | [] => []
  | [x] => x
  | x :: l' => x ++ sep ++ join sep l'
  end.

(** ['#'.repeat(n)] and the like *)
Definition repeat_str (s : str) (n : nat) : str := concat (repeat s n).

Definition toUpperUnit (c : N) : N :=
  if ((97 <=? c) && (c <=? 122))%N then (c - 32)%N else c.

(** [toLowerCase], exact on the code units below U+0100.  The units from
    U+0100 on are left as they are, where the runtime lowers the capital
    letters among them (U+03A9, U+0130 and U+212A for instance): on a text
    with such a unit the result is not the runtime's. *)
Definition toLowerUnit (c : N) : N :=
  if ((65 <=? c) && (c <=? 90))%N then (c + 32)%N
  else if ((192 <=? c) && (c <=? 222))%N && negb (c =? 215)%N then (c + 32)%N
  else c.

Definition toUpperCase (s : str) : str := List.map toUpperUnit s.
Definition toLowerCase (s : str) : str := List.map toLowerUnit s.

(** Decimal rendering of a counter, as template literals do. *)
Definition showNat (n : nat) : str :=
  u (DecimalString.NilEmpty.string_of_uint (Nat.to_uint n)).

(** ** Regular expressions *)

Module Regex.

(** The position of a match in progress: the unit just before it (none at
    the start of the input), what is left to read, and the captures. *)
Record mstate : Type := MState {
  m_prev : option N;
  m_rest : str;
  m_caps : list (nat * str)
}.

Inductive re : Type :=
| Chr (p : N -> bool)                              (* one unit of a class *)
| Eps
| Seq (a b : re)
| Alt (a b : re)
| Rep (greedy : bool) (lo : nat) (hi : option nat) (r : re)   (* r{lo,hi} *)
| Grp (n : nat) (r : re)                           (* capture group n *)
| Bol (multiline : bool)                           (* ^ *)
| Eol (multiline : bool)                           (* $ *)
| Ahead (r : re)                                   (* (?=r) *)
| Bref (n : nat).                                  (* \n *)

Fixpoint cap_lookup (n : nat) (caps : list (nat * str)) : option str :=
  match caps with
  | [] => None
  | (k, w) :: caps' => if Nat.eqb k n then Some w else cap_lookup n caps'
  end.

(** [$n] in a replacement, and [match[n]] read as a string. *)
Definition cap (n : nat) (caps : list (nat * str)) : str :=
  match cap_lookup n caps with Some w => w | None => [] end.

Definition consumed (s s' : mstate) : str :=
  firstn (length (m_rest s) - length (m_rest s')) (m_rest s).

Definition last_unit (prev : option N) (w : str) : option N :=
  match rev w with c :: _ => Some c | [] => prev end.

(** The iterations of a quantifier.  An iteration that reads nothing is
    dropped (each quantified pattern of the sources reads at least one
    unit), so that [S (length rest)] rounds of fuel are never used up. *)
Fixpoint rep_loop (step : mstate -> list mstate) (greedy : bool)
         (fuel lo : nat) (hi : option nat) (s : mstate) : list mstate :=
  match fuel with
  | O => match lo with O => [s] | S _ => [] end
  | S fuel' =>
      let more :=
        match hi with
        | Some O => []
        | _ =>
            flat_map
              (fun s' =>
                 if length (m_rest s') <? length (m_rest s)
                 then rep_loop step greedy fuel' (pred lo) (option_map pred hi) s'
                 else [])
              (step s)
        end in
      match lo with
      | S _ => more
      | O => if greedy then more ++ [s] else s :: more
      end
  end.

(** All the matches of [r] from [s], in the order of preference of the
    backtracking matcher: the first one is the match it reports. *)
Fixpoint run (r : re) (s : mstate) : list mstate :=
  match r with
  | Chr p =>
      match m_rest s with
      | c :: t => if p c then [MState (Some c) t (m_caps s)] else []
      | [] => []
      end
  | Eps => [s]
  | Seq a b => flat_map (run b) (run a s)
  | Alt a b => run a s ++ run b s
  | Rep g lo hi r' => rep_loop (run r') g (S (length (m_rest s))) lo hi s
  | Grp n r' =>
      List.map
        (fun s' => MState (m_prev s') (m_rest s') ((n, consumed s s') :: m_caps s'))
        (run r' s)
  | Bol ml =>
      match m_prev s with
      | None => [s]
      | Some c => if ml && is_lt c then [s] else []
      end
  | Eol ml =>
      match m_rest s with
      | [] => [s]
      | c :: _ => if ml && is_lt c then [s] else []
      end
  | Ahead r' =>
      match run r' s with
      | s' :: _ => [MState (m_prev s) (m_rest s) (m_caps s')]
      | [] => []
      end
  | Bref n =>
      match cap_lookup n (m_caps s) with
      | None => [s]
      | Some w =>
          match strip_prefix w (m_rest s) with
          | Some t => [MState (last_unit (m_prev s) w) t (m_caps s)]
          | None => []
          end
      end
  end.

(** The match at one position, if any: the text matched, the captures and
    the position after it. *)
Definition match_here (r : re) (prev : option N) (s : str)
  : option (str * list (nat * str) * mstate) :=
  match run r (MState prev s []) with
  | s' :: _ => Some (consumed (MState prev s []) s', m_caps s', s')
  | [] => None
  end.

(** [s.match(r)] without the [g] flag: the leftmost match; the text before
    it is returned as well. *)
Fixpoint search_from (r : re) (prev : option N) (skipped : str) (s : str)
  : option (str * str * list (nat * str) * str) :=
  match match_here r prev s with
  | Some (w, caps, s') => Some (rev skipped, w, caps, m_rest s')
  | None =>
      match s with
      | [] => None
      | c :: t => search_from r (Some c) (c :: skipped) t
      end
  end.

Definition search (r : re) (s : str) := search_from r None [] s.

(** [r.test(s)] / the truth value of [s.match(r)] *)
Definition test (r : re) (s : str) : bool :=
  match search r s with Some _ => true | None => false end.

(** [s.replace(r, f)] with the [g] flag; [f] receives the match and the
    captures.  After a match the scan resumes behind it; an empty match
    is followed by one copied unit. *)
Fixpoint replace_loop (r : re) (f : str -> list (nat * str) -> str)
         (fuel : nat) (prev : option N) (s : str) : str :=
  match fuel with
  | O => s
  | S fuel' =>
      match match_here r prev s with
      | Some (w, caps, s') =>
          match w with
          | [] =>
              f w caps ++
              match s with
              | [] => []
              | c :: t => c :: replace_loop r f fuel' (Some c) t
              end
          | _ :: _ => f w caps ++ replace_loop r f fuel' (m_prev s') (m_rest s')
          end
      | None =>
          match s with
          | [] => []
          | c :: t => c :: replace_loop r f fuel' (Some c) t
          end
      end
  end.

Definition replace_all (r : re) (f : str -> list (nat * str) -> str) (s : str) : str :=
  replace_loop r f (S (length s)) None s.

(** [s.replace(r, f)] without the [g] flag: the leftmost match only. *)
Definition replace_first (r : re) (f : str -> list (nat * str) -> str) (s : str) : str :=
  match search r s with
  | Some (before, w, caps, after) => before ++ f w caps ++ after
  | None => s
  end.

(** [s.split(r)] for a pattern without groups.  [cur] is the piece read
    since the last cut, in reverse; a match that would end where the last
    cut was made is skipped. *)
Fixpoint split_loop (r : re) (fuel : nat) (prev : option N) (cur : str) (s : str)
  : list str :=
  match fuel with
  | O => [rev cur ++ s]
  | S fuel' =>
      match s with
      | [] => [rev cur]
      | c :: t =>
          match match_here r prev s with
          | Some (w, _, s') =>
              match w, cur with
              | [], [] => split_loop r fuel' (Some c) (c :: cur) t
              | [], _ :: _ => rev cur :: split_loop r fuel' prev [] s
              | _ :: _, _ => rev cur :: split_loop r fuel' (m_prev s') [] (m_rest s')
              end
          | None => split_loop r fuel' (Some c) (c :: cur) t
          end
      end
  end.

Definition split_re (r : re) (s : str) : list str :=
  match s with
  | [] => match match_here r None [] with Some _ => [] | None => [[]] end
  | _ :: _ => split_loop r (2 * length s + 1) None [] s
  end.

(** Building blocks for transcribing patterns. *)
Definition eqc (c : N) : N -> bool := fun x => N.eqb x c.
Definition neqc (c : N) : N -> bool := fun x => negb (N.eqb x c).
Definition C (c : string) : re := Chr (eqc (chr c)).
Definition dot : re := Chr (fun c => negb (is_lt c)).      (* . *)
Definition dotAll : re := Chr (fun _ => true).             (* . under the s flag *)
Definition ws : re := Chr is_ws.                           (* \s *)
Definition nonws : re := Chr (fun c => negb (is_ws c)).    (* \S *)
Definition star (r : re) : re := Rep true 0 None r.        (* r* *)
Definition plus (r : re) : re := Rep true 1 None r.        (* r+ *)
Definition lazy_star (r : re) : re := Rep false 0 None r.  (* r*? *)

Fixpoint seqs (l : list re) : re :=
  match l with
  | [] => Eps
  | [r] => r
  | r :: l' => Seq r (seqs l')
  end.

Fixpoint alts (l : list re) : re :=
  match l with
  | [] => Eps
  | [r] => r
  | r :: l' => Alt r (alts l')
  end.

(** A literal run of units. *)
Definition lit (s : string) : re := seqs (List.map (fun c => Chr (eqc c)) (u s)).

Definition bsl : re := Chr (eqc BSL).                      (* a backslash *)
Definition bt : re := Chr (eqc BTICK).                     (* a backtick *)
Definition no (c : string) : re := Chr (neqc (chr c)).     (* [^c] *)

Definition is_letter (c : N) : bool :=
  ((65 <=? c) && (c <=? 90))%N || ((97 <=? c) && (c <=? 122))%N.
(** [[a-zA-Z-]] *)
Definition is_name_unit (c : N) : bool := is_letter c || (c =? 45)%N.

End Regex.
Import Regex.


(** * SphinxConverter (src/utils/file-handler.ts) *)

(** [RSTDirective]; [options] is the object used as a map, in insertion
    order. *)
Record RSTDirective : Type := mkDirective {
  d_name : str;
  d_arguments : list str;
  d_options : list (str * str);
  d_content : list str
}.

(** The sections pushed by [parseRST]. *)
Record Section : Type := mkSection {
  s_title : str;
  s_level : nat;
  s_content : str;
  s_lineStart : nat
}.

(** The object returned by [parseRST]. *)
Record Parsed : Type := mkParsed {
  p_title : str;
  p_sections : list Section;
  p_directives : list RSTDirective;
  p_content : str
}.

(** [ConversionOptions]: every field is optional. *)
Record ConversionOptions : Type := mkConversionOptions {
  baseUrl : option str;
  preserveReferences : option bool;
  includeMetadata : option bool
}.

Definition truthy_flag (b : option bool) : bool :=
  match b with Some true => true | _ => false end.

(** A string in a condition: the empty string is falsy. *)
Definition nonempty (s : str) : bool :=
  match s with [] => false | _ :: _ => true end.

(** [obj[k] = v] on an object used as a map. *)
Fixpoint obj_set (k v : str) (o : list (str * str)) : list (str * str) :=
  match o with
  | [] => [(k, v)]
  | (k', v') :: o' =>
      if str_eqb k' k then (k', v) :: o' else (k', v') :: obj_set k v o'
  end.

(** ** preprocessRST *)

(** The lookahead "(?=\n\S|\n$)" *)
Definition re_block_end : re :=
  Ahead (Alt (Seq (Chr (eqc LF)) nonws) (Seq (Chr (eqc LF)) (Eol false))).

(** "/\.\. toctree::\s*\n(.*?)(?=\n\S|\n$)/gs" *)
Definition re_toctree : re :=
  seqs [lit ".. toctree::"; star ws; Chr (eqc LF); Grp 1 (lazy_star dotAll); re_block_end].

(** "/\.\. automodule::\s*(.+)/g" and "/\.\. autoclass::\s*(.+)/g" *)
Definition re_automodule : re := seqs [lit ".. automodule::"; star ws; Grp 1 (plus dot)].
Definition re_autoclass : re := seqs [lit ".. autoclass::"; star ws; Grp 1 (plus dot)].

(** "/\.\. (note|warning|tip|important)::\s*\n(.*?)(?=\n\S|\n$)/gs" *)
Definition re_admonition : re :=
  seqs [lit ".. ";
        Grp 1 (alts [lit "note"; lit "warning"; lit "tip"; lit "important"]);
        lit "::"; star ws; Chr (eqc LF); Grp 2 (lazy_star dotAll); re_block_end].

(** The markers of the admonitions, as UTF-16: U+26A0 U+FE0F, U+1F4A1,
    U+2757 and U+2139 U+FE0F. *)
Definition emoji_warning : str := [9888%N; 65039%N].
Definition emoji_tip : str := [55357%N; 56481%N].
Definition emoji_important : str := [10071%N].
Definition emoji_info : str := [8505%N; 65039%N].

Definition admonition_emoji (type : str) : str :=
  if str_eqb type (u "warning") then emoji_warning
  else if str_eqb type (u "tip") then emoji_tip
  else if str_eqb type (u "important") then emoji_important
  else emoji_info.

(** "/\\n/g": a backslash and the letter n *)
Definition re_bsl_n : re := seqs [bsl; C "n"].

Definition admonition_markup (type content : str) : str :=
  u "> " ++ admonition_emoji type ++ u " **" ++ toUpperCase type ++ u "**\n>\n> "
    ++ replace_all re_bsl_n (fun _ _ => u "\n> ") (trim content) ++ u "\n".

Definition preprocessRST (content : str) : str :=
  let processed := content in
  let processed :=
    replace_all re_toctree
      (fun _ caps => u "<!-- TOCTREE:\n" ++ trim (cap 1 caps) ++ u "\n-->\n") processed in
  let processed :=
    replace_all re_automodule
      (fun _ caps => u "<!-- AUTO-MODULE: " ++ cap 1 caps ++ u " -->") processed in
  let processed :=
    replace_all re_autoclass
      (fun _ caps => u "<!-- AUTO-CLASS: " ++ cap 1 caps ++ u " -->") processed in
  let processed :=
    replace_all re_admonition
      (fun _ caps => admonition_markup (cap 1 caps) (cap 2 caps)) processed in
  processed.

(** ** parseRST *)

(** The characters accepted as underlines: the fourteen of the literal
    passed to [includes] in the source. *)
Definition underline_chars : str :=
  u "=-~^" ++ [DQUOTE; SQUOTE; BTICK] ++ u ".+*#<>_".

Definition isUnderline (line : str) : bool :=
  match trim line with
  | [] => false
  | char :: _ =>
      forallb (fun c => N.eqb c char) (trim line) && includes underline_chars [char]
  end.

(** [levels[char] || 2] on the table of the six underline characters. *)
Definition getHeaderLevel (char : N) : nat :=
  if N.eqb char (chr "=") then 1
  else if N.eqb char (chr "-") then 2
  else if N.eqb char (chr "~") then 3
  else if N.eqb char (chr "^") then 4
  else if N.eqb char DQUOTE then 5
  else if N.eqb char SQUOTE then 6
  else 2.

(** "/^\\.\\. [a-zA-Z-]+::/" *)
Definition re_directive_open : re :=
  seqs [Bol false; bsl; dot; bsl; dot; C " "; plus (Chr is_name_unit); lit "::"].

(** "/^\\.\\. ([a-zA-Z-]+)::\\s*(.* )/", without the blank *)
Definition re_directive : re :=
  seqs [Bol false; bsl; dot; bsl; dot; C " "; Grp 1 (plus (Chr is_name_unit)); lit "::";
        bsl; star (C "s"); Grp 2 (star dot)].

(** "/^\\s*:[a-zA-Z-]+:/" *)
Definition re_option_open : re :=
  seqs [Bol false; bsl; star (C "s"); C ":"; plus (Chr is_name_unit); C ":"].

(** "/^\\s*:([a-zA-Z-]+):\\s*(.* )/", without the blank *)
Definition re_option : re :=
  seqs [Bol false; bsl; star (C "s"); C ":"; Grp 1 (plus (Chr is_name_unit)); C ":";
        bsl; star (C "s"); Grp 2 (star dot)].

Definition line_at (lines : list str) (i : nat) : str := nth i lines [].

(** The loop over the option lines; [fuel] bounds the lines left. *)
Fixpoint parse_options (lines : list str) (fuel i : nat) (opts : list (str * str))
  : nat * list (str * str) :=
  match fuel with
  | O => (i, opts)
  | S fuel' =>
      if (i <? length lines) && test re_option_open (line_at lines i) then
        let opts' :=
          match search re_option (line_at lines i) with
          | Some (_, _, caps, _) => obj_set (cap 1 caps) (cap 2 caps) opts
          | None => opts
          end in
        parse_options lines fuel' (i + 1) opts'
      else (i, opts)
  end.

(** The loop over the indented body. *)
Fixpoint parse_body (lines : list str) (fuel i : nat) (body : list str)
  : nat * list str :=
  match fuel with
  | O => (i, body)
  | S fuel' =>
      if (i <? length lines)
         && (startsWith (line_at lines i) (u "   ") || negb (nonempty (trim (line_at lines i))))
      then
        let item :=
          if nonempty (trim (line_at lines i)) then skipn 3 (line_at lines i) else [] in
        parse_body lines fuel' (i + 1) (body ++ [item])
      else (i, body)
  end.

Definition parseDirective (lines : list str) (startIndex : nat) : RSTDirective * nat :=
  let directiveLine := line_at lines startIndex in
  match search re_directive directiveLine with
  | None => (mkDirective [] [] [] [], startIndex + 1)
  | Some (_, _, caps, _) =>
      let name := cap 1 caps in
      let arguments := if nonempty (cap 2 caps) then [cap 2 caps] else [] in
      let i := startIndex + 1 in
      let '(i, options) := parse_options lines (length lines) i [] in
      let i := if (i <? length lines) && negb (nonempty (trim (line_at lines i)))
               then i + 1 else i in
      let '(i, content) := parse_body lines (length lines) i [] in
      (mkDirective name arguments options content, i)
  end.

(** The state of the scan of [parseRST].  [currentSection] is the object
    last pushed on [result.sections] and is updated in place there: it is
    the last element of [ps_sections], and [ps_current] says whether it is
    set. *)
Record ParseState : Type := mkParseState {
  ps_i : nat;
  ps_title : str;
  ps_sections : list Section;
  ps_current : bool;
  ps_directives : list RSTDirective
}.

Definition append_to_current (secs : list Section) (text : str) : list Section :=
  match rev secs with
  | [] => []
  | s :: before =>
      rev before ++ [mkSection (s_title s) (s_level s) (s_content s ++ text) (s_lineStart s)]
  end.

(** One iteration of the [while (i < lines.length)] loop; [None] when the
    condition of the loop fails. *)
Definition parse_step (lines : list str) (st : ParseState) : option ParseState :=
  let i := ps_i st in
  if negb (i <? length lines) then None
  else
    let line := line_at lines i in
    let nextLine := line_at lines (i + 1) in
    if (i + 1 <? length lines) && isUnderline nextLine && nonempty (trim line) then
      let level := match nextLine with c :: _ => getHeaderLevel c | [] => 2 end in
      if negb (nonempty (ps_title st)) && Nat.eqb level 1 then
        Some (mkParseState (i + 2) (trim line) (ps_sections st) (ps_current st)
                           (ps_directives st))
      else
        Some (mkParseState (i + 2) (ps_title st)
                           (ps_sections st ++ [mkSection (trim line) level [] i]) true
                           (ps_directives st))
    else if test re_directive_open line then
      let '(directive, nextIndex) := parseDirective lines i in
      Some (mkParseState nextIndex (ps_title st) (ps_sections st) (ps_current st)
                         (ps_directives st ++ [directive]))
    else
      Some (mkParseState (i + 1) (ps_title st)
                         (if ps_current st
                          then append_to_current (ps_sections st) (line ++ u "\n")
                          else ps_sections st)
                         (ps_current st) (ps_directives st)).

Fixpoint parse_loop (lines : list str) (fuel : nat) (st : ParseState) : ParseState :=
  match fuel with
  | O => st
  | S fuel' =>
      match parse_step lines st with
      | None => st
      | Some st' => parse_loop lines fuel' st'
      end
  end.

Definition parseRST (content : str) : Parsed :=
  let lines := split content (u "\n") in
  let st := parse_loop lines (length lines) (mkParseState 0 [] [] false []) in
  mkParsed (ps_title st) (ps_sections st) (ps_directives st) content.

(** ** convertContentToMarkdown *)

(** "/\\*\\*([^*]+)\\*\\*/g": each "\\*" is a run of backslashes *)
Definition re_strong : re :=
  seqs [star bsl; star bsl; Grp 1 (plus (no "*")); star bsl; star bsl].

(** "/\\*([^*]+)\\*/g" *)
Definition re_emphasis : re := seqs [star bsl; Grp 1 (plus (no "*")); star bsl].

(** "/``([^`]+)``/g" *)
Definition re_inline_code : re := seqs [bt; bt; Grp 1 (plus (Chr (neqc BTICK))); bt; bt].

(** "/::$\\n\\n((?:\\s{4,}.*\\n?)*)/gm" *)
Definition re_code_block : re :=
  seqs [lit "::"; Eol true; bsl; C "n"; bsl; C "n";
        Grp 1 (star (seqs [bsl; Rep true 4 None (C "s"); star dot; bsl;
                           Rep true 0 (Some 1) (C "n")]))].

(** "/^\\s{4}/gm" *)
Definition re_code_indent : re := seqs [Bol true; bsl; Rep true 4 (Some 4) (C "s")].

(** "/^\\s*\\*\\s+(.+)$/gm" *)
Definition re_bullet : re :=
  seqs [Bol true; bsl; star (C "s"); star bsl; bsl; plus (C "s"); Grp 1 (plus dot); Eol true].

(** "/^\\s*(\\d+)\\.\\s+(.+)$/gm" *)
Definition re_numbered : re :=
  seqs [Bol true; bsl; star (C "s"); Grp 1 (Seq bsl (plus (C "d"))); bsl; dot;
        bsl; plus (C "s"); Grp 2 (plus dot); Eol true].

(** "/:doc:`([^`]+)`/g" (the backticks are escaped in the source) *)
Definition re_doc : re := seqs [lit ":doc:"; bt; Grp 1 (plus (Chr (neqc BTICK))); bt].

(** "/`([^<]+)<([^>]+)>`_/g" *)
Definition re_external_link : re :=
  seqs [bt; Grp 1 (plus (no "<")); C "<"; Grp 2 (plus (no ">")); C ">"; bt; C "_"].

(** "/:ref:`([^`]+)`/g" *)
Definition re_ref : re := seqs [lit ":ref:"; bt; Grp 1 (plus (Chr (neqc BTICK))); bt].

(** "/\\s+/g" and "/\\s+/": a backslash and a run of the letter s *)
Definition re_bsl_s : re := seqs [bsl; plus (C "s")].

(** The replacement of a [:doc:] reference (lines 582-587). *)
Definition doc_link (options : ConversionOptions) (ref : str) : str :=
  if truthy_flag (preserveReferences options)
  then u "[" ++ ref ++ u "](" ++ ref ++ u ".md)"
  else ref.

Definition convertDocReferences (options : ConversionOptions) (markdown : str) : str :=
  replace_all re_doc (fun _ caps => doc_link options (cap 1 caps)) markdown.

Definition ref_link (options : ConversionOptions) (ref : str) : str :=
  if truthy_flag (preserveReferences options)
  then u "[" ++ ref ++ u "](#"
         ++ replace_all re_bsl_s (fun _ _ => u "-") (toLowerCase ref) ++ u ")"
  else ref.

Definition convertContentToMarkdown (content : str) (options : ConversionOptions) : str :=
  let markdown := content in
  (* Convert emphasis and strong *)
  let markdown := replace_all re_strong (fun _ caps => u "**" ++ cap 1 caps ++ u "**") markdown in
  let markdown := replace_all re_emphasis (fun _ caps => u "*" ++ cap 1 caps ++ u "*") markdown in
  (* Convert inline code *)
  let markdown := replace_all re_inline_code (fun _ caps => u "`" ++ cap 1 caps ++ u "`") markdown in
  (* Convert code blocks *)
  let markdown :=
    replace_all re_code_block
      (fun _ caps =>
         let cleanCode := trim (replace_all re_code_indent (fun _ _ => []) (cap 1 caps)) in
         u "\n```\n" ++ cleanCode ++ u "\n```\n") markdown in
  (* Convert bullet lists *)
  let markdown := replace_all re_bullet (fun _ caps => u "- " ++ cap 1 caps) markdown in
  (* Convert numbered lists *)
  let markdown :=
    replace_all re_numbered (fun _ caps => cap 1 caps ++ u ". " ++ cap 2 caps) markdown in
  (* Convert doc references *)
  let markdown := convertDocReferences options markdown in
  (* Convert external links *)
  let markdown :=
    replace_all re_external_link
      (fun _ caps => u "[" ++ cap 1 caps ++ u "](" ++ cap 2 caps ++ u ")") markdown in
  (* Convert internal references *)
  let markdown := replace_all re_ref (fun _ caps => ref_link options (cap 1 caps)) markdown in
  trim markdown.

(** ** convertParsedToMarkdown *)

Definition section_markdown (parsed : Parsed) (options : ConversionOptions) (section : Section)
  : str :=
  let headerPrefix :=
    repeat_str (u "#") (s_level section + (if nonempty (p_title parsed) then 1 else 0)) in
  headerPrefix ++ u " " ++ s_title section ++ u "\n\n"
    ++ convertContentToMarkdown (s_content section) options ++ u "\n\n".

Definition title_markdown (parsed : Parsed) : str :=
  if nonempty (p_title parsed) then u "# " ++ p_title parsed ++ u "\n\n" else [].

Definition convertParsedToMarkdown (parsed : Parsed) (options : ConversionOptions) : str :=
  fold_left (fun markdown section => markdown ++ section_markdown parsed options section)
            (p_sections parsed) (title_markdown parsed).

(** ** postProcess *)

(** "/\\n{3,}/g" *)
Definition re_newlines : re := seqs [bsl; Rep true 3 None (C "n")].

(** "/^(#{1,6}\\s+.+)$/gm" *)
Definition re_header_line : re :=
  seqs [Bol true;
        Grp 1 (seqs [Rep true 1 (Some 6) (C "#"); bsl; plus (C "s"); plus dot]);
        Eol true].

(** "/[ \\t]+$/gm": the class holds the blank, the backslash and the letter t *)
Definition re_trailing : re :=
  seqs [plus (Chr (fun c => (c =? 32)%N || (c =? BSL)%N || (c =? chr "t")%N)); Eol true].

Definition postProcess (markdown : str) (options : ConversionOptions) : str :=
  let processed := markdown in
  let processed := replace_all re_newlines (fun _ _ => u "\n\n") processed in
  let processed :=
    replace_all re_header_line (fun _ caps => u "\n" ++ cap 1 caps ++ u "\n") processed in
  let processed := replace_all re_trailing (fun _ _ => []) processed in
  trim processed.

(** ** convertToMarkdown *)

Definition convertToMarkdown (content : str) (options : ConversionOptions) : str :=
  let preprocessed := preprocessRST content in
  let parsed := parseRST preprocessed in
  let markdown := convertParsedToMarkdown parsed options in
  postProcess markdown options.

(** ** extractMetadata *)

(** "/^(.+)\\n[=]+\\n/" *)
Definition re_meta_title : re :=
  seqs [Bol false; Grp 1 (plus dot); bsl; C "n"; plus (C "="); bsl; C "n"].

(** "/:author:\\s*(.+)/" *)
Definition re_meta_author : re :=
  seqs [lit ":author:"; bsl; star (C "s"); Grp 1 (plus dot)].

(** "/:date:\\s*(.+)/" *)
Definition re_meta_date : re :=
  seqs [lit ":date:"; bsl; star (C "s"); Grp 1 (plus dot)].

(** [metadata[key] = match[1].trim()] when the pattern is found. *)
Definition set_from_match (r : re) (key : string) (content : str) (metadata : list (str * str))
  : list (str * str) :=
  match search r content with
  | Some (_, _, caps, _) => obj_set (u key) (trim (cap 1 caps)) metadata
  | None => metadata
  end.

Definition extractMetadata (content : str) : list (str * str) :=
  let metadata := [] in
  let metadata := set_from_match re_meta_title "title" content metadata in
  let metadata := set_from_match re_meta_author "author" content metadata in
  set_from_match re_meta_date "date" content metadata.

(** * LLMOptimizer (src/optimizers/llm-optimizer.ts) *)

(** [OptimizationOptions]: every field is optional. *)
Record OptimizationOptions : Type := mkOptimizationOptions {
  o_chunkSize : option nat;
  o_preserveReferences : option bool;
  o_addContextHeaders : option bool;
  o_simplifyStructure : option bool;
  o_removeRedundancy : option bool
}.

Definition noOptions : OptimizationOptions :=
  mkOptimizationOptions None None None None None.

Definition defaultOptions : OptimizationOptions :=
  mkOptimizationOptions (Some 4000) (Some true) (Some true) (Some true) (Some true).

Definition override {A : Type} (d o : option A) : option A :=
  match o with Some _ => o | None => d end.

(** [{ ...this.defaultOptions, ...options }] *)
Definition mergeOptions (options : OptimizationOptions) : OptimizationOptions :=
  mkOptimizationOptions
    (override (o_chunkSize defaultOptions) (o_chunkSize options))
    (override (o_preserveReferences defaultOptions) (o_preserveReferences options))
    (override (o_addContextHeaders defaultOptions) (o_addContextHeaders options))
    (override (o_simplifyStructure defaultOptions) (o_simplifyStructure options))
    (override (o_removeRedundancy defaultOptions) (o_removeRedundancy options)).

(** [opts.chunkSize!] after the merge with the defaults. *)
Definition chunkSize (options : OptimizationOptions) : nat :=
  match o_chunkSize (mergeOptions options) with Some n => n | None => 0 end.

(** The values stored in [metadata]. *)
Inductive MetaValue : Type :=
| MStr (s : str)
| MList (l : list str).

Record ContentChunk : Type := mkChunk {
  c_id : str;
  c_title : str;
  c_content : str;
  c_metadata : list (str * MetaValue);
  c_wordCount : nat;
  c_context : option str
}.

Fixpoint meta_get (k : str) (m : list (str * MetaValue)) : option MetaValue :=
  match m with
  | [] => None
  | (k', v) :: m' => if str_eqb k' k then Some v else meta_get k m'
  end.

(** The sections of [splitByHeaders]. *)
Record MdSection : Type := mkMdSection {
  h_title : str;
  h_content : str;
  h_level : nat
}.

(** ** countWords *)

Definition countWords (text : str) : nat := length (split_re re_bsl_s (trim text)).

(** ** splitByHeaders *)

(** "/^(#{1,6})\\s+(.+)/" *)
Definition re_md_header : re :=
  seqs [Bol false; Grp 1 (Rep true 1 (Some 6) (C "#")); bsl; plus (C "s"); Grp 2 (plus dot)].

Definition append_line (s : MdSection) (line : str) : MdSection :=
  mkMdSection (h_title s) (h_content s ++ u "\n" ++ line) (h_level s).

(** One iteration of the loop over the lines: the sections pushed so far
    and [currentSection]. *)
Definition header_step (st : list MdSection * option MdSection) (line : str)
  : list MdSection * option MdSection :=
  let '(sections, currentSection) := st in
  match search re_md_header line with
  | Some (_, _, caps, _) =>
      let sections :=
        match currentSection with
        | Some cur => sections ++ [cur]
        | None => sections
        end in
      (sections, Some (mkMdSection (cap 2 caps) line (length (cap 1 caps))))
  | None =>
      match currentSection with
      | Some cur => (sections, Some (append_line cur line))
      | None =>
          match sections with
          | [] => ([mkMdSection (u "Introduction") line 1], None)
          | first :: others => (append_line first line :: others, None)
          end
      end
  end.

Definition splitByHeaders (markdown : str) : list MdSection :=
  let lines := split markdown (u "\n") in
  let '(sections, currentSection) := fold_left header_step lines ([], None) in
  match currentSection with
  | Some cur => sections ++ [cur]
  | None => sections
  end.

(** ** splitLargeSection *)

Definition part_title (title : str) (chunkIndex : nat) : str :=
  title ++ u " (Part " ++ showNat chunkIndex ++ u ")".

Definition part_chunk (section : MdSection) (chunkIndex : nat) (title currentChunk : str)
  : ContentChunk :=
  mkChunk (h_title section ++ u "-" ++ showNat chunkIndex) title (trim currentChunk)
          [(u "partOf", MStr (h_title section))] (countWords currentChunk) None.

(** One iteration of the loop over the paragraphs: the chunks pushed so
    far, [currentChunk] and [chunkIndex]. *)
Definition paragraph_step (section : MdSection) (maxSize : nat)
           (st : list ContentChunk * str * nat) (paragraph : str)
  : list ContentChunk * str * nat :=
  let '(chunks, currentChunk, chunkIndex) := st in
  let paragraphWordCount := countWords paragraph in
  let currentWordCount := countWords currentChunk in
  if (currentWordCount + paragraphWordCount <=? maxSize) && nonempty currentChunk then
    (chunks, currentChunk ++ u "\n\n" ++ paragraph, chunkIndex)
  else if nonempty (trim currentChunk) then
    (chunks ++ [part_chunk section (S chunkIndex)
                           (part_title (h_title section) (S chunkIndex)) currentChunk],
     paragraph, S chunkIndex)
  else (chunks, paragraph, chunkIndex).

Definition splitLargeSection (section : MdSection) (maxSize : nat) : list ContentChunk :=
  let paragraphs := split (h_content section) (u "\n\n") in
  let '(chunks, currentChunk, chunkIndex) :=
    fold_left (paragraph_step section maxSize) paragraphs ([], [], 0) in
  if nonempty (trim currentChunk) then
    chunks ++ [part_chunk section (S chunkIndex)
                          (if 1 <? S chunkIndex
                           then part_title (h_title section) (S chunkIndex)
                           else h_title section)
                          currentChunk]
  else chunks.

(** ** addChunkContext *)

Definition chunk_context (chunks : list ContentChunk) (index : nat) : str :=
  if 1 <? length chunks then
    u "Document part " ++ showNat (index + 1) ++ u " of " ++ showNat (length chunks)
      ++ (if 0 <? index
          then u " | Previous: " ++ [DQUOTE]
                 ++ match nth_error chunks (index - 1) with
                    | Some c => c_title c
                    | None => []
                    end ++ [DQUOTE]
          else [])
      ++ (if index <? length chunks - 1
          then u " | Next: " ++ [DQUOTE]
                 ++ match nth_error chunks (index + 1) with
                    | Some c => c_title c
                    | None => []
                    end ++ [DQUOTE]
          else [])
  else [].

Definition with_context (chunk : ContentChunk) (context : str) : ContentChunk :=
  mkChunk (c_id chunk) (c_title chunk) (c_content chunk) (c_metadata chunk)
          (c_wordCount chunk) (Some context).

Definition addChunkContext (chunks : list ContentChunk) : list ContentChunk :=
  List.map (fun '(index, chunk) => with_context chunk (chunk_context chunks index))
           (combine (seq 0 (length chunks)) chunks).

(** ** chunkContent *)

(** [metadata.sections = metadata.sections || []; metadata.sections.push(t)] *)
Fixpoint push_section (t : str) (m : list (str * MetaValue)) : list (str * MetaValue) :=
  match m with
  | [] => [(u "sections", MList [t])]
  | (k, v) :: m' =>
      if str_eqb k (u "sections") then
        (k, match v with MList l => MList (l ++ [t]) | MStr _ => v end) :: m'
      else (k, v) :: push_section t m'
  end.

(** The chunks pushed for the pieces of an oversized section, numbered from
    [chunkIndex + 1]. *)
Fixpoint sub_chunks (section : MdSection) (chunkIndex : nat) (subChunks : list ContentChunk)
  : list ContentChunk :=
  match subChunks with
  | [] => []
  | subChunk :: rest =>
      mkChunk (u "chunk-" ++ showNat (S chunkIndex)) (c_title subChunk) (c_content subChunk)
              [(u "parentSection", MStr (h_title section)); (u "chunkType", MStr (u "subsection"))]
              (c_wordCount subChunk) None
        :: sub_chunks section (S chunkIndex) rest
  end.

Record ChunkState : Type := mkChunkState {
  cs_chunks : list ContentChunk;
  cs_current : option ContentChunk;
  cs_index : nat
}.

Definition push_current (st : ChunkState) : list ContentChunk :=
  match cs_current st with
  | Some cur => cs_chunks st ++ [cur]
  | None => cs_chunks st
  end.

(** The [else] branch of the loop: a new chunk is started. *)
Definition new_chunk (size : nat) (st : ChunkState) (section : MdSection) : ChunkState :=
  let sectionWordCount := countWords (h_content section) in
  let chunks := push_current st in
  if size <? sectionWordCount then
    let subChunks := splitLargeSection section size in
    mkChunkState (chunks ++ sub_chunks section (cs_index st) subChunks) None
                 (cs_index st + length subChunks)
  else
    let chunkIndex := S (cs_index st) in
    mkChunkState chunks
      (Some (mkChunk (u "chunk-" ++ showNat chunkIndex)
                     (if nonempty (h_title section) then h_title section
                      else u "Chunk " ++ showNat chunkIndex)
                     (h_content section)
                     [(u "sections", MList [h_title section]); (u "chunkType", MStr (u "section"))]
                     sectionWordCount None))
      chunkIndex.

(** One iteration of the loop over the sections. *)
Definition chunk_step (size : nat) (st : ChunkState) (section : MdSection) : ChunkState :=
  let sectionWordCount := countWords (h_content section) in
  match cs_current st with
  | Some cur =>
      if c_wordCount cur + sectionWordCount <=? size then
        mkChunkState (cs_chunks st)
          (Some (mkChunk (c_id cur) (c_title cur)
                         (c_content cur ++ u "\n\n" ++ h_content section)
                         (push_section (h_title section) (c_metadata cur))
                         (c_wordCount cur + sectionWordCount) (c_context cur)))
          (cs_index st)
      else new_chunk size st section
  | None => new_chunk size st section
  end.

Definition chunkContent (markdown : str) (options : OptimizationOptions) : list ContentChunk :=
  let size := chunkSize options in
  let sections := splitByHeaders markdown in
  let st := fold_left (chunk_step size) sections (mkChunkState [] None 0) in
  addChunkContext (push_current st).

(** ** simplifyStructure *)

(** "/^#{5,}\\s+/gm" *)
Definition re_deep_header : re :=
  seqs [Bol true; Rep true 5 None (C "#"); bsl; plus (C "s")].

(** The clamp of the header depth: the first rewrite of [simplifyStructure]. *)
Definition clampHeaders (markdown : str) : str :=
  replace_all re_deep_header (fun _ _ => u "#### ") markdown.

(** "/^\s*[a-zA-Z]\)\s+/gm" *)
Definition re_letter_item : re :=
  seqs [Bol true; star ws; Chr is_letter; C ")"; plus ws].

(** "/^\s*[ivx]+\)\s+/gm" *)
Definition re_roman_item : re :=
  seqs [Bol true; star ws;
        plus (Chr (fun c => (c =? chr "i")%N || (c =? chr "v")%N || (c =? chr "x")%N));
        C ")"; plus ws].

(** "/\\|.*\\|\\n\\|.*\\|\\n(?:\\|.*\\|\\n)*/g": as written, a disjunction
    of five alternatives separated by the unescaped bars. *)
Definition re_table : re :=
  alts [bsl;
        Seq (star dot) bsl;
        seqs [bsl; C "n"; bsl];
        Seq (star dot) bsl;
        seqs [bsl; C "n"; star (alts [bsl; Seq (star dot) bsl; Seq bsl (C "n")])]].

Definition BULLET : N := 8226%N.   (* U+2022 *)
Definition ARROW : N := 8594%N.    (* U+2192 *)

(** [row.split('|').map(c => c.trim()).filter(c => c)] *)
Definition table_cells (row : str) : list str :=
  filter nonempty (List.map trim (split row (u "|"))).

Definition table_rows (headers : list str) (dataRows : list str) : str :=
  fold_left
    (fun result row =>
       let cells := table_cells row in
       if Nat.eqb (length cells) (length headers)
       then result ++ [BULLET; 32%N] ++ join [32%N; BULLET; 32%N] cells ++ u "\n"
       else result)
    dataRows [].

Definition simplifyTables (markdown : str) : str :=
  replace_all re_table
    (fun m _ =>
       let rows := split (trim m) (u "\n") in
       let headers := table_cells (nth 0 rows []) in
       if length rows <? 3 then m
       else
         let dataRows := skipn 2 rows in
         u "**" ++ join (u " | ") headers ++ u "**\n\n" ++ table_rows headers dataRows)
    markdown.

Definition simplifyStructure (markdown : str) : str :=
  let simplified := markdown in
  let simplified := clampHeaders simplified in
  let simplified := replace_all re_letter_item (fun _ _ => u "- ") simplified in
  let simplified := replace_all re_roman_item (fun _ _ => u "- ") simplified in
  simplifyTables simplified.

(** ** removeRedundancy *)

(** The collapse of the newline runs: the first rewrite of
    [removeRedundancy], with the pattern "/\\n{3,}/g". *)
Definition collapseNewlines (markdown : str) : str :=
  replace_all re_newlines (fun _ _ => u "\n\n") markdown.

(** "/\\*\\*\\*([^*]+)\\*\\*\\*/g" *)
Definition re_triple_emphasis : re :=
  seqs [star bsl; star bsl; star bsl; Grp 1 (plus (no "*")); star bsl; star bsl; star bsl].

(** "/\[([^\]]+)\]\(\1\)/g" *)
Definition re_self_link : re :=
  seqs [C "["; Grp 1 (plus (no "]")); C "]"; C "("; Bref 1; C ")"].

(** "/^#{1,6}\\s+.*\\n\\n(?=#{1,6})/gm" *)
Definition re_empty_section : re :=
  seqs [Bol true; Rep true 1 (Some 6) (C "#"); bsl; plus (C "s"); star dot;
        bsl; C "n"; bsl; C "n"; Ahead (Rep true 1 (Some 6) (C "#"))].

Definition removeRedundancy (markdown : str) : str :=
  let cleaned := markdown in
  let cleaned := collapseNewlines cleaned in
  let cleaned :=
    replace_all re_triple_emphasis (fun _ caps => u "**" ++ cap 1 caps ++ u "**") cleaned in
  let cleaned := replace_all re_self_link (fun _ caps => cap 1 caps) cleaned in
  replace_all re_empty_section (fun _ _ => []) cleaned.

(** ** addContextHeaders *)

(** [currentContext = currentContext.slice(0, level - 1);
    currentContext[level - 1] = title]: an array with holes. *)
Definition set_context (currentContext : list (option str)) (level : nat) (title : str)
  : list (option str) :=
  let kept := firstn (level - 1) currentContext in
  kept ++ repeat None (level - 1 - length kept) ++ [Some title].

Definition hole_text (x : option str) : str :=
  match x with Some s => s | None => [] end.

Definition context_step (st : list str * list (option str)) (line : str)
  : list str * list (option str) :=
  let '(result, currentContext) := st in
  match search re_md_header line with
  | Some (_, _, caps, _) =>
      let level := length (cap 1 caps) in
      let title := cap 2 caps in
      let currentContext := set_context currentContext level title in
      if (2 <? level) && (1 <? length currentContext) then
        let context :=
          join [32%N; ARROW; 32%N] (List.map hole_text (removelast currentContext)) in
        (result ++ [cap 1 caps ++ u " " ++ title; []; u "*Context: " ++ context ++ u "*"; []],
         currentContext)
      else (result ++ [line], currentContext)
  | None => (result ++ [line], currentContext)
  end.

Definition addContextHeaders (markdown : str) : str :=
  let lines := split markdown (u "\n") in
  join (u "\n") (fst (fold_left context_step lines ([], []))).

(** ** optimizeFormatting *)

(** "/^```\\n(.*?)^```/gms" *)
Definition re_fence : re :=
  seqs [Bol true; lit "```"; bsl; C "n"; Grp 1 (lazy_star dotAll); Bol true; lit "```"].

(** "/^-\\s+/gm" *)
Definition re_dash_item : re := seqs [Bol true; C "-"; bsl; plus (C "s")].

(** "/^(#{1,2}\\s+.+)$/gm" *)
Definition re_major_header : re :=
  seqs [Bol true;
        Grp 1 (seqs [Rep true 1 (Some 2) (C "#"); bsl; plus (C "s"); plus dot]);
        Eol true].

(** "/^\\n+---\\n+/" *)
Definition re_leading_rule : re :=
  seqs [Bol false; bsl; plus (C "n"); lit "---"; bsl; plus (C "n")].

Definition optimizeFormatting (markdown : str) : str :=
  let optimized := markdown in
  let optimized :=
    replace_all re_fence
      (fun m caps =>
         let code := cap 1 caps in
         let firstLine := nth 0 (split code (u "\n")) [] in
         if includes firstLine (u "#") || includes firstLine (u "//") then
           let lang := if includes firstLine (u "#") then u "bash" else u "javascript" in
           u "```" ++ lang ++ u "\n" ++ code ++ u "```"
         else m)
      optimized in
  let optimized := replace_all re_dash_item (fun _ _ => [BULLET; 32%N]) optimized in
  let optimized :=
    replace_all re_major_header (fun _ caps => u "\n---\n\n" ++ cap 1 caps) optimized in
  replace_first re_leading_rule (fun _ _ => []) optimized.

(** ** optimize *)

Definition flag (b : option bool) : bool := truthy_flag b.

Definition optimize (markdown : str) (options : OptimizationOptions) : str :=
  let opts := mergeOptions options in
  let optimized := markdown in
  let optimized := if flag (o_simplifyStructure opts) then simplifyStructure optimized else optimized in
  let optimized := if flag (o_removeRedundancy opts) then removeRedundancy optimized else optimized in
  let optimized := if flag (o_addContextHeaders opts) then addContextHeaders optimized else optimized in
  optimizeFormatting optimized.

(** * FileHandler (src/utils/file-handler.ts)

    The methods that compute on strings; the others read and write the
    file system. *)

(** ** createSafeFilename *)

Definition HYPHEN : N := chr "-".

Definition is_lower (c : N) : bool := ((97 <=? c) && (c <=? 122))%N.
Definition is_digit (c : N) : bool := ((48 <=? c) && (c <=? 57))%N.

(** "/[^a-z0-9\s-]/g" *)
Definition re_unsafe : re :=
  Chr (fun c => negb (is_lower c || is_digit c || is_ws c || N.eqb c HYPHEN)).

(** "/\s+/g" *)
Definition re_spaces : re := plus ws.

(** "/-+/g" *)
Definition re_hyphens : re := plus (C "-").

(** "/^-|-$/g" *)
Definition re_edge_hyphen : re := Alt (Seq (Bol false) (C "-")) (Seq (C "-") (Eol false)).

(** [createSafeFilename].  [toLowerCase] stands for the method of the
    runtime, which lowers the letters of every script. *)
Definition createSafeFilename (toLowerCase : str -> str) (title : str) : str :=
  let s := toLowerCase title in
  let s := replace_all re_unsafe (fun _ _ => []) s in
  let s := replace_all re_spaces (fun _ _ => u "-") s in
  let s := replace_all re_hyphens (fun _ _ => u "-") s in
  replace_all re_edge_hyphen (fun _ _ => []) s.

(** ** extractToctree *)

(** "/\.(rst|md)$/" *)
Definition re_doc_ext : re :=
  seqs [C "."; Grp 1 (Alt (lit "rst") (lit "md")); Eol false].

(** [trimmed.replace(/\.(rst|md)$/, '') + '.rst'] *)
Definition toctree_file (trimmed : str) : str :=
  replace_first re_doc_ext (fun _ _ => []) trimmed ++ u ".rst".

(** One iteration of the loop over the lines of the directive. *)
Definition toctree_step (toctreeFiles : list str) (line : str) : list str :=
  let trimmed := trim line in
  if nonempty trimmed && negb (startsWith trimmed (u ":"))
     && negb (startsWith trimmed (u ".."))
  then toctreeFiles ++ [toctree_file trimmed]
  else toctreeFiles.

(** [extractToctree], from the content read at [indexRstPath]. *)
Definition extractToctree (content : str) : list str :=
  match search re_toctree content with
  | Some (_, _, caps, _) => fold_left toctree_step (split (cap 1 caps) [LF]) []
  | None => []
  end.

(** * The sample of the repository

    demo.js converts a sample document with [convertToMarkdown] and saves
    the result.  Both texts are reproduced here; the conversion is checked
    against the saved text below. *)

(** The sample of demo.js ([btrfsIntroRST]), line by line. *)
Definition demo_rst : str :=
  join [LF]
    [u "Introduction";
     u "============";
     [];
     u "BTRFS is a modern copy on write (COW) filesystem for Linux aimed at";
     u "implementing advanced features while also focusing on fault tolerance, repair";
     u "and easy administration. Its main features and benefits are:";
     [];
     u "* Snapshots which do not make a full copy of the files";
     u "* Built-in volume management, support for software-based RAID 0, RAID 1, RAID 10";
     u "  and others";
     u "* Self-healing - checksums for data and metadata, automatic detection of silent";
     u "  data corruptions";
     u "* Data compression";
     u "* Reflinks, fast and efficient file copies";
     [];
     u "Feature overview";
     u "----------------";
     [];
     u "*  Extent based file storage";
     u "*  2\ :sup:`64` byte (16 EiB)";
     u "   :ref:`maximum file size<administration-limits>` (practical limit is 8 EiB due";
     u "   to Linux VFS)";
     u "*  :doc:`Space-efficient packing of small files<Inline-files>`";
     u "* ";
     u "   Space-efficient indexed directories";
     u "*  :ref:`Dynamic inode";
     u "   allocation<administration-flexibility>`";
     u "*  :doc:`Writable snapshots, read-only snapshots, subvolumes";
     u "   (separate internal filesystem roots)<Subvolumes>`";
     u "*  :doc:`Checksums on data and";
     u "   metadata<Checksumming>` (crc32c, xxhash, sha256, blake2b)";
     u "*  :doc:`Compression";
     u "   (ZLIB, LZO, ZSTD), heuristics<Compression>`";
     u "*  :doc:`Integrated multiple device";
     u "   support<Volume-management>`:";
     [];
     u "   * File Striping (like RAID0)";
     u "   * File Mirroring";
     u "     (like RAID1 up to 4 copies)";
     u "   * File Striping+Mirroring (like RAID10)";
     u "   *";
     u "     Single and Dual Parity implementations (like RAID5/6, experimental, not";
     u "     production-ready)";
     [];
     u "*  SSD/NVMe (flash storage) awareness, :doc:`TRIM/Discard<Trim>` for";
     u "   reporting free blocks for";
     u "   reuse and optimizations (e.g. avoiding unnecessary";
     u "   seek optimizations,";
     u "   sending writes in clusters.";
     u "*  :doc:`Background";
     u "   scrub<Scrub>` process for finding and repairing errors of files with redundant copies";
     u "* ";
     u "   :doc:`Online filesystem defragmentation<Defragmentation>`";
     [];
     u ".. note::";
     u "   BTRFS development is active and features are continuously being improved.";
     u "   Some features may be experimental.";
     [];
     u ".. warning::";
     u "   Always backup your data before using experimental features.";
     [];
     u "Quick start";
     u "-----------";
     [];
     u "For a really quick start you can simply create and mount the";
     u "filesystem. Make sure that the block device you'd like to use is suitable so you";
     u "don't overwrite existing data.";
     [];
     u ".. code-block:: shell";
     [];
     u "   # mkfs.btrfs /dev/sdx";
     u "   ";
     u "   # mount /dev/sdx /mnt/test";
     [];
     u "The default options should be acceptable for most";
     u "users and sometimes can be";
     u "changed later. The example above is for a single";
     u "device filesystem, creating a";
     u "*single* profile for data (no redundant copies of the";
     u "blocks), and *DUP*";
     u "for metadata (each block is duplicated).";
     [];
     u "Read more about:";
     [];
     u "  ";
     u "* creating a filesystem at :doc:`mkfs.btrfs`";
     u "   * mount options at";
     u "     :doc:`Administration`";
     []].

(** The text kept in the repository for the basic conversion of that sample
    (src/unnamed/part_000), line by line. *)
Definition demo_markdown : str :=
  join [LF]
    [u "## Introduction";
     u "============";
     [];
     u "BTRFS is a modern copy on write (COW) filesystem for Linux aimed a";
     u "implementing advanced features while also focusing on fault tolerance, repair";
     u "and easy administration. Its main features and benefits are:";
     [];
     u "* Snapshots which do not make a full copy of the files";
     u "* Built-in volume management, support for software-based RAID 0, RAID 1, RAID 10";
     u "  and others";
     u "* Self-healing - checksums for data and metadata, automatic detection of silen";
     u "  data corruptions";
     u "* Data compression";
     u "* Reflinks, fast and efficient file copies";
     [];
     u "Feature overview";
     u "----------------";
     [];
     u "*  Extent based file storage";
     u "*  2\ :sup:`64` byte (16 EiB)";
     u "   :ref:`maximum file size<administration-limits>` (practical limit is 8 EiB due";
     u "   to Linux VFS)";
     u "*  :doc:`Space-efficient packing of small files<Inline-files>`";
     u "*";
     u "   Space-efficient indexed directories";
     u "*  :ref:`Dynamic inode";
     u "   allocation<administration-flexibility>`";
     u "*  :doc:`Writable snapshots, read-only snapshots, subvolumes";
     u "   (separate internal filesystem roots)<Subvolumes>`";
     u "*  :doc:`Checksums on data and";
     u "   metadata<Checksumming>` (crc32c, xxhash, sha256, blake2b)";
     u "*  :doc:`Compression";
     u "   (ZLIB, LZO, ZSTD), heuristics<Compression>`";
     u "*  :doc:`Integrated multiple device";
     u "   support<Volume-management>`:";
     [];
     u "   * File Striping (like RAID0)";
     u "   * File Mirroring";
     u "     (like RAID1 up to 4 copies)";
     u "   * File Striping+Mirroring (like RAID10)";
     u "   *";
     u "     Single and Dual Parity implementations (like RAID5/6, experimental, no";
     u "     production-ready)";
     [];
     u "*  SSD/NVMe (flash storage) awareness, :doc:`TRIM/Discard<Trim>` for";
     u "   reporting free blocks for";
     u "   reuse and optimizations (e.g. avoiding unnecessary";
     u "   seek optimizations,";
     u "   sending writes in clusters.";
     u "*  :doc:`Background";
     u "   scrub<Scrub>` process for finding and repairing errors of files with redundant copies";
     u "*";
     u "   :doc:`Online filesystem defragmentation<Defragmentation>`";
     [];
     u "> " ++ emoji_info ++ u " **NOTE**\n\n***> BTRFS development is active and features are continuously being improved.";
     u "   Some features may be experimental.\n***\n\n## > " ++ emoji_warning ++ u " **WARNING**\n\n***> Always backup your data before using experimental features.\n";
     u "Quick star";
     u "-----------";
     [];
     u "For a really quick start you can simply create and mount the";
     u "filesystem. Make sure that the block device you'd like to use is suitable so you";
     u "don't overwrite existing data.";
     [];
     u ".. code-block:: shell";
     [];
     u "   # mkfs.btrfs /dev/sdx";
     [];
     u "   # mount /dev/sdx /mnt/tes";
     [];
     u "The default options should be acceptable for mos";
     u "users and sometimes can be";
     u "changed later. The example above is for a single";
     u "device filesystem, creating a";
     u "*******single******* profile for data (no redundant copies of the";
     u "blocks), and *******DUP*******";
     u "for metadata (each block is duplicated).";
     [];
     u "Read more about:";
     [];
     [];
     u "******* creating a filesystem at mkfs.btrfs";
     u "   ******* mount options a";
     u "     Administration";
     u "\n***\n\n"].

(** * Notions used in the statements and in the proofs *)

(** The replacement with just enough fuel, and its equations. *)
Definition rl (r : re) (f : str -> list (nat * str) -> str) (prev : option N) (s : str) : str :=
  replace_loop r f (S (length s)) prev s.

(** A text without a match anywhere: the replacement leaves it alone. *)
Fixpoint no_match (r : re) (prev : option N) (s : str) : Prop :=
  match_here r prev s = None /\
  match s with
  | [] => True
  | c :: t => no_match r (Some c) t
  end.

(** The states in which [p{lo,}] may stop, the longest run first. *)
Fixpoint rep_chr_list (p : N -> bool) (lo : nat) (prev : option N) (rest : str)
         (caps : list (nat * str)) : list mstate :=
  let stop := match lo with O => [MState prev rest caps] | S _ => [] end in
  match rest with
  | c :: t => if p c then rep_chr_list p (pred lo) (Some c) t caps ++ stop else stop
  | [] => stop
  end.

Fixpoint takeWhile (p : N -> bool) (s : str) : str :=
  match s with
  | [] => []
  | c :: t => if p c then c :: takeWhile p t else []
  end.

Definition is_s : N -> bool := eqc (chr "s").

(** The number of places where a backslash is followed by the letter s:
    each one starts a match of "/\\s+/", and the letters the match reads
    start none. *)
Fixpoint bsl_s_count (s : str) : nat :=
  match s with
  | [] => 0
  | c :: t =>
      (if N.eqb c BSL && match t with d :: _ => is_s d | [] => false end then 1 else 0)
      + bsl_s_count t
  end.

Definition SEP : str := u "\n\n".

(** A piece of an oversized section: the trimmed join of consecutive
    whole paragraphs, within the budget unless it is one paragraph. *)
Definition whole_paragraphs (paragraphs : list str) (maxSize : nat) (c : ContentChunk) : Prop :=
  exists before ps after,
    paragraphs = before ++ ps ++ after /\ ps <> [] /\
    c_content c = trim (join SEP ps) /\
    c_wordCount c = countWords (join SEP ps) /\
    (c_wordCount c <= maxSize \/ exists p, ps = [p] /\ maxSize < countWords p).

(** The invariant of the loop of [splitLargeSection] over the paragraphs
    read so far. *)
Definition split_inv (maxSize : nat) (done : list str)
           (st : list ContentChunk * str * nat) : Prop :=
  let '(chunks, currentChunk, _) := st in
  (forall c, In c chunks -> whole_paragraphs done maxSize c) /\
  exists before ps,
    done = before ++ ps /\ currentChunk = join SEP ps /\
    (countWords currentChunk <= maxSize \/ length ps <= 1).

Definition chunkType (c : ContentChunk) : option MetaValue :=
  meta_get (u "chunkType") (c_metadata c).

(** A chunk of whole sections, within the budget. *)
Definition sections_chunk (size : nat) (c : ContentChunk) : Prop :=
  chunkType c = Some (MStr (u "section")) /\ c_wordCount c <= size.

(** A chunk cut out of an oversized section of [sections]. *)
Definition piece_chunk (sections : list MdSection) (size : nat) (c : ContentChunk) : Prop :=
  chunkType c = Some (MStr (u "subsection")) /\
  exists section,
    In section sections /\ size < countWords (h_content section) /\
    meta_get (u "parentSection") (c_metadata c) = Some (MStr (h_title section)) /\
    whole_paragraphs (split (h_content section) SEP) size c.

Definition chunk_ok (sections : list MdSection) (size : nat) (c : ContentChunk) : Prop :=
  sections_chunk size c \/ piece_chunk sections size c.

Definition chunk_inv (size : nat) (done : list MdSection) (st : ChunkState) : Prop :=
  (forall c, In c (cs_chunks st) -> chunk_ok done size c) /\
  (forall cur, cs_current st = Some cur -> sections_chunk size cur).

Definition notbt : N -> bool := neqc BTICK.

Definition DOC_OPEN : str := u ":doc:`".

Definition doc_replacer (options : ConversionOptions) : str -> list (nat * str) -> str :=
  fun _ caps => doc_link options (cap 1 caps).

(** No reference is left open in [s]: every opener [:doc:] with its
    backtick that occurs in [s] is followed by a later backtick of [s]. *)
Fixpoint refs_closed (s : str) : bool :=
  match s with
  | [] => true
  | _ :: t =>
      match strip_prefix DOC_OPEN s with
      | Some r => negb (forallb notbt r)
      | None => true
      end && refs_closed t
  end.

Definition is_n : N -> bool := eqc (chr "n").
Definition is_hash : N -> bool := eqc (chr "#").

(** A match of "/\\n{3,}/" starts here. *)
Definition newlines_here (s : str) : bool :=
  match s with
  | c :: t => N.eqb c BSL && (3 <=? length (takeWhile is_n t))
  | [] => false
  end.

Definition two_newlines : str -> list (nat * str) -> str := fun _ _ => u "\n\n".

Definition collapse (prev : option N) (s : str) : str := rl re_newlines two_newlines prev s.

(** The scan is at the start of a line. *)
Definition bolp (prev : option N) : bool :=
  match prev with None => true | Some c => is_lt c end.

(** A backslash and the letter s come next. *)
Definition tail_here (s : str) : bool :=
  match s with
  | c :: t => N.eqb c BSL && (1 <=? length (takeWhile is_s t))
  | [] => false
  end.

(** Five hashes or more, a backslash and the letter s come next. *)
Definition header_here (s : str) : bool :=
  (5 <=? length (takeWhile is_hash s)) && tail_here (dropWhile is_hash s).

Definition after_header (s : str) : mstate :=
  match dropWhile is_hash s with
  | c :: t =>
      MState (last_unit (Some c) (takeWhile is_s t)) (dropWhile is_s t) []
  | [] => MState None [] []
  end.

Definition four_hashes : str -> list (nat * str) -> str := fun _ _ => u "#### ".

Definition clamp (prev : option N) (s : str) : str := rl re_deep_header four_hashes prev s.

(** A section opened at a recognised header: its title is the header line,
    trimmed, and its content is made of lines that come after the
    underline. *)
Definition from_header (lines : list str) (s : Section) : Prop :=
  s_lineStart s + 1 < length lines /\
  isUnderline (line_at lines (s_lineStart s + 1)) = true /\
  nonempty (trim (line_at lines (s_lineStart s))) = true /\
  s_title s = trim (line_at lines (s_lineStart s)) /\
  s_level s = match line_at lines (s_lineStart s + 1) with
              | c :: _ => getHeaderLevel c
              | [] => 2
              end /\
  exists js,
    s_content s = concat (List.map (fun j => line_at lines j ++ u "\n") js) /\
    Forall (fun j => s_lineStart s + 2 <= j) js.

Definition parse_inv (lines : list str) (st : ParseState) : Prop :=
  forall s, In s (ps_sections st) -> from_header lines s /\ s_lineStart s + 2 <= ps_i st.

(** The fields of the [k]-th chunk of [splitLargeSection], but for the
    title. *)
Definition part_fields (section : MdSection) (k : nat) (c : ContentChunk) : Prop :=
  c_id c = h_title section ++ u "-" ++ showNat (k + 1) /\
  c_metadata c = [(u "partOf", MStr (h_title section))] /\
  c_context c = None.

(** The invariant of the loop of [splitLargeSection] on the chunks pushed:
    [chunkIndex] counts them and each carries its part number. *)
Definition titles_inv (section : MdSection) (st : list ContentChunk * str * nat) : Prop :=
  let '(chunks, _, chunkIndex) := st in
  length chunks = chunkIndex /\
  forall k c, nth_error chunks k = Some c ->
    part_fields section k c /\ c_title c = part_title (h_title section) (k + 1).

Definition DOT : N := chr ".".

(** The text holds no two consecutive dots and does not end with a dot: no
    directive marker starts in it, nor with its last unit. *)
Fixpoint quiet (pre : str) : bool :=
  match pre with
  | [] => true
  | x :: t =>
      negb (N.eqb x DOT && match t with [] => true | y :: _ => N.eqb y DOT end)
      && quiet t
  end.

(** What the lookahead "(?=\n\S|\n$)" asks of the text that follows. *)
Definition block_ends (rest : str) : bool :=
  match rest with
  | c :: t => N.eqb c LF && match t with [] => true | x :: _ => negb (is_ws x) end
  | [] => false
  end.

(** The text is empty or starts with a unit other than white space. *)
Definition solid (s : str) : Prop :=
  match s with
  | [] => True
  | c :: _ => is_ws c = false
  end.

(** The stops of a lazy run over any units, the shortest first. *)
Fixpoint suffix_states (prev : option N) (rest : str) (caps : list (nat * str))
  : list mstate :=
  MState prev rest caps ::
  match rest with
  | c :: t => suffix_states (Some c) t caps
  | [] => []
  end.

(** The scenario of the specification: [.. note::], a line feed and the
    indented body line (a line feed follows it). *)
Definition note_head : str := u ".. note::" ++ [LF] ++ u "   Remember this.".

(** The markup it is rewritten to. *)
Definition note_block : str := u "> " ++ emoji_info ++ u " **NOTE**\n>\n> Remember this.\n".

Definition note_replacer : str -> list (nat * str) -> str :=
  fun _ caps => admonition_markup (cap 1 caps) (cap 2 caps).

(** A text that holds a unit other than white space. *)
Definition nonblank (s : str) : bool := existsb (fun c => negb (is_ws c)) s.

(** The loop of [splitLargeSection] has pushed a chunk, or holds text that
    will be pushed. *)
Definition alive (st : list ContentChunk * str * nat) : Prop :=
  let '(chunks, currentChunk, _) := st in chunks <> [] \/ nonblank currentChunk = true.

(** What is left to read after a match is an end of what was left before;
    the captures are those of before and the new ones. *)
Definition extends (s s' : mstate) : Prop :=
  (exists w, m_rest s = w ++ m_rest s') /\ (exists new, m_caps s' = new ++ m_caps s).

(** A text that does not hold the unit [c]. *)
Definition free (c : N) (s : str) : bool := forallb (neqc c) s.

(** The contents of the sections pushed and of the current one, in order. *)
Definition section_contents (st : list MdSection * option MdSection) : list str :=
  List.map h_content
    (fst st ++ match snd st with Some cur => [cur] | None => [] end).

Definition NL : str := u "\n".

(** The invariant of the loop of [splitByHeaders] for the contents. *)
Definition contents_inv (done : list str) (st : list MdSection * option MdSection) : Prop :=
  match done with
  | [] => st = ([], None)
  | _ :: _ =>
      section_contents st <> [] /\
      join NL (section_contents st) = join NL done /\
      (snd st = None -> length (fst st) <= 1)
  end.

(** Every section has a title and a level from 1 to 6. *)
Definition section_ok (s : MdSection) : Prop :=
  1 <= h_level s <= 6 /\ nonempty (h_title s) = true.

Definition sections_inv (done : list str) (st : list MdSection * option MdSection) : Prop :=
  (forall s, In s (fst st) -> section_ok s) /\
  (forall cur, snd st = Some cur -> section_ok cur).

(** The invariant of the loop of [chunkContent] for the numbering:
    [chunkIndex] counts the chunks made so far, the current one included,
    and each carries its rank. *)
Definition ids_inv (st : ChunkState) : Prop :=
  length (push_current st) = cs_index st /\
  forall k c, nth_error (push_current st) k = Some c ->
              c_id c = u "chunk-" ++ showNat (k + 1).

(** A line that is not a header of level three or more. *)
Definition shallow (line : str) : bool :=
  match search re_md_header line with
  | Some (_, _, caps, _) => length (cap 1 caps) <=? 2
  | None => true
  end.

(** A text with no white space at either end. *)
Definition first_is_ws (s : str) : bool :=
  match s with c :: _ => is_ws c | [] => false end.

Definition trimmed (s : str) : bool := negb (first_is_ws s) && negb (first_is_ws (rev s)).

(** A piece of [splitLargeSection]: its content is not blank and has no
    white space at either end, and its [wordCount] is the count of its
    content. *)
Definition piece_ok (c : ContentChunk) : Prop :=
  nonempty (c_content c) = true /\ trimmed (c_content c) = true /\
  c_wordCount c = countWords (c_content c).

Definition pieces_inv (done : list str) (st : list ContentChunk * str * nat) : Prop :=
  forall c, In c (fst (fst st)) -> piece_ok c.

(** Two header lines are at least two lines apart. *)
Definition apart (a b : nat) : Prop := a + 2 <= b.

Definition starts (secs : list Section) : list nat := List.map s_lineStart secs.

(** The invariant of the scan of [parseRST] for the order of the sections. *)
Definition order_inv (st : ParseState) : Prop :=
  StronglySorted apart (starts (ps_sections st)) /\
  Forall (fun a => a + 2 <= ps_i st) (starts (ps_sections st)).

(** The scan has found no header yet. *)
Definition bare (st : ParseState) : Prop :=
  ps_title st = [] /\ ps_sections st = [] /\ ps_current st = false.

(** No line after the first is an underline. *)
Definition no_underline (lines : list str) : bool :=
  forallb (fun l => negb (isUnderline l)) (tl lines).

(** The units of a safe file name. *)
Definition safe_unit (c : N) : bool := is_lower c || is_digit c || N.eqb c HYPHEN.

(** The units kept by the first rewrite. *)
Definition kept_unit (c : N) : bool :=
  is_lower c || is_digit c || is_ws c || N.eqb c HYPHEN.

(** Every run of units of the class [p] replaced by the unit [d];
    [inrun] says that the unit before belongs to a run. *)
Fixpoint squash (p : N -> bool) (d : N) (inrun : bool) (s : str) : str :=
  match s with
  | [] => []
  | c :: t =>
      if p c then (if inrun then squash p d true t else d :: squash p d true t)
      else c :: squash p d false t
  end.

(** The text without a final hyphen. *)
Fixpoint drop_last_hyphen (s : str) : str :=
  match s with
  | [] => []
  | c :: t =>
      match t with
      | [] => if N.eqb c HYPHEN then [] else [c]
      | _ :: _ => c :: drop_last_hyphen t
      end
  end.

Definition strip_edges (s : str) : str :=
  match s with
  | c :: t => if N.eqb c HYPHEN then drop_last_hyphen t else drop_last_hyphen s
  | [] => []
  end.

(** No two hyphens in a row. *)
Fixpoint single_hyphens (s : str) : bool :=
  match s with
  | x :: t =>
      negb (N.eqb x HYPHEN && match t with y :: _ => N.eqb y HYPHEN | [] => false end)
      && single_hyphens t
  | [] => true
  end.

Definition starts_with_hyphen (s : str) : bool :=
  match s with c :: _ => N.eqb c HYPHEN | [] => false end.

Fixpoint ends_with_hyphen (s : str) : bool :=
  match s with
  | [] => false
  | c :: t =>
      match t with
      | [] => N.eqb c HYPHEN
      | _ :: _ => ends_with_hyphen t
      end
  end.

(** A safe file name: lower-case letters, digits and single hyphens, with
    no hyphen at either end. *)
Definition safe_name (s : str) : bool :=
  forallb safe_unit s && single_hyphens s
  && negb (starts_with_hyphen s) && negb (ends_with_hyphen s).

(** The text is [.rst] or [.md]. *)
Definition is_doc_ext (s : str) : bool := str_eqb s (u ".rst") || str_eqb s (u ".md").

(** The text ends with [.rst] or with [.md]. *)
Fixpoint ends_with_doc_ext (s : str) : bool :=
  is_doc_ext s || match s with _ :: t => ends_with_doc_ext t | [] => false end.

Definition titled (c : ContentChunk) : Prop := nonempty (c_title c) = true.

Definition titled_inv (st : ChunkState) : Prop :=
  forall c, In c (push_current st) -> titled c.

(** The title kept by the scan of [parseRST]: none, or the trimmed text of
    a line that is not blank and is underlined at level 1. *)
Definition title_from_header (lines : list str) (title : str) : Prop :=
  title = [] \/
  exists i,
    i + 1 < length lines /\
    isUnderline (line_at lines (i + 1)) = true /\
    match line_at lines (i + 1) with c :: _ => getHeaderLevel c | [] => 2 end = 1 /\
    title = trim (line_at lines i) /\
    nonempty title = true.

(** Every match of the pattern reads the unit [c]. *)
Inductive needs (c : N) : re -> Prop :=
| needs_chr : needs c (Chr (eqc c))
| needs_first a b : needs c a -> needs c (Seq a b)
| needs_then a b : needs c b -> needs c (Seq a b)
| needs_alt a b : needs c a -> needs c b -> needs c (Alt a b)
| needs_rep g lo hi r : needs c r -> needs c (Rep g (S lo) hi r)
| needs_grp n r : needs c r -> needs c (Grp n r)
| needs_ahead r : needs c r -> needs c (Ahead r).

Definition STAR : N := chr "*".

(** The text starts with the unit [c]. *)
Definition head_is (c : N) (s : str) : bool :=
  match s with x :: _ => N.eqb x c | [] => false end.

(** A pattern behind [k] runs of backslashes, and [k] runs of backslashes
    in a row: the frames of the patterns written "\\*". *)
Fixpoint lead (k : nat) (r : re) : re :=
  match k with
  | O => r
  | S k' => Seq (star bsl) (lead k' r)
  end.

Fixpoint trail (k : nat) : re :=
  match k with
  | O => star bsl
  | S k' => Seq (star bsl) (trail k')
  end.

(** A run of units other than asterisks, captured, between [k] and [S j]
    runs of backslashes. *)
Definition framed (k j : nat) : re := lead k (Seq (Grp 1 (plus (no "*"))) (trail j)).

(** The fields of a chunk made of the whole sections [ss]: their contents
    joined by the separator of the source, the sum of their word counts,
    and their titles in [metadata.sections]. *)
Definition merged_fields (ss : list MdSection) (c : ContentChunk) : Prop :=
  ss <> [] /\
  c_content c = join SEP (List.map h_content ss) /\
  c_wordCount c = list_sum (List.map (fun s => countWords (h_content s)) ss) /\
  c_metadata c = [(u "sections", MList (List.map h_title ss));
                  (u "chunkType", MStr (u "section"))].

(** A chunk made of consecutive sections of [sections]. *)
Definition merged_chunk (sections : list MdSection) (c : ContentChunk) : Prop :=
  exists before ss after, sections = before ++ ss ++ after /\ merged_fields ss c.

(** The invariant of the loop of [chunkContent] for the chunks of whole
    sections: the current chunk is made of the last sections read. *)
Definition merge_inv (done : list MdSection) (st : ChunkState) : Prop :=
  (forall c, In c (cs_chunks st) -> chunkType c = Some (MStr (u "section")) ->
             merged_chunk done c) /\
  (forall cur, cs_current st = Some cur ->
               exists before ss, done = before ++ ss /\ merged_fields ss cur).

(** * Facts about the matcher *)

Module RegexFacts.

Lemma consumed_nonempty_shorter (s s' : mstate) :
  consumed s s' <> [] -> length (m_rest s') < length (m_rest s).
Proof.
  unfold consumed. intros H.
  destruct (Nat.eq_dec (length (m_rest s) - length (m_rest s')) 0) as [E|E].
  - rewrite E in H. simpl in H. congruence.
  - lia.
Qed.

Lemma match_here_shorter r prev s c w caps s' :
  match_here r prev s = Some (c :: w, caps, s') -> length (m_rest s') < length s.
Proof.
  unfold match_here. destruct (run r (MState prev s [])) as [|s0 l]; [discriminate|].
  intros H. injection H as Hc _ Hs. subst s0.
  change s with (m_rest (MState prev s [])).
  apply consumed_nonempty_shorter. rewrite Hc. discriminate.
Qed.

(** Fuel beyond the length of the text does not change a replacement. *)
Lemma replace_loop_fuel r f : forall fuel1 fuel2 prev s,
  length s < fuel1 -> length s < fuel2 ->
  replace_loop r f fuel1 prev s = replace_loop r f fuel2 prev s.
Proof.
  induction fuel1 as [|fuel1 IH]; intros fuel2 prev s H1 H2; [lia|].
  destruct fuel2 as [|fuel2]; [lia|].
  cbn [replace_loop].
  assert (Hcopy :
    match s with [] => [] | c :: t => c :: replace_loop r f fuel1 (Some c) t end =
    match s with [] => [] | c :: t => c :: replace_loop r f fuel2 (Some c) t end).
  { destruct s as [|c t]; [reflexivity|]. f_equal. apply IH; simpl in *; lia. }
  destruct (match_here r prev s) as [[[w caps] s']|] eqn:E; [|exact Hcopy].
  destruct w as [|c w]; [now rewrite Hcopy|].
  f_equal. apply match_here_shorter in E. apply IH; lia.
Qed.

Lemma replace_all_rl r f s : replace_all r f s = rl r f None s.
Proof. reflexivity. Qed.

Lemma rl_nil r f prev :
  rl r f prev [] =
  match match_here r prev [] with
  | Some (w, caps, _) => f w caps
  | None => []
  end.
Proof.
  unfold rl. simpl.
  destruct (match_here r prev []) as [[[w caps] s']|] eqn:E; [|reflexivity].
  destruct w as [|c w]; [now rewrite app_nil_r|].
  apply match_here_shorter in E. simpl in E. lia.
Qed.

Lemma replace_loop_S r f fuel prev s :
  replace_loop r f (S fuel) prev s =
  match match_here r prev s with
  | Some ([], caps, _) =>
      f [] caps ++ match s with [] => [] | c :: t => c :: replace_loop r f fuel (Some c) t end
  | Some (w, caps, s') => f w caps ++ replace_loop r f fuel (m_prev s') (m_rest s')
  | None => match s with [] => [] | c :: t => c :: replace_loop r f fuel (Some c) t end
  end.
Proof.
  cbn [replace_loop].
  destruct (match_here r prev s) as [[[w caps] s']|]; [|reflexivity].
  destruct w; reflexivity.
Qed.

Lemma rl_cons r f prev c t :
  rl r f prev (c :: t) =
  match match_here r prev (c :: t) with
  | Some ([], caps, _) => f [] caps ++ c :: rl r f (Some c) t
  | Some (w, caps, s') => f w caps ++ rl r f (m_prev s') (m_rest s')
  | None => c :: rl r f (Some c) t
  end.
Proof.
  unfold rl. rewrite replace_loop_S.
  destruct (match_here r prev (c :: t)) as [[[w caps] s']|] eqn:E; [|reflexivity].
  destruct w as [|d w]; [reflexivity|].
  f_equal. apply match_here_shorter in E. simpl in E.
  apply replace_loop_fuel; simpl; lia.
Qed.

Lemma rl_no_match r f : forall s prev, no_match r prev s -> rl r f prev s = s.
Proof.
  induction s as [|c t IH]; intros prev [H1 H2].
  - rewrite rl_nil, H1. reflexivity.
  - rewrite rl_cons, H1. f_equal. now apply IH.
Qed.

(** ** A quantifier over one class of units *)

Lemma rep_loop_chr p : forall fuel lo prev rest caps,
  length rest < fuel ->
  rep_loop (run (Chr p)) true fuel lo None (MState prev rest caps)
  = rep_chr_list p lo prev rest caps.
Proof.
  induction fuel as [|fuel IH]; intros lo prev rest caps Hf; [lia|].
  cbn [rep_loop]. destruct rest as [|c t].
  - cbn. destruct lo; reflexivity.
  - cbn [run m_rest m_caps rep_chr_list]. destruct (p c) eqn:Hp.
    + cbn [flat_map m_rest length].
      assert (Hlt : (length t <? S (length t)) = true) by (apply Nat.ltb_lt; lia).
      rewrite Hlt. rewrite app_nil_r. cbn [option_map].
      rewrite IH by (simpl in Hf; lia).
      destruct lo; cbn [pred]; rewrite ?app_nil_r; reflexivity.
    + cbn. destruct lo; reflexivity.
Qed.

Lemma run_rep_chr p lo prev rest caps :
  run (Rep true lo None (Chr p)) (MState prev rest caps) = rep_chr_list p lo prev rest caps.
Proof. cbn [run m_rest]. apply rep_loop_chr. lia. Qed.

Lemma take_drop_while p s : takeWhile p s ++ dropWhile p s = s.
Proof. induction s as [|c t IH]; simpl; [reflexivity|]. destruct (p c); simpl; congruence. Qed.

(** The preferred stop of [p{lo,}]: behind the whole run, when it is long
    enough. *)
Lemma rep_chr_list_hd p : forall rest lo prev caps,
  lo <= length (takeWhile p rest) ->
  exists l,
    rep_chr_list p lo prev rest caps
    = MState (last_unit prev (takeWhile p rest)) (dropWhile p rest) caps :: l.
Proof.
  induction rest as [|c t IH]; intros lo prev caps Hlo.
  - simpl in *. assert (lo = 0) by lia. subst. eexists. reflexivity.
  - cbn [rep_chr_list takeWhile dropWhile] in *. destruct (p c) eqn:Hp.
    + destruct (IH (pred lo) (Some c) caps) as [l Hl]; [simpl in Hlo; lia|].
      rewrite Hl. eexists. cbn [app]. f_equal. f_equal.
      unfold last_unit. cbn [rev].
      destruct (rev (takeWhile p t)) as [|d q] eqn:Er; reflexivity.
    + simpl in Hlo. assert (lo = 0) by lia. subst. eexists. reflexivity.
Qed.

Lemma rep_chr_list_short p : forall rest lo prev caps,
  length (takeWhile p rest) < lo -> rep_chr_list p lo prev rest caps = [].
Proof.
  induction rest as [|c t IH]; intros lo prev caps Hlo.
  - destruct lo; [simpl in Hlo; lia|reflexivity].
  - cbn [rep_chr_list takeWhile] in *. destruct (p c) eqn:Hp.
    + destruct lo; [simpl in Hlo; lia|]. rewrite IH; [reflexivity|].
      simpl in *. lia.
    + destruct lo; [simpl in Hlo; lia|reflexivity].
Qed.

(** Every stop of [p{lo,}] lies behind a run of [p] and keeps the captures;
    before the end of the run the next unit is in [p]. *)
Lemma rep_chr_list_in p : forall rest lo prev caps st,
  In st (rep_chr_list p lo prev rest caps) ->
  m_caps st = caps /\
  (m_rest st = dropWhile p rest \/
   exists c t, m_rest st = c :: t /\ p c = true).
Proof.
  induction rest as [|c t IH]; intros lo prev caps st Hin.
  - destruct lo; simpl in Hin; [|contradiction].
    destruct Hin as [<-|[]]. simpl. auto.
  - cbn [rep_chr_list dropWhile] in *. destruct (p c) eqn:Hp.
    + apply in_app_or in Hin. destruct Hin as [Hin|Hin].
      * apply IH in Hin. exact Hin.
      * destruct lo; simpl in Hin; [|contradiction].
        destruct Hin as [<-|[]]. simpl. split; [reflexivity|]. right. eauto.
    + destruct lo; simpl in Hin; [|contradiction].
      destruct Hin as [<-|[]]. simpl. auto.
Qed.

(** The preferred stop of [p{lo,}] comes first; at every other stop the
    next unit is still in [p]. *)
Lemma rep_chr_list_shape p : forall rest lo prev caps,
  lo <= length (takeWhile p rest) ->
  exists l,
    rep_chr_list p lo prev rest caps
    = MState (last_unit prev (takeWhile p rest)) (dropWhile p rest) caps :: l /\
    forall st, In st l -> m_caps st = caps /\ exists c t, m_rest st = c :: t /\ p c = true.
Proof.
  induction rest as [|c t IH]; intros lo prev caps Hlo.
  - simpl in *. assert (lo = 0) by lia. subst. exists []. split; [reflexivity|intros st []].
  - cbn [rep_chr_list takeWhile dropWhile] in *. destruct (p c) eqn:Hp.
    + destruct (IH (pred lo) (Some c) caps) as [l [Hl Hin]]; [simpl in Hlo; lia|].
      rewrite Hl. eexists. split.
      * cbn [app]. f_equal. f_equal. unfold last_unit. cbn [rev].
        destruct (rev (takeWhile p t)) as [|d q] eqn:Er; reflexivity.
      * intros st Hst. apply in_app_or in Hst. destruct Hst as [Hst|Hst]; [auto|].
        destruct lo; simpl in Hst; [|contradiction].
        destruct Hst as [<-|[]]. simpl. split; [reflexivity|eauto].
    + simpl in Hlo. assert (lo = 0) by lia. subst. exists []. split; [reflexivity|intros st []].
Qed.

Lemma firstn_takeWhile p : forall s,
  firstn (length s - length (dropWhile p s)) s = takeWhile p s.
Proof.
  induction s as [|c t IH]; [reflexivity|].
  cbn [dropWhile takeWhile]. destruct (p c) eqn:Hp.
  - assert (Hle : length (dropWhile p t) <= length t).
    { rewrite <- (take_drop_while p t) at 2. rewrite length_app. lia. }
    replace (length (c :: t) - length (dropWhile p t))
      with (S (length t - length (dropWhile p t))) by (cbn [length]; lia).
    cbn [firstn]. now rewrite IH.
  - now rewrite Nat.sub_diag.
Qed.

Lemma takeWhile_all p : forall w rest,
  forallb p w = true ->
  match rest with c :: _ => p c = false | [] => True end ->
  takeWhile p (w ++ rest) = w /\ dropWhile p (w ++ rest) = rest.
Proof.
  induction w as [|x w IH]; intros rest Hw Hr.
  - destruct rest as [|c rest]; [split; reflexivity|]. simpl. rewrite Hr. split; reflexivity.
  - simpl in Hw. apply andb_true_iff in Hw as [Hx Hw].
    destruct (IH rest Hw Hr) as [H1 H2]. simpl. rewrite Hx, H1, H2. split; reflexivity.
Qed.

Lemma run_seq a b s : run (Seq a b) s = flat_map (run b) (run a s).
Proof. reflexivity. Qed.

(** A pattern that starts with one given unit. *)
Lemma run_seq_chr p r prev rest caps :
  run (Seq (Chr p) r) (MState prev rest caps) =
  match rest with
  | c :: t => if p c then run r (MState (Some c) t caps) else []
  | [] => []
  end.
Proof.
  cbn [run m_rest m_caps]. destruct rest as [|c t]; [reflexivity|].
  destruct (p c); [|reflexivity]. cbn [flat_map]. now rewrite app_nil_r.
Qed.

(** The text of a match that moved forward is not empty. *)
Lemma consumed_cons prev s caps st :
  length (m_rest st) < length s ->
  exists c w, consumed (MState prev s caps) st = c :: w.
Proof.
  unfold consumed. cbn [m_rest]. intros H. destruct s as [|c t]; [simpl in H; lia|].
  destruct (length (c :: t) - length (m_rest st)) as [|n] eqn:E; [lia|].
  cbn [firstn]. eauto.
Qed.

(** A pattern that does not look behind: the replacement does not depend on
    the unit before the text. *)
Lemma rl_prev_indep r f :
  (forall prev prev' s, match_here r prev s = match_here r prev' s) ->
  forall s prev prev', rl r f prev s = rl r f prev' s.
Proof.
  intros Hm s prev prev'. destruct s as [|c t].
  - now rewrite !rl_nil, (Hm prev prev').
  - rewrite !rl_cons, (Hm prev prev'). reflexivity.
Qed.

Lemma last_unit_nonempty prev prev' w : w <> [] -> last_unit prev w = last_unit prev' w.
Proof.
  unfold last_unit. intros H. destruct (rev w) as [|c q] eqn:E; [|reflexivity].
  apply (f_equal (@rev N)) in E. rewrite rev_involutive in E. simpl in E. congruence.
Qed.

Lemma last_unit_cons prev x w : last_unit prev (x :: w) = last_unit (Some x) w.
Proof.
  unfold last_unit. cbn [rev]. destruct (rev w) as [|c q]; reflexivity.
Qed.

(** A literal: the units of [w] one after the other. *)
Lemma run_literal : forall w x prev s caps,
  run (seqs (List.map (fun c => Chr (eqc c)) (x :: w))) (MState prev s caps) =
  match strip_prefix (x :: w) s with
  | Some t => [MState (last_unit prev (x :: w)) t caps]
  | None => []
  end.
Proof.
  induction w as [|y w IH]; intros x prev s caps.
  - cbn [List.map seqs run m_rest m_caps strip_prefix]. destruct s as [|c t]; [reflexivity|].
    unfold eqc. destruct (N.eqb c x) eqn:E; [|reflexivity].
    apply N.eqb_eq in E. subst c. reflexivity.
  - change (seqs (List.map (fun c => Chr (eqc c)) (x :: y :: w)))
      with (Seq (Chr (eqc x)) (seqs (List.map (fun c => Chr (eqc c)) (y :: w)))).
    rewrite run_seq_chr. cbn [strip_prefix]. destruct s as [|c t]; [reflexivity|].
    unfold eqc at 1. destruct (N.eqb c x) eqn:E; [|reflexivity].
    rewrite IH. apply N.eqb_eq in E. subst c.
    rewrite (last_unit_cons prev x (y :: w)). reflexivity.
Qed.

Lemma strip_prefix_app : forall w t, strip_prefix w (w ++ t) = Some t.
Proof.
  induction w as [|x w IH]; intros t; [reflexivity|].
  cbn [app strip_prefix]. now rewrite N.eqb_refl.
Qed.

Lemma strip_prefix_some : forall w s t, strip_prefix w s = Some t -> s = w ++ t.
Proof.
  induction w as [|x w IH]; intros s t H.
  - simpl in H. now injection H as ->.
  - cbn [strip_prefix] in H. destruct s as [|c s]; [discriminate|].
    destruct (N.eqb c x) eqn:E; [|discriminate].
    apply N.eqb_eq in E. subst c. simpl. f_equal. now apply IH.
Qed.

Lemma flat_map_nil {A B : Type} (g : A -> list B) (l : list A) :
  (forall x, In x l -> g x = []) -> flat_map g l = [].
Proof.
  induction l as [|x l IH]; intros H; [reflexivity|].
  cbn [flat_map]. rewrite (H x) by now left. apply IH. intros y Hy. apply H. now right.
Qed.

Lemma last_unit_in c w : exists x, last_unit (Some c) w = Some x /\ (x = c \/ In x w).
Proof.
  unfold last_unit. destruct (rev w) as [|d q] eqn:E.
  - exists c. auto.
  - exists d. split; [reflexivity|]. right. apply in_rev. rewrite E. now left.
Qed.

Lemma takeWhile_forall p : forall s x, In x (takeWhile p s) -> p x = true.
Proof.
  induction s as [|c t IH]; intros x Hx; [destruct Hx|].
  cbn [takeWhile] in Hx. destruct (p c) eqn:E; [|destruct Hx].
  destruct Hx as [<-|Hx]; auto.
Qed.

End RegexFacts.
Import RegexFacts.

(** * countWords *)

Module WordCount.

Lemma match_here_bsl_s prev s :
  match_here re_bsl_s prev s =
  match s with
  | c :: t =>
      if N.eqb c BSL && (1 <=? length (takeWhile is_s t)) then
        Some (consumed (MState prev s []) (MState (last_unit (Some c) (takeWhile is_s t))
                                                  (dropWhile is_s t) []),
              [], MState (last_unit (Some c) (takeWhile is_s t)) (dropWhile is_s t) [])
      else None
  | [] => None
  end.
Proof.
  unfold match_here, re_bsl_s. cbn [seqs run m_rest m_caps bsl].
  destruct s as [|c t]; [reflexivity|].
  unfold eqc at 1. destruct (N.eqb c BSL) eqn:Ec; [|reflexivity].
  cbn [flat_map andb]. rewrite app_nil_r.
  change (run (plus (C "s")) (MState (Some c) t []))
    with (run (Rep true 1 None (Chr is_s)) (MState (Some c) t [])).
  rewrite run_rep_chr.
  destruct (1 <=? length (takeWhile is_s t)) eqn:El.
  - apply Nat.leb_le in El.
    destruct (rep_chr_list_hd is_s t (Some c) [] El) as [l Hl].
    rewrite Hl. reflexivity.
  - apply Nat.leb_gt in El. rewrite rep_chr_list_short by exact El. reflexivity.
Qed.

Lemma bsl_s_count_dropWhile : forall t, bsl_s_count (dropWhile is_s t) = bsl_s_count t.
Proof.
  induction t as [|c t IH]; [reflexivity|].
  cbn [dropWhile]. destruct (is_s c) eqn:Es; [|reflexivity].
  rewrite IH. cbn [bsl_s_count].
  unfold is_s, eqc in Es. apply N.eqb_eq in Es. subst c. reflexivity.
Qed.

Lemma takeWhile_head t :
  (1 <=? length (takeWhile is_s t)) = match t with d :: _ => is_s d | [] => false end.
Proof. destruct t as [|d t]; [reflexivity|]. simpl. destruct (is_s d); reflexivity. Qed.

Lemma split_loop_length : forall fuel prev cur s,
  length s < fuel ->
  length (split_loop re_bsl_s fuel prev cur s) = S (bsl_s_count s).
Proof.
  induction fuel as [|fuel IH]; intros prev cur s Hf; [lia|].
  cbn [split_loop]. destruct s as [|c t]; [reflexivity|].
  rewrite match_here_bsl_s. rewrite takeWhile_head.
  cbn [bsl_s_count].
  destruct (N.eqb c BSL && match t with d :: _ => is_s d | [] => false end) eqn:E.
  - destruct (consumed _ _) as [|x w] eqn:Ec.
    + exfalso. unfold consumed in Ec. cbn [m_rest] in Ec.
      pose proof (take_drop_while is_s t) as Htd.
      assert (length (dropWhile is_s t) <= length t).
      { rewrite <- Htd at 2. rewrite length_app. lia. }
      assert (Hlen : length (c :: t) - length (dropWhile is_s t)
                     = S (length t - length (dropWhile is_s t)))
        by (cbn [length]; lia).
      rewrite Hlen in Ec. discriminate.
    + cbn [length m_prev m_rest]. rewrite IH.
      * rewrite bsl_s_count_dropWhile. reflexivity.
      * pose proof (take_drop_while is_s t) as Htd.
        assert (length (dropWhile is_s t) <= length t).
        { rewrite <- Htd at 2. rewrite length_app. lia. }
        cbn [length] in Hf. lia.
  - rewrite IH by (simpl in Hf; lia). reflexivity.
Qed.

Lemma split_re_length s : length (split_re re_bsl_s s) = S (bsl_s_count s).
Proof.
  unfold split_re. destruct s as [|c t]; [reflexivity|].
  apply split_loop_length. simpl. lia.
Qed.

(** Appending after a text whose continuation does not start with the
    letter s adds up the counts. *)
Lemma bsl_s_count_app a b :
  match b with d :: _ => is_s d = false | [] => True end ->
  bsl_s_count (a ++ b) = bsl_s_count a + bsl_s_count b.
Proof.
  intros Hb. induction a as [|c a IH]; [reflexivity|].
  cbn [app bsl_s_count]. rewrite IH.
  assert (E : match a ++ b with d :: _ => is_s d | [] => false end
              = match a with d :: _ => is_s d | [] => false end).
  { destruct a as [|x a]; [|reflexivity]. simpl.
    destruct b as [|d b]; [reflexivity|exact Hb]. }
  rewrite E. lia.
Qed.

Lemma ws_not_bsl c : is_ws c = true -> N.eqb c BSL = false.
Proof.
  intros H. apply N.eqb_neq. intros ->. vm_compute in H. discriminate.
Qed.

Lemma ws_not_s c : is_ws c = true -> is_s c = false.
Proof.
  intros H. unfold is_s, eqc. apply N.eqb_neq. intros ->. vm_compute in H. discriminate.
Qed.

Lemma bsl_s_count_ws : forall w, forallb is_ws w = true -> bsl_s_count w = 0.
Proof.
  induction w as [|c w IH]; [reflexivity|]. cbn [forallb bsl_s_count].
  intros H. apply andb_true_iff in H as [Hc Hw].
  rewrite (ws_not_bsl c Hc), IH by exact Hw. reflexivity.
Qed.

Lemma dropWhile_split p : forall s,
  exists w, s = w ++ dropWhile p s /\ forallb p w = true.
Proof.
  induction s as [|c t [w [Hw1 Hw2]]].
  - exists []. split; reflexivity.
  - cbn [dropWhile]. destruct (p c) eqn:Hp.
    + exists (c :: w). split; [simpl; congruence|]. simpl. now rewrite Hp.
    + exists []. split; reflexivity.
Qed.

Lemma bsl_s_count_trimStart s : bsl_s_count (trimStart s) = bsl_s_count s.
Proof.
  unfold trimStart. induction s as [|c t IH]; [reflexivity|].
  cbn [dropWhile]. destruct (is_ws c) eqn:Hc; [|reflexivity].
  rewrite IH. cbn [bsl_s_count]. rewrite (ws_not_bsl c Hc). reflexivity.
Qed.

Lemma trimEnd_split s : exists w, s = trimEnd s ++ w /\ forallb is_ws w = true.
Proof.
  unfold trimEnd. destruct (dropWhile_split is_ws (rev s)) as [w [H1 H2]].
  exists (rev w). split.
  - rewrite <- (rev_involutive s) at 1. rewrite H1 at 1. now rewrite rev_app_distr.
  - rewrite forallb_forall in *. intros x Hx. apply H2. now apply in_rev.
Qed.

Lemma bsl_s_count_trimEnd s : bsl_s_count (trimEnd s) = bsl_s_count s.
Proof.
  destruct (trimEnd_split s) as [w [H1 H2]].
  rewrite H1 at 2. rewrite bsl_s_count_app.
  - rewrite (bsl_s_count_ws w H2). lia.
  - destruct w as [|d w]; [exact I|]. simpl in H2.
    apply andb_true_iff in H2 as [Hd _]. now apply ws_not_s.
Qed.

(** [countWords] counts one more than the matches of the pattern, and
    trimming does not change that. *)
Lemma countWords_spec text : countWords text = S (bsl_s_count text).
Proof.
  unfold countWords, trim.
  now rewrite split_re_length, bsl_s_count_trimEnd, bsl_s_count_trimStart.
Qed.

Lemma countWords_pos text : 1 <= countWords text.
Proof. rewrite countWords_spec. lia. Qed.

(** Joining two texts with the paragraph separator: the count of the
    result is one less than the sum of the counts. *)
Lemma countWords_join a p :
  S (countWords (a ++ u "\n\n" ++ p)) = countWords a + countWords p.
Proof.
  rewrite !countWords_spec. rewrite bsl_s_count_app by reflexivity.
  change (u "\n\n" ++ p) with (BSL :: chr "n" :: BSL :: chr "n" :: p).
  cbn [bsl_s_count]. simpl. lia.
Qed.

End WordCount.

(** * The chunker *)

Section FoldInvariant.
Context {A B : Type} (f : A -> B -> A) (P : list B -> A -> Prop).
Hypothesis step : forall done x a, P done a -> P (done ++ [x]) (f a x).

Lemma fold_left_invariant : forall l done a,
  P done a -> P (done ++ l) (fold_left f l a).
Proof.
  induction l as [|x l IH]; intros done a H.
  - now rewrite app_nil_r.
  - cbn [fold_left]. replace (done ++ x :: l) with ((done ++ [x]) ++ l).
    + apply IH. now apply step.
    + now rewrite <- app_assoc.
Qed.
End FoldInvariant.

Module Chunker.
Import WordCount.

Lemma join_snoc sep : forall ps p,
  ps <> [] -> join sep (ps ++ [p]) = join sep ps ++ sep ++ p.
Proof.
  induction ps as [|x ps IH]; intros p H; [congruence|].
  destruct ps as [|y ps]; [reflexivity|].
  change (join sep ((x :: y :: ps) ++ [p])) with (x ++ sep ++ join sep ((y :: ps) ++ [p])).
  rewrite IH by discriminate.
  change (join sep (x :: y :: ps)) with (x ++ sep ++ join sep (y :: ps)).
  now rewrite <- !app_assoc.
Qed.

Lemma join_nonempty sep ps : nonempty (join sep ps) = true -> ps <> [].
Proof. intros H ->. discriminate. Qed.

Lemma trim_nonempty s : nonempty (trim s) = true -> nonempty s = true.
Proof. destruct s; [discriminate|reflexivity]. Qed.

Lemma whole_paragraphs_more paragraphs x maxSize c :
  whole_paragraphs paragraphs maxSize c -> whole_paragraphs (paragraphs ++ [x]) maxSize c.
Proof.
  intros (before & ps & after & H1 & H2).
  exists before, ps, (after ++ [x]). split; [|exact H2].
  rewrite H1. now rewrite <- !app_assoc.
Qed.

Lemma part_chunk_whole section maxSize n title before ps :
  ps <> [] ->
  (countWords (join SEP ps) <= maxSize \/ length ps <= 1) ->
  whole_paragraphs (before ++ ps) maxSize (part_chunk section n title (join SEP ps)).
Proof.
  intros Hne Hb. exists before, ps, []. rewrite app_nil_r.
  repeat split; try assumption. cbn [part_chunk c_wordCount].
  destruct (Nat.le_gt_cases (countWords (join SEP ps)) maxSize) as [Hle|Hgt]; [now left|].
  right. destruct Hb as [Hb|Hb]; [lia|].
  destruct ps as [|p [|q ps]]; [congruence| |simpl in Hb; lia].
  exists p. split; [reflexivity|exact Hgt].
Qed.

Lemma paragraph_step_inv section maxSize done x st :
  split_inv maxSize done st ->
  split_inv maxSize (done ++ [x]) (paragraph_step section maxSize st x).
Proof.
  destruct st as [[chunks cur] idx]. intros [Hch (before & ps & Hd & Hc & Hb)].
  unfold paragraph_step.
  destruct ((countWords cur + countWords x <=? maxSize) && nonempty cur) eqn:E.
  - apply andb_true_iff in E as [E1 E2]. apply Nat.leb_le in E1.
    split; [intros c Hin; apply whole_paragraphs_more; auto|].
    exists before, (ps ++ [x]). split; [rewrite Hd; now rewrite app_assoc|].
    assert (Hne : ps <> []) by (apply (join_nonempty SEP); now rewrite <- Hc).
    split; [rewrite join_snoc by exact Hne; now rewrite <- Hc|].
    left. pose proof (countWords_join cur x) as Hj.
    change (u "\n\n") with SEP in *. lia.
  - destruct (nonempty (trim cur)) eqn:Et.
    + split.
      * intros c Hin. apply in_app_or in Hin. destruct Hin as [Hin|[<-|[]]].
        -- apply whole_paragraphs_more; auto.
        -- apply whole_paragraphs_more. rewrite Hd, Hc.
           apply part_chunk_whole; [|now rewrite <- Hc].
           apply (join_nonempty SEP). rewrite <- Hc. now apply trim_nonempty.
      * exists done, [x]. repeat split. right. simpl. lia.
    + split; [intros c Hin; apply whole_paragraphs_more; auto|].
      exists done, [x]. repeat split. right. simpl. lia.
Qed.

(** Every chunk of [splitLargeSection] is made of whole paragraphs. *)
Lemma splitLargeSection_whole section maxSize c :
  In c (splitLargeSection section maxSize) ->
  whole_paragraphs (split (h_content section) SEP) maxSize c.
Proof.
  unfold splitLargeSection. fold SEP.
  pose proof (fold_left_invariant (paragraph_step section maxSize) (split_inv maxSize)
                (fun done x a => @paragraph_step_inv section maxSize done x a)
                (split (h_content section) SEP) [] ([], [], 0)) as H.
  cbn [app] in H.
  destruct (fold_left _ _ _) as [[chunks cur] idx].
  destruct H as [Hch (before & ps & Hd & Hc & Hb)].
  { split; [intros c0 []|]. exists [], []. repeat split. right. simpl. lia. }
  destruct (nonempty (trim cur)) eqn:Et; [|now apply Hch].
  intros Hin. apply in_app_or in Hin. destruct Hin as [Hin|[<-|[]]]; [now apply Hch|].
  rewrite Hd, Hc. apply part_chunk_whole; [|now rewrite <- Hc].
  apply (join_nonempty SEP). rewrite <- Hc. now apply trim_nonempty.
Qed.

(** ** chunkContent *)

Lemma str_eqb_eq : forall a b, str_eqb a b = true -> a = b.
Proof.
  induction a as [|x a IH]; destruct b as [|y b]; simpl; try discriminate; [reflexivity|].
  intros H. apply andb_true_iff in H as [H1 H2].
  apply N.eqb_eq in H1. f_equal; auto.
Qed.

Lemma chunkType_push_section t : forall m,
  meta_get (u "chunkType") (push_section t m) = meta_get (u "chunkType") m.
Proof.
  induction m as [|[k v] m IH]; [reflexivity|].
  cbn [push_section]. destruct (str_eqb k (u "sections")) eqn:E.
  - apply str_eqb_eq in E. subst k. reflexivity.
  - cbn [meta_get]. now rewrite IH.
Qed.

Lemma chunk_ok_more sections x size c :
  chunk_ok sections size c -> chunk_ok (sections ++ [x]) size c.
Proof.
  intros [H|[Ht (section & Hin & H)]]; [now left|right].
  split; [exact Ht|]. exists section. split; [apply in_or_app; now left|exact H].
Qed.

Lemma sub_chunks_in section : forall subChunks chunkIndex c,
  In c (sub_chunks section chunkIndex subChunks) ->
  exists sub,
    In sub subChunks /\ c_content c = c_content sub /\ c_wordCount c = c_wordCount sub /\
    c_title c = c_title sub /\
    c_metadata c = [(u "parentSection", MStr (h_title section));
                    (u "chunkType", MStr (u "subsection"))].
Proof.
  induction subChunks as [|sub rest IH]; intros chunkIndex c Hin; [destruct Hin|].
  destruct Hin as [<-|Hin].
  - exists sub. cbn. auto.
  - destruct (IH _ _ Hin) as (sub' & H1 & H2). exists sub'. split; [now right|exact H2].
Qed.

Lemma whole_paragraphs_ext paragraphs size c c' :
  c_content c' = c_content c -> c_wordCount c' = c_wordCount c ->
  whole_paragraphs paragraphs size c -> whole_paragraphs paragraphs size c'.
Proof.
  intros E1 E2 (before & ps & after & H). exists before, ps, after.
  rewrite E1, E2. exact H.
Qed.

Lemma push_current_ok size done st c :
  chunk_inv size done st -> In c (push_current st) -> chunk_ok done size c.
Proof.
  intros [H1 H2]. unfold push_current. destruct (cs_current st) as [cur|].
  - intros Hin. apply in_app_or in Hin. destruct Hin as [Hin|[<-|[]]]; [auto|].
    left. now apply H2.
  - auto.
Qed.

Lemma new_chunk_inv size done st section :
  chunk_inv size done st -> chunk_inv size (done ++ [section]) (new_chunk size st section).
Proof.
  intros Hinv. unfold new_chunk.
  destruct (size <? countWords (h_content section)) eqn:E.
  - apply Nat.ltb_lt in E. split; [|discriminate].
    cbn [cs_chunks]. intros c Hin. apply in_app_or in Hin. destruct Hin as [Hin|Hin].
    + apply chunk_ok_more. eapply push_current_ok; eauto.
    + right. apply sub_chunks_in in Hin.
      destruct Hin as (sub & Hsub & Hc & Hw & _ & Hm).
      split; [unfold chunkType; now rewrite Hm|].
      exists section. split; [apply in_or_app; right; now left|].
      split; [exact E|]. split; [now rewrite Hm|].
      eapply whole_paragraphs_ext; [exact Hc|exact Hw|].
      now apply splitLargeSection_whole.
  - apply Nat.ltb_ge in E. split.
    + cbn [cs_chunks]. intros c Hin. apply chunk_ok_more. eapply push_current_ok; eauto.
    + cbn [cs_current]. intros cur Hcur. injection Hcur as <-.
      split; [reflexivity|exact E].
Qed.

Lemma chunk_step_inv size done section st :
  chunk_inv size done st -> chunk_inv size (done ++ [section]) (chunk_step size st section).
Proof.
  intros Hinv. unfold chunk_step. destruct (cs_current st) as [cur|] eqn:Ecur.
  - destruct (c_wordCount cur + countWords (h_content section) <=? size) eqn:E.
    + apply Nat.leb_le in E. destruct Hinv as [H1 H2]. split.
      * cbn [cs_chunks]. intros c Hin. apply chunk_ok_more. auto.
      * cbn [cs_current]. intros c Hc. injection Hc as <-.
        destruct (H2 cur Ecur) as [Ht _]. split; [|exact E].
        unfold chunkType in *. cbn [c_metadata]. now rewrite chunkType_push_section.
    + now apply new_chunk_inv.
  - now apply new_chunk_inv.
Qed.

Lemma addChunkContext_in chunks c :
  In c (addChunkContext chunks) ->
  exists c0 context, In c0 chunks /\ c = with_context c0 context.
Proof.
  unfold addChunkContext. intros Hin. apply in_map_iff in Hin.
  destruct Hin as ([index c0] & <- & Hin). apply in_combine_r in Hin. eauto.
Qed.

Lemma chunk_ok_with_context sections size c context :
  chunk_ok sections size c -> chunk_ok sections size (with_context c context).
Proof.
  intros [[H1 H2]|[H1 (section & H2 & H3 & H4 & H5)]]; [left; now split|right].
  split; [exact H1|]. exists section. split; [exact H2|]. split; [exact H3|].
  split; [exact H4|]. exact H5.
Qed.

Lemma chunkContent_ok markdown options c :
  In c (chunkContent markdown options) ->
  chunk_ok (splitByHeaders markdown) (chunkSize options) c.
Proof.
  unfold chunkContent. intros Hin.
  apply addChunkContext_in in Hin. destruct Hin as (c0 & context & Hin & ->).
  apply chunk_ok_with_context. eapply push_current_ok; [|exact Hin].
  apply (fold_left_invariant (chunk_step (chunkSize options)) (chunk_inv (chunkSize options))
           (fun done x a => @chunk_step_inv (chunkSize options) done x a)
           (splitByHeaders markdown) [] (mkChunkState [] None 0)).
  split; [intros c1 []|discriminate].
Qed.

End Chunker.

(** * The doc references of convertContentToMarkdown *)

Module DocRefs.

(** What follows [:doc:] and the backtick: the units up to the next
    backtick, at least one. *)
Lemma run_doc_tail prev t caps :
  run (Seq (Grp 1 (plus (Chr notbt))) bt) (MState prev t caps) =
  match takeWhile notbt t, dropWhile notbt t with
  | _ :: _, c :: post =>
      if N.eqb c BTICK
      then [MState (Some c) post ((1, takeWhile notbt t) :: caps)]
      else []
  | _, _ => []
  end.
Proof.
  cbn [run]. change (run (plus (Chr notbt)) (MState prev t caps))
    with (run (Rep true 1 None (Chr notbt)) (MState prev t caps)).
  rewrite run_rep_chr.
  destruct (takeWhile notbt t) as [|x w] eqn:Etw.
  - rewrite rep_chr_list_short by (rewrite Etw; simpl; lia). reflexivity.
  - destruct (rep_chr_list_shape notbt t (lo:=1) prev caps) as [l [Hl Hin]];
      [rewrite Etw; simpl; lia|].
    rewrite Hl. cbn [List.map flat_map]. rewrite flat_map_nil.
    + rewrite app_nil_r. cbn [m_prev m_rest m_caps]. unfold consumed. cbn [m_rest].
      rewrite firstn_takeWhile, Etw.
      destruct (dropWhile notbt t) as [|c post]; [reflexivity|].
      unfold bt, eqc. cbn [run m_rest m_caps]. destruct (N.eqb c BTICK); reflexivity.
    + intros st Hst. apply in_map_iff in Hst. destruct Hst as (st0 & <- & Hst0).
      destruct (Hin st0 Hst0) as [_ (c & t' & Hr & Hc)].
      unfold bt. cbn [run m_rest]. rewrite Hr.
      unfold notbt, neqc in Hc. unfold eqc. apply negb_true_iff in Hc. now rewrite Hc.
Qed.

Lemma run_doc prev s :
  run re_doc (MState prev s []) =
  match strip_prefix DOC_OPEN s with
  | Some t =>
      match takeWhile notbt t, dropWhile notbt t with
      | _ :: _, c :: post =>
          if N.eqb c BTICK then [MState (Some c) post [(1, takeWhile notbt t)]] else []
      | _, _ => []
      end
  | None => []
  end.
Proof.
  change re_doc with
    (Seq (seqs (List.map (fun c => Chr (eqc c)) (chr ":" :: u "doc:")))
         (Seq bt (Seq (Grp 1 (plus (Chr notbt))) bt))).
  rewrite run_seq, run_literal.
  destruct (strip_prefix (chr ":" :: u "doc:") s) as [t0|] eqn:E.
  - apply strip_prefix_some in E. subst s.
    cbn [flat_map]. rewrite app_nil_r.
    change (run (Seq bt (Seq (Grp 1 (plus (Chr notbt))) bt)))
      with (run (Seq (Chr (eqc BTICK)) (Seq (Grp 1 (plus (Chr notbt))) bt))).
    rewrite run_seq_chr.
    destruct t0 as [|c t]; [reflexivity|].
    change (strip_prefix DOC_OPEN ((chr ":" :: u "doc:") ++ c :: t))
      with (if N.eqb c BTICK then Some t else None).
    unfold eqc. destruct (N.eqb c BTICK); [|reflexivity].
    apply run_doc_tail.
  - assert (H : strip_prefix DOC_OPEN s = None).
    { destruct (strip_prefix DOC_OPEN s) as [t|] eqn:E'; [|reflexivity].
      apply strip_prefix_some in E'. subst s.
      change (DOC_OPEN ++ t) with ((chr ":" :: u "doc:") ++ BTICK :: t) in E.
      rewrite strip_prefix_app in E. discriminate. }
    rewrite H. reflexivity.
Qed.

Lemma match_here_doc_indep prev prev' s : match_here re_doc prev s = match_here re_doc prev' s.
Proof.
  unfold match_here. rewrite !run_doc. unfold consumed. reflexivity.
Qed.

(** A reference at the head of the text is matched whole. *)
Lemma match_here_doc prev ref post :
  ref <> [] -> forallb notbt ref = true ->
  exists c w,
    match_here re_doc prev (DOC_OPEN ++ ref ++ BTICK :: post)
    = Some (c :: w, [(1, ref)], MState (Some BTICK) post [(1, ref)]).
Proof.
  intros Hne Hall. unfold match_here. rewrite run_doc, strip_prefix_app.
  destruct (takeWhile_all notbt ref (BTICK :: post) Hall eq_refl) as [H1 H2].
  rewrite H1, H2. destruct ref as [|x ref]; [congruence|].
  rewrite N.eqb_refl.
  destruct (consumed_cons prev (DOC_OPEN ++ (x :: ref) ++ BTICK :: post) []
              (MState (Some BTICK) post [(1, x :: ref)])) as (c & w & Hc).
  { cbn [m_rest]. rewrite !length_app. simpl. lia. }
  exists c, w. cbn [m_caps]. do 3 f_equal. exact Hc.
Qed.

(** No reference starts inside a text without backticks that precedes one. *)
Lemma no_doc_inside x pre rest :
  forallb notbt (x :: pre) = true -> strip_prefix DOC_OPEN ((x :: pre) ++ DOC_OPEN ++ rest) = None.
Proof.
  intros H.
  destruct (strip_prefix DOC_OPEN ((x :: pre) ++ DOC_OPEN ++ rest)) as [t|] eqn:E; [|reflexivity].
  exfalso. apply strip_prefix_some in E.
  assert (Hn : nth 5 ((x :: pre) ++ DOC_OPEN ++ rest) 0%N = BTICK) by (rewrite E; reflexivity).
  assert (Hpre : forall n, n < length (x :: pre) -> nth n (x :: pre) 0%N <> BTICK).
  { intros n Hlt Heq. rewrite forallb_forall in H.
    specialize (H (nth n (x :: pre) 0%N) (nth_In _ _ Hlt)).
    rewrite Heq in H. discriminate. }
  destruct (Nat.lt_ge_cases 5 (length (x :: pre))) as [Hlt|Hge].
  - rewrite app_nth1 in Hn by exact Hlt. exact (Hpre 5 Hlt Hn).
  - rewrite app_nth2 in Hn by exact Hge.
    assert (Hk : 5 - length (x :: pre) <= 4) by (cbn [length]; lia).
    destruct (5 - length (x :: pre)) as [|[|[|[|[|k]]]]]; try discriminate Hn. lia.
Qed.

Lemma rl_doc_pre options : forall pre prev ref post,
  forallb notbt pre = true -> ref <> [] -> forallb notbt ref = true ->
  rl re_doc (doc_replacer options) prev (pre ++ DOC_OPEN ++ ref ++ BTICK :: post)
  = pre ++ doc_link options ref ++ rl re_doc (doc_replacer options) None post.
Proof.
  induction pre as [|x pre IH]; intros prev ref post Hpre Hne Href.
  - cbn [app]. destruct (match_here_doc prev post Hne Href) as (c & w & Hm).
    assert (Hs : exists d t, DOC_OPEN ++ ref ++ BTICK :: post = d :: t) by (cbn; eauto).
    destruct Hs as (d & t & Hs). rewrite Hs in *. rewrite rl_cons, Hm.
    cbn [m_prev m_rest]. unfold doc_replacer at 1. unfold cap. cbn [cap_lookup Nat.eqb].
    apply (f_equal (fun z => doc_link options ref ++ z)).
    apply rl_prev_indep. intros. apply match_here_doc_indep.
  - cbn [app]. rewrite rl_cons.
    assert (Hm : match_here re_doc prev (x :: pre ++ DOC_OPEN ++ ref ++ BTICK :: post) = None).
    { unfold match_here. rewrite run_doc.
      change (x :: pre ++ DOC_OPEN ++ ref ++ BTICK :: post)
        with ((x :: pre) ++ DOC_OPEN ++ ref ++ BTICK :: post).
      now rewrite no_doc_inside. }
    rewrite Hm. f_equal. apply IH; try assumption.
    simpl in Hpre. now apply andb_true_iff in Hpre as [_ Hpre].
Qed.

Lemma refs_closed_app : forall a b, refs_closed (a ++ b) = true -> refs_closed b = true.
Proof.
  induction a as [|x a IH]; intros b H; [exact H|].
  cbn [app refs_closed] in H. apply andb_true_iff in H as [_ H]. now apply IH.
Qed.

(** An opener does not straddle the end of a text that an opener follows. *)
Lemma strip_doc_app x pre rest :
  strip_prefix DOC_OPEN ((x :: pre) ++ DOC_OPEN ++ rest)
  = option_map (fun t => t ++ DOC_OPEN ++ rest) (strip_prefix DOC_OPEN (x :: pre)).
Proof.
  change DOC_OPEN with [58; 100; 111; 99; 58; 96]%N.
  destruct pre as [|b [|c [|d [|e [|f pre]]]]];
    cbn [app strip_prefix option_map];
    repeat match goal with
           | |- context [N.eqb ?v ?k] => is_var v; destruct (N.eqb v k)
           end; reflexivity.
Qed.

(** The text up to the first backtick. *)
Lemma first_backtick : forall s,
  forallb notbt s = false ->
  exists w p, s = w ++ BTICK :: p /\ forallb notbt w = true.
Proof.
  induction s as [|c s IH]; intros H; [discriminate|].
  cbn [forallb] in H. destruct (notbt c) eqn:Hc.
  - destruct (IH H) as (w & p & -> & Hw). exists (c :: w), p. split; [reflexivity|].
    cbn [forallb]. now rewrite Hc.
  - exists [], s. split; [|reflexivity]. unfold notbt, neqc in Hc.
    apply negb_false_iff, N.eqb_eq in Hc. now subst.
Qed.

(** One step of the rewrite of the references. *)
Lemma rl_doc_step options prev s :
  rl re_doc (doc_replacer options) prev s =
  match strip_prefix DOC_OPEN s with
  | Some t =>
      match takeWhile notbt t, dropWhile notbt t with
      | _ :: _, _ :: post =>
          doc_link options (takeWhile notbt t) ++ rl re_doc (doc_replacer options) None post
      | _, _ =>
          match s with
          | [] => []
          | c :: s' => c :: rl re_doc (doc_replacer options) None s'
          end
      end
  | None =>
      match s with
      | [] => []
      | c :: s' => c :: rl re_doc (doc_replacer options) None s'
      end
  end.
Proof.
  assert (Hcopy : match_here re_doc prev s = None ->
                  rl re_doc (doc_replacer options) prev s =
                  match s with
                  | [] => []
                  | c :: s' => c :: rl re_doc (doc_replacer options) None s'
                  end).
  { intros Hm. destruct s as [|c s']; [now rewrite rl_nil, Hm|].
    rewrite rl_cons, Hm. apply (f_equal (cons c)).
    apply rl_prev_indep. intros. apply match_here_doc_indep. }
  destruct (strip_prefix DOC_OPEN s) as [t|] eqn:E.
  - destruct (takeWhile notbt t) as [|x w] eqn:Etw.
    + apply Hcopy. unfold match_here. now rewrite run_doc, E, Etw.
    + destruct (dropWhile notbt t) as [|c post] eqn:Edw.
      * apply Hcopy. unfold match_here. now rewrite run_doc, E, Etw, Edw.
      * assert (Hc : N.eqb c BTICK = true).
        { assert (Hd : notbt c = false).
          { clear - Edw. induction t as [|y t IH]; [discriminate|].
            cbn [dropWhile] in Edw. destruct (notbt y) eqn:Hy; [now apply IH|].
            injection Edw as Hy' _. now rewrite <- Hy'. }
          unfold notbt, neqc in Hd. now apply negb_false_iff in Hd. }
        apply strip_prefix_some in E. subst s.
        assert (Hs : exists d s', DOC_OPEN ++ t = d :: s') by (cbn; eauto).
        destruct Hs as (d & s' & Hs). rewrite Hs.
        assert (Hm : exists y v,
                   match_here re_doc prev (d :: s')
                   = Some (y :: v, [(1, x :: w)], MState (Some c) post [(1, x :: w)])).
        { rewrite <- Hs. unfold match_here. rewrite run_doc, strip_prefix_app, Etw, Edw, Hc.
          destruct (consumed_cons prev (DOC_OPEN ++ t) []
                      (MState (Some c) post [(1, x :: w)])) as (y & v & Hy).
          { cbn [m_rest]. rewrite length_app, <- (take_drop_while notbt t), Etw, Edw.
            rewrite length_app. simpl. lia. }
          exists y, v. cbn [m_caps]. do 3 f_equal. exact Hy. }
        destruct Hm as (y & v & Hm). rewrite rl_cons, Hm. cbn [m_prev m_rest].
        unfold doc_replacer at 1. unfold cap. cbn [cap_lookup Nat.eqb].
        apply (f_equal (app (doc_link options (x :: w)))).
        apply rl_prev_indep. intros. apply match_here_doc_indep.
  - apply Hcopy. unfold match_here. now rewrite run_doc, E.
Qed.

(** The references of a text in which none is left open are rewritten
    without regard to a reference that follows the text. *)
Lemma rl_doc_split options rest : forall n pre prev,
  length pre <= n -> refs_closed pre = true ->
  rl re_doc (doc_replacer options) prev (pre ++ DOC_OPEN ++ rest)
  = rl re_doc (doc_replacer options) prev pre
    ++ rl re_doc (doc_replacer options) None (DOC_OPEN ++ rest).
Proof.
  induction n as [|n IH]; intros pre prev Hn Hc.
  - destruct pre; [|simpl in Hn; lia]. cbn [app]. rewrite (rl_doc_step options prev []).
    cbn [app]. apply rl_prev_indep. intros. apply match_here_doc_indep.
  - destruct pre as [|x pre].
    + cbn [app]. rewrite (rl_doc_step options prev []).
      cbn [app]. apply rl_prev_indep. intros. apply match_here_doc_indep.
    + assert (Hpre : refs_closed pre = true).
      { cbn [refs_closed] in Hc. now apply andb_true_iff in Hc as [_ Hc]. }
      assert (Hcopy : x :: rl re_doc (doc_replacer options) None (pre ++ DOC_OPEN ++ rest)
                      = (x :: rl re_doc (doc_replacer options) None pre)
                        ++ rl re_doc (doc_replacer options) None (DOC_OPEN ++ rest)).
      { cbn [app]. f_equal. apply IH; [simpl in Hn; lia|exact Hpre]. }
      rewrite (rl_doc_step options prev ((x :: pre) ++ DOC_OPEN ++ rest)).
      rewrite (rl_doc_step options prev (x :: pre)).
      rewrite strip_doc_app.
      destruct (strip_prefix DOC_OPEN (x :: pre)) as [p1|] eqn:E; cbn [option_map];
        [|exact Hcopy].
      assert (Hp1 : forallb notbt p1 = false).
      { cbn [refs_closed] in Hc. rewrite E in Hc. apply andb_true_iff in Hc as [Hc _].
        now apply negb_true_iff in Hc. }
      destruct (first_backtick p1 Hp1) as (w & p2 & -> & Hw).
      apply strip_prefix_some in E.
      destruct (takeWhile_all notbt w (BTICK :: p2) Hw eq_refl) as [T1 D1].
      assert (Hw' : takeWhile notbt ((w ++ BTICK :: p2) ++ DOC_OPEN ++ rest) = w /\
                    dropWhile notbt ((w ++ BTICK :: p2) ++ DOC_OPEN ++ rest)
                    = BTICK :: p2 ++ DOC_OPEN ++ rest).
      { rewrite <- app_assoc. cbn [app].
        exact (takeWhile_all notbt w (BTICK :: p2 ++ DOC_OPEN ++ rest) Hw eq_refl). }
      destruct Hw' as [T2 D2]. rewrite T1, D1, T2, D2.
      destruct w as [|y w]; [exact Hcopy|].
      rewrite <- app_assoc. apply (f_equal (app (doc_link options (y :: w)))).
      apply IH.
      * apply (f_equal (@length N)) in E. rewrite !length_app in E. simpl in E, Hn. lia.
      * rewrite E in Hc. apply (refs_closed_app (DOC_OPEN ++ (y :: w) ++ [BTICK]) p2).
        rewrite <- !app_assoc. exact Hc.
Qed.

(** A text without an opener is left as it is. *)
Lemma rl_doc_none options : forall s prev,
  includes s DOC_OPEN = false -> rl re_doc (doc_replacer options) prev s = s.
Proof.
  induction s as [|c s IH]; intros prev H.
  - now rewrite rl_doc_step.
  - rewrite rl_doc_step. cbn [includes] in H. apply orb_false_iff in H as [H1 H2].
    unfold startsWith in H1. destruct (strip_prefix DOC_OPEN (c :: s)); [discriminate|].
    f_equal. now apply IH.
Qed.

Lemma convertDocReferences_behind options pre ref post :
  refs_closed pre = true -> ref <> [] -> forallb notbt ref = true ->
  convertDocReferences options (pre ++ DOC_OPEN ++ ref ++ BTICK :: post)
  = convertDocReferences options pre ++ doc_link options ref
    ++ convertDocReferences options post.
Proof.
  intros Hc Hne Href. unfold convertDocReferences. rewrite !replace_all_rl.
  change (fun (_ : str) caps => doc_link options (cap 1 caps)) with (doc_replacer options).
  rewrite (@rl_doc_split options (ref ++ BTICK :: post) (length pre) pre None (le_n _) Hc).
  f_equal. exact (@rl_doc_pre options [] None ref post eq_refl Hne Href).
Qed.

Lemma convertDocReferences_none options s :
  includes s DOC_OPEN = false -> convertDocReferences options s = s.
Proof.
  intros H. unfold convertDocReferences. rewrite replace_all_rl. now apply rl_doc_none.
Qed.

End DocRefs.

(** * The cleanup rewrites *)

Module Cleanup.

Lemma takeWhile_dropWhile p : forall s, takeWhile p (dropWhile p s) = [].
Proof.
  induction s as [|c t IH]; [reflexivity|].
  cbn [dropWhile]. destruct (p c) eqn:E; [exact IH|]. simpl. now rewrite E.
Qed.

Lemma dropWhile_length p s : length (dropWhile p s) <= length s.
Proof. rewrite <- (take_drop_while p s) at 2. rewrite length_app. lia. Qed.

(** ** The collapse of the newline runs *)

Lemma match_here_newlines prev s :
  match_here re_newlines prev s =
  match s with
  | c :: t =>
      if newlines_here s then
        Some (consumed (MState prev s []) (MState (last_unit (Some c) (takeWhile is_n t))
                                                  (dropWhile is_n t) []),
              [], MState (last_unit (Some c) (takeWhile is_n t)) (dropWhile is_n t) [])
      else None
  | [] => None
  end.
Proof.
  unfold match_here, re_newlines. cbn [seqs]. unfold bsl. rewrite run_seq_chr.
  destruct s as [|c t]; [reflexivity|]. cbn [newlines_here].
  unfold eqc at 1. destruct (N.eqb c BSL) eqn:Ec; [|reflexivity]. cbn [andb].
  change (run (Rep true 3 None (C "n")) (MState (Some c) t []))
    with (run (Rep true 3 None (Chr is_n)) (MState (Some c) t [])).
  rewrite run_rep_chr.
  destruct (3 <=? length (takeWhile is_n t)) eqn:El.
  - apply Nat.leb_le in El.
    destruct (rep_chr_list_hd is_n t (Some c) [] El) as [l Hl]. rewrite Hl. reflexivity.
  - apply Nat.leb_gt in El. rewrite rep_chr_list_short by exact El. reflexivity.
Qed.

Lemma collapse_nil prev : collapse prev [] = [].
Proof. unfold collapse. rewrite rl_nil, match_here_newlines. reflexivity. Qed.

Lemma collapse_cons prev c t :
  collapse prev (c :: t) =
  if newlines_here (c :: t)
  then u "\n\n" ++ collapse (last_unit (Some c) (takeWhile is_n t)) (dropWhile is_n t)
  else c :: collapse (Some c) t.
Proof.
  unfold collapse. rewrite rl_cons, match_here_newlines.
  destruct (newlines_here (c :: t)) eqn:E; [|reflexivity].
  destruct (consumed_cons prev (c :: t) []
              (MState (last_unit (Some c) (takeWhile is_n t)) (dropWhile is_n t) []))
    as (x & w & Hc).
  { cbn [m_rest length]. pose proof (dropWhile_length is_n t). lia. }
  rewrite Hc. reflexivity.
Qed.

(** The rewritten text starts with the same run of the letter n. *)
Lemma takeWhile_collapse : forall t prev,
  takeWhile is_n (collapse prev t) = takeWhile is_n t.
Proof.
  induction t as [|c t IH]; intros prev; [now rewrite collapse_nil|].
  rewrite collapse_cons. destruct (newlines_here (c :: t)) eqn:E.
  - cbn [newlines_here] in E. apply andb_true_iff in E as [E _].
    apply N.eqb_eq in E. subst c. reflexivity.
  - cbn [takeWhile]. now rewrite IH.
Qed.

Lemma no_match_newlines prev s :
  no_match re_newlines prev s <->
  (newlines_here s = false /\
   match s with [] => True | c :: t => no_match re_newlines (Some c) t end).
Proof.
  destruct s as [|c t]; cbn [no_match]; rewrite match_here_newlines.
  - split; intros; split; auto.
  - destruct (newlines_here (c :: t)); split; intros [H1 H2]; split; auto; discriminate.
Qed.

Lemma collapse_clean : forall n s prev prev',
  length s <= n -> no_match re_newlines prev' (collapse prev s).
Proof.
  induction n as [|n IH]; intros s prev prev' Hn.
  - destruct s; [|simpl in Hn; lia]. rewrite collapse_nil.
    apply no_match_newlines. split; [reflexivity|exact I].
  - destruct s as [|c t].
    { rewrite collapse_nil. apply no_match_newlines. split; [reflexivity|exact I]. }
    rewrite collapse_cons. destruct (newlines_here (c :: t)) eqn:E.
    + set (o := collapse _ (dropWhile is_n t)).
      assert (Ho : takeWhile is_n o = []).
      { unfold o. rewrite takeWhile_collapse. apply takeWhile_dropWhile. }
      assert (Hclean : no_match re_newlines (Some (chr "n")) o).
      { unfold o. apply IH. pose proof (dropWhile_length is_n t). simpl in Hn. lia. }
      change (u "\n\n" ++ o) with (BSL :: chr "n" :: BSL :: chr "n" :: o).
      apply no_match_newlines. split; [reflexivity|].
      apply no_match_newlines. split; [reflexivity|].
      apply no_match_newlines. split.
      { cbn [newlines_here takeWhile]. change (is_n (chr "n")) with true. cbn iota.
        rewrite Ho. reflexivity. }
      apply no_match_newlines. split; [reflexivity|exact Hclean].
    + apply no_match_newlines. split.
      * cbn [newlines_here] in *. now rewrite takeWhile_collapse.
      * apply IH. simpl in Hn. lia.
Qed.

Lemma collapseNewlines_idempotent markdown :
  collapseNewlines (collapseNewlines markdown) = collapseNewlines markdown.
Proof.
  unfold collapseNewlines. rewrite !replace_all_rl.
  apply rl_no_match. apply (collapse_clean (n := length markdown)). lia.
Qed.

(** ** The clamp of the header depth *)

Lemma run_header_tail prev s :
  run (Seq bsl (plus (C "s"))) (MState prev s []) =
  match s with
  | c :: t =>
      if tail_here s
      then rep_chr_list is_s 1 (Some c) t []
      else []
  | [] => []
  end.
Proof.
  unfold bsl. rewrite run_seq_chr. destruct s as [|c t]; [reflexivity|].
  cbn [tail_here]. unfold eqc at 1. destruct (N.eqb c BSL); [|reflexivity]. cbn [andb].
  change (run (plus (C "s")) (MState (Some c) t []))
    with (run (Rep true 1 None (Chr is_s)) (MState (Some c) t [])).
  rewrite run_rep_chr.
  destruct (1 <=? length (takeWhile is_s t)) eqn:El; [reflexivity|].
  apply Nat.leb_gt in El. now rewrite rep_chr_list_short.
Qed.

Lemma match_here_header prev s :
  match_here re_deep_header prev s =
  if bolp prev && header_here s
  then Some (consumed (MState prev s []) (after_header s), [], after_header s)
  else None.
Proof.
  unfold match_here, re_deep_header. cbn [seqs]. rewrite run_seq.
  assert (Hbol : run (Bol true) (MState prev s []) = if bolp prev then [MState prev s []] else []).
  { cbn [run m_prev]. destruct prev as [c|]; [|reflexivity]. cbn [bolp andb].
    destruct (is_lt c); reflexivity. }
  rewrite Hbol. destruct (bolp prev); [|reflexivity]. cbn [flat_map andb]. rewrite app_nil_r.
  rewrite run_seq.
  change (run (Rep true 5 None (C "#")) (MState prev s []))
    with (run (Rep true 5 None (Chr is_hash)) (MState prev s [])).
  rewrite run_rep_chr. unfold header_here.
  destruct (5 <=? length (takeWhile is_hash s)) eqn:El.
  - apply Nat.leb_le in El.
    destruct (rep_chr_list_shape is_hash s prev [] El) as [l [Hl Hin]].
    rewrite Hl. cbn [flat_map andb]. rewrite (flat_map_nil _ l).
    + rewrite app_nil_r, run_header_tail. unfold after_header.
      destruct (dropWhile is_hash s) as [|c t]; [reflexivity|].
      destruct (tail_here (c :: t)) eqn:Et; [|reflexivity].
      cbn [tail_here] in Et. apply andb_true_iff in Et as [_ Et]. apply Nat.leb_le in Et.
      destruct (rep_chr_list_hd is_s t (Some c) [] Et) as [l' Hl'].
      rewrite Hl'. reflexivity.
    + intros st Hst. destruct (Hin st Hst) as [Hcaps (c & t & Hr & Hc)].
      destruct st as [p0 r0 c0]. cbn [m_rest m_caps] in *. subst r0 c0.
      rewrite run_header_tail. cbn [tail_here].
      unfold is_hash, eqc in Hc. apply N.eqb_eq in Hc. subst c. reflexivity.
  - apply Nat.leb_gt in El. rewrite rep_chr_list_short by exact El. reflexivity.
Qed.

Lemma clamp_nil prev : clamp prev [] = [].
Proof.
  unfold clamp. rewrite rl_nil, match_here_header.
  change (header_here []) with false. now rewrite andb_false_r.
Qed.

Lemma after_header_shorter c t :
  header_here (c :: t) = true -> length (m_rest (after_header (c :: t))) < length (c :: t).
Proof.
  unfold header_here, after_header. intros H. apply andb_true_iff in H as [_ H].
  pose proof (dropWhile_length is_hash (c :: t)) as H1.
  destruct (dropWhile is_hash (c :: t)) as [|d r]; [discriminate|].
  cbn [m_rest]. pose proof (dropWhile_length is_s r). cbn [length] in *. lia.
Qed.

Lemma after_header_prev s : header_here s = true -> bolp (m_prev (after_header s)) = false.
Proof.
  unfold header_here, after_header. intros H. apply andb_true_iff in H as [_ H].
  destruct (dropWhile is_hash s) as [|d r]; [discriminate|].
  cbn [tail_here] in H. apply andb_true_iff in H as [Hd _]. apply N.eqb_eq in Hd. subst d.
  cbn [m_prev]. destruct (last_unit_in BSL (takeWhile is_s r)) as (x & -> & [->|Hx]).
  - reflexivity.
  - apply takeWhile_forall in Hx. unfold is_s, eqc in Hx.
    apply N.eqb_eq in Hx. subst x. reflexivity.
Qed.

Lemma clamp_cons prev c t :
  clamp prev (c :: t) =
  if bolp prev && header_here (c :: t)
  then u "#### " ++ clamp (m_prev (after_header (c :: t))) (m_rest (after_header (c :: t)))
  else c :: clamp (Some c) t.
Proof.
  unfold clamp. rewrite rl_cons, match_here_header.
  destruct (bolp prev && header_here (c :: t)) eqn:E; [|reflexivity].
  apply andb_true_iff in E as [_ E].
  destruct (consumed_cons prev (c :: t) [] (after_header (c :: t))) as (x & w & Hc).
  { now apply after_header_shorter. }
  rewrite Hc. reflexivity.
Qed.

Lemma clamp_bolp prev prev' s : bolp prev = bolp prev' -> clamp prev s = clamp prev' s.
Proof.
  intros H. destruct s as [|c t]; [now rewrite !clamp_nil|].
  rewrite !clamp_cons, H. reflexivity.
Qed.

Lemma clamp_inside prev c t :
  bolp prev = false -> clamp prev (c :: t) = c :: clamp (Some c) t.
Proof. intros H. rewrite clamp_cons, H. reflexivity. Qed.

(** Inside a line the rewrite copies the text: a run of units that are not
    line terminators is kept, and the scan goes on inside the line. *)
Lemma clamp_run p :
  (forall c, p c = true -> is_lt c = false) ->
  forall t prev,
    bolp prev = false ->
    takeWhile p (clamp prev t) = takeWhile p t /\
    exists prev1, bolp prev1 = false /\ dropWhile p (clamp prev t) = clamp prev1 (dropWhile p t).
Proof.
  intros Hp. induction t as [|c t IH]; intros prev Hprev.
  - rewrite clamp_nil. split; [reflexivity|]. exists prev. rewrite clamp_nil. now split.
  - rewrite (clamp_inside prev c t Hprev). cbn [takeWhile dropWhile]. destruct (p c) eqn:E.
    + destruct (IH (Some c)) as [H1 H2]; [cbn; now apply Hp|].
      rewrite H1. split; [reflexivity|exact H2].
    + split; [reflexivity|]. exists prev. split; [exact Hprev|].
      now rewrite (clamp_inside prev c t Hprev).
Qed.

Lemma is_s_not_lt c : is_s c = true -> is_lt c = false.
Proof. unfold is_s, eqc. intros H. apply N.eqb_eq in H. now subst c. Qed.

Lemma is_hash_not_lt c : is_hash c = true -> is_lt c = false.
Proof. unfold is_hash, eqc. intros H. apply N.eqb_eq in H. now subst c. Qed.

Lemma tail_here_clamp prev s : bolp prev = false -> tail_here (clamp prev s) = tail_here s.
Proof.
  intros H. destruct s as [|c t]; [now rewrite clamp_nil|].
  rewrite (clamp_inside prev c t H). cbn [tail_here].
  destruct (N.eqb c BSL) eqn:E; [|reflexivity]. apply N.eqb_eq in E. subst c.
  destruct (clamp_run is_s is_s_not_lt t (Some BSL) eq_refl) as [H1 _].
  now rewrite H1.
Qed.

Lemma header_here_clamp prev s : bolp prev = false -> header_here (clamp prev s) = header_here s.
Proof.
  intros H. unfold header_here.
  destruct (clamp_run is_hash is_hash_not_lt s prev H) as [H1 (prev1 & Hp1 & H2)].
  rewrite H1, H2. now rewrite tail_here_clamp.
Qed.

Lemma no_match_header prev s :
  no_match re_deep_header prev s <->
  (bolp prev && header_here s = false /\
   match s with [] => True | c :: t => no_match re_deep_header (Some c) t end).
Proof.
  destruct s as [|c t]; cbn [no_match]; rewrite match_here_header.
  - destruct (bolp prev && header_here []); split; intros [H1 H2]; split; auto; discriminate.
  - destruct (bolp prev && header_here (c :: t)); split; intros [H1 H2]; split; auto;
      discriminate.
Qed.

Lemma clamp_clean : forall n s prev,
  length s <= n -> no_match re_deep_header prev (clamp prev s).
Proof.
  induction n as [|n IH]; intros s prev Hn.
  - destruct s; [|simpl in Hn; lia]. rewrite clamp_nil.
    apply no_match_header. split; [now rewrite andb_false_r|exact I].
  - destruct s as [|c t].
    { rewrite clamp_nil. apply no_match_header. split; [now rewrite andb_false_r|exact I]. }
    rewrite clamp_cons. destruct (bolp prev && header_here (c :: t)) eqn:E.
    + apply andb_true_iff in E as [_ E].
      rewrite (clamp_bolp (m_prev (after_header (c :: t))) (Some 32%N))
        by (now rewrite after_header_prev).
      set (o := clamp (Some 32%N) _).
      assert (Hclean : no_match re_deep_header (Some 32%N) o).
      { unfold o. apply IH. pose proof (after_header_shorter c t E). simpl in *. lia. }
      change (u "#### " ++ o) with (chr "#" :: chr "#" :: chr "#" :: chr "#" :: 32%N :: o).
      apply no_match_header. split; [now rewrite andb_false_r|].
      apply no_match_header. split; [reflexivity|].
      apply no_match_header. split; [reflexivity|].
      apply no_match_header. split; [reflexivity|].
      apply no_match_header. split; [reflexivity|exact Hclean].
    + apply no_match_header. split; [|apply IH; simpl in Hn; lia].
      destruct (bolp prev) eqn:Hb; [|reflexivity]. cbn [andb] in *.
      destruct (is_lt c) eqn:Hlt.
      * unfold header_here. cbn [takeWhile].
        destruct (is_hash c) eqn:Hh; [|reflexivity].
        apply is_hash_not_lt in Hh. congruence.
      * rewrite <- E. rewrite <- (clamp_inside (Some c) c t) by exact Hlt.
        apply header_here_clamp. exact Hlt.
Qed.

Lemma clampHeaders_idempotent markdown :
  clampHeaders (clampHeaders markdown) = clampHeaders markdown.
Proof.
  unfold clampHeaders. rewrite !replace_all_rl.
  apply rl_no_match. apply (clamp_clean (n := length markdown)). lia.
Qed.

End Cleanup.

(** * The scan of parseRST *)

Module Parser.

Lemma parse_options_bounds lines : forall fuel i opts,
  i <= fst (parse_options lines fuel i opts) /\
  fst (parse_options lines fuel i opts) <= Nat.max i (length lines).
Proof.
  induction fuel as [|fuel IH]; intros i opts; [cbn; lia|].
  cbn [parse_options].
  destruct ((i <? length lines) && test re_option_open (line_at lines i)) eqn:E; [|cbn; lia].
  apply andb_true_iff in E as [E _]. apply Nat.ltb_lt in E.
  destruct (IH (i + 1) (match search re_option (line_at lines i) with
                        | Some (_, _, caps, _) => obj_set (cap 1 caps) (cap 2 caps) opts
                        | None => opts
                        end)) as [H1 H2].
  split; lia.
Qed.

Lemma parse_body_bounds lines : forall fuel i body,
  i <= fst (parse_body lines fuel i body) /\
  fst (parse_body lines fuel i body) <= Nat.max i (length lines).
Proof.
  induction fuel as [|fuel IH]; intros i body; [cbn; lia|].
  cbn [parse_body].
  destruct ((i <? length lines)
            && (startsWith (line_at lines i) (u "   ")
                || negb (nonempty (trim (line_at lines i))))) eqn:E; [|cbn; lia].
  apply andb_true_iff in E as [E _]. apply Nat.ltb_lt in E.
  destruct (IH (i + 1) (body ++ [if nonempty (trim (line_at lines i))
                                 then skipn 3 (line_at lines i) else []])) as [H1 H2].
  split; lia.
Qed.

(** The loops of [parseDirective] stop because their condition fails, not
    because the fuel runs out. *)
Lemma parse_options_exit lines : forall fuel i opts,
  length lines - i <= fuel ->
  let i' := fst (parse_options lines fuel i opts) in
  (i' <? length lines) && test re_option_open (line_at lines i') = false.
Proof.
  induction fuel as [|fuel IH]; intros i opts Hf; cbv zeta.
  - cbn [parse_options fst].
    assert (E : (i <? length lines) = false) by (apply Nat.ltb_ge; lia). now rewrite E.
  - cbn [parse_options].
    destruct ((i <? length lines) && test re_option_open (line_at lines i)) eqn:E.
    + apply IH. lia.
    + exact E.
Qed.

Lemma parse_body_exit lines : forall fuel i body,
  length lines - i <= fuel ->
  let i' := fst (parse_body lines fuel i body) in
  (i' <? length lines)
  && (startsWith (line_at lines i') (u "   ") || negb (nonempty (trim (line_at lines i'))))
  = false.
Proof.
  induction fuel as [|fuel IH]; intros i body Hf; cbv zeta.
  - cbn [parse_body fst].
    assert (E : (i <? length lines) = false) by (apply Nat.ltb_ge; lia). now rewrite E.
  - cbn [parse_body].
    destruct ((i <? length lines)
              && (startsWith (line_at lines i) (u "   ")
                  || negb (nonempty (trim (line_at lines i))))) eqn:E.
    + apply IH. lia.
    + exact E.
Qed.

Lemma parseDirective_bounds lines startIndex :
  startIndex + 1 <= snd (parseDirective lines startIndex) /\
  snd (parseDirective lines startIndex) <= Nat.max (startIndex + 1) (length lines).
Proof.
  unfold parseDirective.
  destruct (search re_directive (line_at lines startIndex)) as [[[[b w] caps] a]|];
    [|cbn; lia].
  pose proof (parse_options_bounds lines (length lines) (startIndex + 1) []) as Ho.
  destruct (parse_options lines (length lines) (startIndex + 1) []) as [i1 options].
  cbn [fst] in Ho.
  set (i2 := if (i1 <? length lines) && negb (nonempty (trim (line_at lines i1)))
             then i1 + 1 else i1).
  assert (Hi2 : i1 <= i2 /\ i2 <= Nat.max i1 (length lines)).
  { unfold i2. destruct (i1 <? length lines) eqn:E; cbn [andb].
    - apply Nat.ltb_lt in E. destruct (negb _); lia.
    - lia. }
  pose proof (parse_body_bounds lines (length lines) i2 []) as Hb.
  destruct (parse_body lines (length lines) i2 []) as [i3 content].
  cbn [fst snd] in *. lia.
Qed.

Lemma parse_step_progress lines st st' :
  parse_step lines st = Some st' ->
  ps_i st < ps_i st' /\ ps_i st' <= length lines.
Proof.
  unfold parse_step. destruct (ps_i st <? length lines) eqn:Ei; [|discriminate].
  apply Nat.ltb_lt in Ei. cbn [negb].
  destruct ((ps_i st + 1 <? length lines)
            && isUnderline (line_at lines (ps_i st + 1))
            && nonempty (trim (line_at lines (ps_i st)))) eqn:Eh.
  - apply andb_true_iff in Eh as [Eh _]. apply andb_true_iff in Eh as [Eh _].
    apply Nat.ltb_lt in Eh.
    destruct (negb (nonempty (ps_title st)) && _); intros H; injection H as <-;
      cbn [ps_i]; lia.
  - destruct (test re_directive_open (line_at lines (ps_i st))).
    + pose proof (parseDirective_bounds lines (ps_i st)) as Hd.
      destruct (parseDirective lines (ps_i st)) as [directive nextIndex].
      cbn [snd] in Hd. intros H. injection H as <-. cbn [ps_i]. lia.
    + intros H. injection H as <-. cbn [ps_i]. lia.
Qed.

Lemma parse_step_none lines st :
  parse_step lines st = None <-> length lines <= ps_i st.
Proof.
  unfold parse_step. destruct (ps_i st <? length lines) eqn:Ei; cbn [negb].
  - apply Nat.ltb_lt in Ei. split; [|lia].
    destruct (_ && _ && _); [destruct (_ && _); discriminate|].
    destruct (test _ _); [destruct (parseDirective _ _)|]; discriminate.
  - apply Nat.ltb_ge in Ei. split; auto.
Qed.

(** With as many rounds as there are lines the loop has run to its end. *)
Lemma parse_loop_done lines : forall fuel st,
  length lines - ps_i st <= fuel ->
  parse_step lines (parse_loop lines fuel st) = None.
Proof.
  induction fuel as [|fuel IH]; intros st Hf.
  - cbn. apply parse_step_none. lia.
  - cbn [parse_loop]. destruct (parse_step lines st) as [st'|] eqn:E; [|exact E].
    apply IH. apply parse_step_progress in E. lia.
Qed.

(** More rounds do not change the result. *)
Lemma parse_loop_stable lines : forall fuel st,
  parse_step lines st = None -> parse_loop lines fuel st = st.
Proof. intros [|fuel] st H; cbn; [reflexivity|now rewrite H]. Qed.

Lemma parse_loop_more lines : forall fuel extra st,
  length lines - ps_i st <= fuel ->
  parse_loop lines (fuel + extra) st = parse_loop lines fuel st.
Proof.
  induction fuel as [|fuel IH]; intros extra st Hf.
  - cbn [Nat.add parse_loop]. apply parse_loop_stable. apply parse_step_none. lia.
  - cbn [Nat.add parse_loop]. destruct (parse_step lines st) as [st'|] eqn:E; [|reflexivity].
    apply IH. apply parse_step_progress in E. lia.
Qed.

(** ** Where the sections come from *)

Lemma append_to_current_in secs text s' :
  In s' (append_to_current secs text) ->
  In s' secs \/
  exists s, In s secs /\
            s' = mkSection (s_title s) (s_level s) (s_content s ++ text) (s_lineStart s).
Proof.
  unfold append_to_current. destruct (rev secs) as [|s before] eqn:E; [intros []|].
  assert (Hsecs : secs = rev before ++ [s]).
  { rewrite <- (rev_involutive secs), E. reflexivity. }
  intros Hin. apply in_app_or in Hin. destruct Hin as [Hin|[<-|[]]].
  - left. rewrite Hsecs. apply in_or_app. now left.
  - right. exists s. split; [|reflexivity]. rewrite Hsecs. apply in_or_app. right. now left.
Qed.

Lemma parse_step_inv lines st st' :
  parse_inv lines st -> parse_step lines st = Some st' -> parse_inv lines st'.
Proof.
  intros Hinv. unfold parse_step. destruct (ps_i st <? length lines) eqn:Ei; [|discriminate].
  apply Nat.ltb_lt in Ei. cbn [negb].
  destruct ((ps_i st + 1 <? length lines)
            && isUnderline (line_at lines (ps_i st + 1))
            && nonempty (trim (line_at lines (ps_i st)))) eqn:Eh.
  - apply andb_true_iff in Eh as [Eh Hne]. apply andb_true_iff in Eh as [Eh Hu].
    apply Nat.ltb_lt in Eh.
    destruct (negb (nonempty (ps_title st)) && _); intros H; injection H as <-;
      intros s Hs; cbn [ps_sections ps_i] in *.
    + destruct (Hinv s Hs). split; [assumption|lia].
    + apply in_app_or in Hs. destruct Hs as [Hs|[<-|[]]].
      * destruct (Hinv s Hs). split; [assumption|lia].
      * split; [|cbn; lia]. unfold from_header. cbn [s_lineStart s_title s_level s_content].
        repeat split; try assumption. exists []. split; [reflexivity|constructor].
  - destruct (test re_directive_open (line_at lines (ps_i st))).
    + pose proof (parseDirective_bounds lines (ps_i st)) as Hd.
      destruct (parseDirective lines (ps_i st)) as [directive nextIndex].
      cbn [snd] in Hd. intros H. injection H as <-. intros s Hs. cbn [ps_sections ps_i] in *.
      destruct (Hinv s Hs). split; [assumption|lia].
    + intros H. injection H as <-. intros s Hs. cbn [ps_sections ps_i] in *.
      destruct (ps_current st).
      * apply append_to_current_in in Hs. destruct Hs as [Hs|(s0 & Hs0 & ->)].
        -- destruct (Hinv s Hs). split; [assumption|lia].
        -- destruct (Hinv s0 Hs0) as [(H1 & H2 & H3 & H4 & H5 & js & H6 & H7) Hi].
           split; [|cbn; lia]. unfold from_header.
           cbn [s_lineStart s_title s_level s_content].
           repeat split; try assumption. exists (js ++ [ps_i st]). split.
           ++ rewrite map_app, concat_app, H6. cbn. now rewrite app_nil_r.
           ++ apply Forall_app. split; [assumption|]. constructor; [lia|constructor].
      * destruct (Hinv s Hs). split; [assumption|lia].
Qed.

Lemma parse_loop_inv lines : forall fuel st,
  parse_inv lines st -> parse_inv lines (parse_loop lines fuel st).
Proof.
  induction fuel as [|fuel IH]; intros st Hinv; [exact Hinv|].
  cbn [parse_loop]. destruct (parse_step lines st) as [st'|] eqn:E; [|exact Hinv].
  apply IH. eapply parse_step_inv; eauto.
Qed.

Lemma parseRST_from_header content s :
  In s (p_sections (parseRST content)) -> from_header (split content (u "\n")) s.
Proof.
  unfold parseRST. cbn [p_sections]. intros Hs.
  eapply parse_loop_inv; [|exact Hs].
  intros s0 [].
Qed.

End Parser.

(** * The pieces of an oversized section *)

Module Parts.

Lemma nth_error_snoc {A : Type} (l : list A) (x : A) k c :
  nth_error (l ++ [x]) k = Some c ->
  (k < length l /\ nth_error l k = Some c) \/ (k = length l /\ c = x).
Proof.
  intros H. destruct (Nat.lt_ge_cases k (length l)) as [Hlt|Hge].
  - left. split; [exact Hlt|]. now rewrite nth_error_app1 in H.
  - right. rewrite nth_error_app2 in H by exact Hge.
    destruct (k - length l) as [|n] eqn:E.
    + cbn in H. split; [lia|congruence].
    + cbn in H. destruct n; discriminate.
Qed.

Lemma paragraph_step_titles section maxSize st x :
  titles_inv section st -> titles_inv section (paragraph_step section maxSize st x).
Proof.
  destruct st as [[chunks cur] idx]. intros [Hlen Hnth]. unfold paragraph_step.
  destruct ((countWords cur + countWords x <=? maxSize) && nonempty cur);
    [split; assumption|].
  destruct (nonempty (trim cur)); [|split; assumption].
  split; [rewrite length_app; cbn; lia|].
  intros k c Hk. apply nth_error_snoc in Hk. destruct Hk as [[_ Hk]|[-> ->]]; [auto|].
  rewrite Hlen, Nat.add_1_r. unfold part_fields. cbn. rewrite Nat.add_1_r. auto.
Qed.

Lemma fold_titles section maxSize : forall paragraphs st,
  titles_inv section st ->
  titles_inv section (fold_left (paragraph_step section maxSize) paragraphs st).
Proof.
  induction paragraphs as [|x l IH]; intros st H; [exact H|].
  cbn [fold_left]. apply IH. now apply paragraph_step_titles.
Qed.

(** The chunks of [splitLargeSection]: the identifiers and the [partOf]
    entry, and the titles, numbered as soon as there are two chunks. *)
Lemma splitLargeSection_titles section maxSize k c :
  nth_error (splitLargeSection section maxSize) k = Some c ->
  part_fields section k c /\
  (2 <= length (splitLargeSection section maxSize) ->
   c_title c = part_title (h_title section) (k + 1)) /\
  (c_title c = h_title section \/ c_title c = part_title (h_title section) (k + 1)).
Proof.
  unfold splitLargeSection.
  pose proof (fold_titles section maxSize (split (h_content section) (u "\n\n")) ([], [], 0)) as H.
  destruct (fold_left _ _ _) as [[chunks cur] idx].
  destruct H as [Hlen Hnth].
  { split; [reflexivity|]. intros k0 c0 Hk0. destruct k0; discriminate. }
  destruct (nonempty (trim cur)).
  - intros Hk. apply nth_error_snoc in Hk. destruct Hk as [[_ Hk]|[-> ->]].
    + destruct (Hnth k c Hk) as [H1 H2]. auto.
    + rewrite length_app, Hlen, Nat.add_1_r. cbn [length].
      split; [unfold part_fields; cbn; rewrite Nat.add_1_r; auto|].
      cbn [part_chunk c_title]. destruct idx as [|idx].
      * cbn. split; [lia|now left].
      * change (1 <? S (S idx)) with true. cbn iota. rewrite Nat.add_1_r.
        split; [reflexivity|now right].
  - intros Hk. destruct (Hnth k c Hk) as [H1 H2]. auto.
Qed.

Lemma sub_chunks_nth section : forall subChunks chunkIndex k c,
  nth_error (sub_chunks section chunkIndex subChunks) k = Some c ->
  exists sub,
    nth_error subChunks k = Some sub /\
    c = mkChunk (u "chunk-" ++ showNat (chunkIndex + k + 1)) (c_title sub) (c_content sub)
                [(u "parentSection", MStr (h_title section));
                 (u "chunkType", MStr (u "subsection"))]
                (c_wordCount sub) None.
Proof.
  induction subChunks as [|sub rest IH]; intros chunkIndex k c Hk.
  - destruct k; discriminate.
  - destruct k as [|k].
    + cbn in Hk. injection Hk as <-. exists sub. split; [reflexivity|].
      now rewrite Nat.add_0_r, Nat.add_1_r.
    + cbn [sub_chunks nth_error] in Hk. destruct (IH _ _ _ Hk) as (sub' & H1 & H2).
      exists sub'. split; [exact H1|]. rewrite H2. do 3 f_equal. lia.
Qed.

Lemma sub_chunks_length section : forall subChunks chunkIndex,
  length (sub_chunks section chunkIndex subChunks) = length subChunks.
Proof. induction subChunks as [|sub rest IH]; intros i; cbn; [reflexivity|now rewrite IH]. Qed.

Lemma addChunkContext_length chunks : length (addChunkContext chunks) = length chunks.
Proof.
  unfold addChunkContext. rewrite length_map, length_combine, length_seq. lia.
Qed.

Lemma map_combine_seq_nth {A B : Type} (g : nat * A -> B) : forall (l : list A) start k,
  nth_error (List.map g (combine (seq start (length l)) l)) k
  = option_map (fun a => g (start + k, a)) (nth_error l k).
Proof.
  induction l as [|a l IH]; intros start k.
  - destruct k; reflexivity.
  - destruct k as [|k]; cbn [length seq combine List.map nth_error].
    + now rewrite Nat.add_0_r.
    + rewrite IH. destruct (nth_error l k); cbn; [|reflexivity].
      do 3 f_equal. lia.
Qed.

Lemma addChunkContext_nth chunks k c :
  nth_error (addChunkContext chunks) k = Some c ->
  exists c0, nth_error chunks k = Some c0 /\ c = with_context c0 (chunk_context chunks k).
Proof.
  unfold addChunkContext. rewrite map_combine_seq_nth.
  destruct (nth_error chunks k) as [c0|]; [|discriminate].
  cbn. intros H. injection H as <-. eauto.
Qed.

(** A document made of one oversized section. *)
Lemma chunkContent_single markdown options section :
  splitByHeaders markdown = [section] ->
  chunkSize options < countWords (h_content section) ->
  chunkContent markdown options
  = addChunkContext (sub_chunks section 0 (splitLargeSection section (chunkSize options))).
Proof.
  intros Hs Hc. unfold chunkContent. rewrite Hs. cbn [fold_left].
  unfold chunk_step. cbn [cs_current]. unfold new_chunk.
  apply Nat.ltb_lt in Hc. rewrite Hc. reflexivity.
Qed.

(** ** At least one piece *)

Lemma split_go_nonempty sep : forall s skip cur, split_go sep skip cur s <> [].
Proof.
  induction s as [|c t IH]; intros skip cur; cbn [split_go]; [discriminate|].
  destruct skip; [|apply IH]. destruct (startsWith (c :: t) sep); [discriminate|apply IH].
Qed.

Lemma join_cons sep x l : l <> [] -> join sep (x :: l) = x ++ sep ++ join sep l.
Proof. destruct l; [congruence|reflexivity]. Qed.

Lemma strip_prefix_length : forall p s t, strip_prefix p s = Some t -> length s = length p + length t.
Proof.
  intros p s t H. apply strip_prefix_some in H. subst s. apply length_app.
Qed.

(** Joining the pieces of a split gives the text back. *)
Lemma join_split_go sep x sep' : sep = x :: sep' -> forall s skip cur,
  skip <= length s ->
  join sep (split_go sep skip cur s) = rev cur ++ skipn skip s.
Proof.
  intros Hsep. induction s as [|c t IH]; intros skip cur Hskip.
  - cbn in Hskip. assert (skip = 0) by lia. subst skip. cbn. now rewrite app_nil_r.
  - cbn [split_go]. destruct skip as [|k].
    + cbn [skipn]. unfold startsWith.
      destruct (strip_prefix sep (c :: t)) as [rest|] eqn:E.
      * rewrite join_cons by apply split_go_nonempty.
        pose proof (strip_prefix_some _ _ E) as Hs.
        rewrite Hsep in Hs. cbn [app] in Hs. injection Hs as Hc Ht.
        rewrite IH.
        -- cbn [rev app]. rewrite Hsep at 2. cbn [length pred].
           rewrite Ht. rewrite skipn_app, Nat.sub_diag, skipn_all. cbn [app skipn].
           rewrite Hsep. now rewrite <- Hc.
        -- rewrite Hsep. cbn [length pred]. rewrite Ht, length_app. lia.
      * rewrite IH by lia. cbn [rev skipn]. now rewrite <- app_assoc.
    + cbn [skipn]. apply IH. cbn in Hskip. lia.
Qed.

Lemma join_split s : join SEP (split s SEP) = s.
Proof.
  unfold split. rewrite (join_split_go (sep:=SEP) (x:=BSL) (sep':=[chr "n"; BSL; chr "n"]) eq_refl)
    by lia.
  reflexivity.
Qed.

Lemma nonblank_false s : nonblank s = false -> forallb is_ws s = true.
Proof.
  unfold nonblank. induction s as [|c t IH]; [reflexivity|]. cbn.
  destruct (is_ws c); cbn; [exact IH|discriminate].
Qed.

Lemma blank_paragraphs_count : forall ps,
  (forall p, In p ps -> nonblank p = false) -> bsl_s_count (join SEP ps) = 0.
Proof.
  induction ps as [|x ps IH]; intros H; [reflexivity|].
  assert (Hx : bsl_s_count x = 0)
    by (apply WordCount.bsl_s_count_ws, nonblank_false, H; now left).
  destruct ps as [|y ps]; [exact Hx|].
  rewrite join_cons by discriminate.
  rewrite WordCount.bsl_s_count_app by reflexivity. rewrite Hx.
  change (SEP ++ join SEP (y :: ps)) with (BSL :: chr "n" :: BSL :: chr "n" :: join SEP (y :: ps)).
  cbn [bsl_s_count]. cbn [N.eqb BSL chr]. rewrite IH; [reflexivity|].
  intros p Hp. apply H. now right.
Qed.

Lemma nonblank_paragraph s :
  1 <= bsl_s_count s -> exists p, In p (split s SEP) /\ nonblank p = true.
Proof.
  intros H.
  destruct (existsb nonblank (split s SEP)) eqn:E.
  - apply existsb_exists in E. exact E.
  - exfalso. assert (Hz : bsl_s_count (join SEP (split s SEP)) = 0).
    { apply blank_paragraphs_count. intros p Hp.
      destruct (nonblank p) eqn:Ep; [|reflexivity].
      assert (existsb nonblank (split s SEP) = true)
        by (apply existsb_exists; eauto).
      congruence. }
    rewrite join_split in Hz. lia.
Qed.

Lemma existsb_dropWhile p : forall l,
  existsb (fun c => negb (p c)) (dropWhile p l) = existsb (fun c => negb (p c)) l.
Proof.
  induction l as [|c t IH]; [reflexivity|]. cbn [dropWhile].
  destruct (p c) eqn:E; [|reflexivity]. cbn. now rewrite E.
Qed.

Lemma nonempty_dropWhile p : forall l,
  nonempty (dropWhile p l) = existsb (fun c => negb (p c)) l.
Proof.
  induction l as [|c t IH]; [reflexivity|]. cbn [dropWhile].
  destruct (p c) eqn:E; cbn; rewrite E; [exact IH|reflexivity].
Qed.

Lemma nonempty_rev (l : str) : nonempty (rev l) = nonempty l.
Proof.
  destruct l as [|c t]; [reflexivity|]. cbn [rev].
  destruct (rev t); reflexivity.
Qed.

Lemma existsb_rev (q : N -> bool) (l : str) : existsb q (rev l) = existsb q l.
Proof.
  induction l as [|c t IH]; [reflexivity|]. cbn [rev].
  rewrite existsb_app, IH. cbn. rewrite orb_false_r. apply orb_comm.
Qed.

(** [trim] leaves something exactly when the text is not blank. *)
Lemma nonempty_trim s : nonempty (trim s) = nonblank s.
Proof.
  unfold trim, trimEnd, trimStart, nonblank.
  now rewrite nonempty_rev, nonempty_dropWhile, existsb_rev, existsb_dropWhile.
Qed.

Lemma paragraph_step_alive section maxSize done x st :
  ((exists p, In p done /\ nonblank p = true) -> alive st) ->
  (exists p, In p (done ++ [x]) /\ nonblank p = true) ->
  alive (paragraph_step section maxSize st x).
Proof.
  destruct st as [[chunks cur] idx]. intros Hinv Hex. unfold paragraph_step.
  destruct ((countWords cur + countWords x <=? maxSize) && nonempty cur).
  - right. unfold nonblank. rewrite !existsb_app. cbn. now rewrite orb_true_r.
  - destruct (nonempty (trim cur)) eqn:Et.
    + left. intros H. apply (f_equal (@length ContentChunk)) in H.
      rewrite length_app in H. cbn in H. lia.
    + destruct Hex as (p & Hp & Hnb). apply in_app_or in Hp. destruct Hp as [Hp|[<-|[]]].
      * destruct Hinv as [H|H]; [eauto|now left|].
        rewrite nonempty_trim in Et. congruence.
      * now right.
Qed.

Lemma splitLargeSection_nonempty section maxSize :
  1 <= bsl_s_count (h_content section) ->
  1 <= length (splitLargeSection section maxSize).
Proof.
  intros H. apply nonblank_paragraph in H.
  unfold splitLargeSection. change (u "\n\n") with SEP.
  pose proof (fold_left_invariant (paragraph_step section maxSize)
                (fun done st => (exists p, In p done /\ nonblank p = true) -> alive st)
                (fun done x a Ha => @paragraph_step_alive section maxSize done x a Ha)
                (split (h_content section) SEP) [] ([], [], 0)) as Hfold.
  cbn [app] in Hfold.
  destruct (fold_left _ _ _) as [[chunks cur] idx].
  assert (Halive : alive (chunks, cur, idx)).
  { apply Hfold; [|exact H]. intros (p & [] & _). }
  destruct Halive as [Hc|Hc].
  - destruct (nonempty (trim cur)); [rewrite length_app|]; destruct chunks; cbn; try lia;
      congruence.
  - rewrite nonempty_trim, Hc, length_app. cbn. lia.
Qed.

End Parts.

(** * The admonitions of preprocessRST *)

Module Admonition.

(** A pattern that starts with two given units has no match where the text
    starts otherwise. *)
Lemma two_unit_filter c0 c1 a b prev x y t :
  N.eqb x c0 && N.eqb y c1 = false ->
  match_here (Seq (Seq (Chr (eqc c0)) (Seq (Chr (eqc c1)) a)) b) prev (x :: y :: t) = None.
Proof.
  intros H. unfold match_here. rewrite run_seq, run_seq_chr. unfold eqc at 1.
  destruct (N.eqb x c0); [|reflexivity]. rewrite run_seq_chr. unfold eqc at 1.
  cbn [andb] in H. now rewrite H.
Qed.

(** A pattern that starts with two dots finds nothing in a quiet text,
    whatever follows it. *)
Lemma rl_quiet r f :
  (forall prev x y t, N.eqb x DOT && N.eqb y DOT = false ->
                      match_here r prev (x :: y :: t) = None) ->
  forall pre prev rest,
    quiet pre = true -> rest <> [] ->
    rl r f prev (pre ++ rest) = pre ++ rl r f (last_unit prev pre) rest.
Proof.
  intros Hr pre prev [|c rest] Hpre Hrest; [congruence|]. clear Hrest. revert prev Hpre.
  induction pre as [|x pre IH]; intros prev Hpre; [reflexivity|].
  cbn [quiet] in Hpre. apply andb_true_iff in Hpre as [Hx Hpre].
  apply negb_true_iff in Hx.
  rewrite (last_unit_cons prev x pre). cbn [app]. rewrite <- (IH (Some x) Hpre).
  rewrite rl_cons.
  destruct pre as [|y pre]; cbn [app].
  - rewrite Hr; [reflexivity|]. destruct (N.eqb x DOT); [discriminate|reflexivity].
  - now rewrite Hr.
Qed.

Lemma toctree_filter prev x y t :
  N.eqb x DOT && N.eqb y DOT = false -> match_here re_toctree prev (x :: y :: t) = None.
Proof. apply two_unit_filter. Qed.

Lemma automodule_filter prev x y t :
  N.eqb x DOT && N.eqb y DOT = false -> match_here re_automodule prev (x :: y :: t) = None.
Proof. apply two_unit_filter. Qed.

Lemma autoclass_filter prev x y t :
  N.eqb x DOT && N.eqb y DOT = false -> match_here re_autoclass prev (x :: y :: t) = None.
Proof. apply two_unit_filter. Qed.

Lemma admonition_filter prev x y t :
  N.eqb x DOT && N.eqb y DOT = false -> match_here re_admonition prev (x :: y :: t) = None.
Proof. apply two_unit_filter. Qed.

(** The lookahead that ends a block. *)
Lemma run_block_end prev rest caps :
  run re_block_end (MState prev rest caps)
  = if block_ends rest then [MState prev rest caps] else [].
Proof.
  unfold re_block_end, block_ends. cbn [run m_rest m_prev m_caps flat_map nonws].
  destruct rest as [|c t]; [reflexivity|].
  unfold eqc. destruct (N.eqb c LF); cbn [andb app flat_map m_rest]; [|reflexivity].
  destruct t as [|x t]; [reflexivity|].
  cbn [m_rest andb]. destruct (is_ws x); reflexivity.
Qed.

(** The lazy run over any units stops at every position in turn. *)
Lemma rep_loop_lazy_any : forall rest fuel prev caps,
  length rest < fuel ->
  rep_loop (run dotAll) false fuel 0 None (MState prev rest caps)
  = suffix_states prev rest caps.
Proof.
  induction rest as [|c t IH]; intros fuel prev caps Hf;
    (destruct fuel as [|fuel]; [cbn [length] in Hf; lia|]).
  - reflexivity.
  - cbn [rep_loop run dotAll m_rest m_caps flat_map option_map pred length suffix_states].
    replace (length t <? S (length t)) with true by (symmetry; apply Nat.ltb_lt; lia).
    rewrite app_nil_r, IH; [reflexivity|]. cbn [length] in Hf. lia.
Qed.

Lemma run_lazy_any prev rest caps :
  run (lazy_star dotAll) (MState prev rest caps) = suffix_states prev rest caps.
Proof. cbn [run lazy_star m_rest]. apply rep_loop_lazy_any. lia. Qed.

Lemma consumed_app prev w t caps prev' caps' :
  consumed (MState prev (w ++ t) caps) (MState prev' t caps') = w.
Proof.
  unfold consumed. cbn [m_rest]. rewrite length_app.
  replace (length w + length t - length t) with (length w + 0) by lia.
  rewrite firstn_app_2. cbn [firstn]. apply app_nil_r.
Qed.

(** The body of a block, read lazily up to the first place where the
    block ends: a body without line feed is read whole. *)
Lemma run_body_block n : forall w prev rest caps,
  forallb (neqc LF) w = true ->
  block_ends rest = true ->
  exists l,
    run (Seq (Grp n (lazy_star dotAll)) re_block_end) (MState prev (w ++ rest) caps)
    = MState (last_unit prev w) rest ((n, w) :: caps) :: l.
Proof.
  intros w prev rest caps Hw Hrest. rewrite run_seq. cbn [run]. rewrite run_lazy_any.
  cbn [m_rest m_caps].
  enough (H : forall v p prev0 w0,
             forallb (neqc LF) v = true ->
             exists l,
               flat_map (run re_block_end)
                 (List.map (fun s' => MState (m_prev s') (m_rest s')
                     ((n, consumed (MState prev0 (w0 ++ v ++ rest) caps) s') :: m_caps s'))
                   (suffix_states p (v ++ rest) caps))
               = MState (last_unit p v) rest ((n, w0 ++ v) :: caps) :: l).
  { destruct (H w prev prev [] Hw) as [l Hl]. exists l. exact Hl. }
  clear w Hw prev. intros v.
  induction v as [|c v IH]; intros prev prev0 w0 Hv.
  - cbn [app]. destruct rest as [|c t]; [discriminate|].
    cbn [suffix_states List.map flat_map m_prev m_rest m_caps]. rewrite run_block_end, Hrest.
    cbn [app]. rewrite consumed_app, app_nil_r. eexists. reflexivity.
  - cbn [forallb] in Hv. apply andb_true_iff in Hv as [Hc Hv].
    cbn [app suffix_states List.map flat_map m_prev m_rest m_caps].
    rewrite run_block_end. unfold block_ends at 1.
    unfold neqc in Hc. apply negb_true_iff in Hc. rewrite Hc. cbn [andb app].
    destruct (IH (Some c) prev0 (w0 ++ [c]) Hv) as [l Hl].
    rewrite <- !app_assoc in Hl. cbn [app] in Hl.
    exists l. rewrite (last_unit_cons prev c v). 
    etransitivity; [|exact Hl]. reflexivity.
Qed.

Lemma run_lit s prev t caps :
  u s <> [] ->
  run (lit s) (MState prev (u s ++ t) caps) = [MState (last_unit prev (u s)) t caps].
Proof.
  intros H. unfold lit. destruct (u s) as [|x w]; [congruence|].
  now rewrite run_literal, strip_prefix_app.
Qed.

Lemma run_lit_fail s prev t caps :
  u s <> [] -> strip_prefix (u s) t = None -> run (lit s) (MState prev t caps) = [].
Proof.
  intros H E. unfold lit. destruct (u s) as [|x w]; [congruence|].
  now rewrite run_literal, E.
Qed.

Lemma run_grp n r s :
  run (Grp n r) s
  = List.map (fun s' => MState (m_prev s') (m_rest s') ((n, consumed s s') :: m_caps s'))
             (run r s).
Proof. reflexivity. Qed.

Lemma run_alt a b s : run (Alt a b) s = run a s ++ run b s.
Proof. reflexivity. Qed.

Lemma rep_chr_list_more p prev c t caps :
  p c = true ->
  rep_chr_list p 0 prev (c :: t) caps
  = rep_chr_list p 0 (Some c) t caps ++ [MState prev (c :: t) caps].
Proof. intros H. cbn [rep_chr_list pred]. now rewrite H. Qed.

Lemma rep_chr_list_stop p prev c t caps :
  p c = false -> rep_chr_list p 0 prev (c :: t) caps = [MState prev (c :: t) caps].
Proof. intros H. cbn [rep_chr_list pred]. now rewrite H. Qed.

Lemma match_note prev rest :
  block_ends rest = true ->
  exists caps st,
  match_here re_admonition prev (note_head ++ rest)
  = Some (note_head, caps, st) /\ m_rest st = rest /\
    cap 1 caps = u "note" /\ cap 2 caps = u "   Remember this.".
Proof.
  intros Hrest. unfold match_here, re_admonition. cbn [seqs alts].
  change (note_head ++ rest)
    with (u ".. " ++ u "note" ++ u "::" ++ LF :: u "   Remember this." ++ rest) at 1.
  do 2 eexists.
  rewrite run_seq. rewrite run_lit by discriminate. cbn [flat_map]. rewrite app_nil_r.
  rewrite run_seq, run_grp, !run_alt. rewrite run_lit by discriminate.
  rewrite !run_lit_fail by (try discriminate; reflexivity).
  cbn [app List.map flat_map m_prev m_rest m_caps]. rewrite consumed_app, app_nil_r.
  rewrite run_seq, run_lit by discriminate. cbn [flat_map]. rewrite app_nil_r.
  rewrite run_seq. unfold star, ws. rewrite run_rep_chr.
  change (u "   Remember this." ++ rest)
    with (32 :: 32 :: 32 :: 82 :: u "emember this." ++ rest)%N.
  rewrite !rep_chr_list_more by reflexivity. rewrite rep_chr_list_stop by reflexivity.
  cbn [app flat_map]. rewrite !run_seq_chr.
  change (eqc LF 82) with false. change (eqc LF 32) with false. change (eqc LF LF) with true.
  cbv iota. cbn [app]. rewrite app_nil_r.
  change (32 :: 32 :: 32 :: 82 :: u "emember this." ++ rest)%N
    with (u "   Remember this." ++ rest).
  destruct (@run_body_block 2 (u "   Remember this.") (Some LF) rest [(1, u "note")]
              eq_refl Hrest) as [l Hl].
  rewrite Hl. cbv iota. cbn [m_caps m_rest].
  rewrite consumed_app. repeat split; reflexivity.
Qed.


Lemma admonition_indep prev prev' s :
  match_here re_admonition prev s = match_here re_admonition prev' s.
Proof. destruct s; reflexivity. Qed.

Lemma toctree_indep prev prev' s :
  match_here re_toctree prev s = match_here re_toctree prev' s.
Proof. destruct s; reflexivity. Qed.

Lemma automodule_indep prev prev' s :
  match_here re_automodule prev s = match_here re_automodule prev' s.
Proof. destruct s; reflexivity. Qed.

Lemma autoclass_indep prev prev' s :
  match_here re_autoclass prev s = match_here re_autoclass prev' s.
Proof. destruct s; reflexivity. Qed.

(** The admonition of the scenario is rewritten where it stands, when the
    text behind it ends the block. *)
Lemma rl_note prev rest :
  block_ends rest = true ->
  rl re_admonition note_replacer prev (note_head ++ rest)
  = note_block ++ rl re_admonition note_replacer None rest.
Proof.
  intros Hrest. destruct (@match_note prev rest Hrest) as (caps & st & Hm & Hst & H1 & H2).
  change (note_head ++ rest) with (DOT :: (tl note_head ++ rest)) at 1.
  rewrite rl_cons.
  change (DOT :: (tl note_head ++ rest)) with (note_head ++ rest).
  rewrite Hm. change note_head with (DOT :: tl note_head) at 1. cbv iota.
  rewrite Hst. unfold note_replacer at 1. rewrite H1, H2.
  change (admonition_markup (u "note") (u "   Remember this.")) with note_block.
  apply (f_equal (app note_block)). apply rl_prev_indep. intros. apply admonition_indep.
Qed.

(** A rewrite whose pattern starts with two dots and finds nothing in the
    scenario copies it. *)
Ltac copy_unit :=
  rewrite rl_cons;
  match goal with
  | |- context [match_here ?r ?p ?s] =>
      replace (match_here r p s) with (@None (str * list (nat * str) * mstate))
        by (vm_compute; reflexivity)
  end.

Lemma toctree_note f prev rest :
  rl re_toctree f prev (note_head ++ LF :: rest)
  = note_head ++ LF :: rl re_toctree f (Some LF) rest.
Proof.
  let e := eval vm_compute in note_head in change note_head with e.
  cbn [app]. do 28 copy_unit. reflexivity.
Qed.

Lemma automodule_note f prev rest :
  rl re_automodule f prev (note_head ++ LF :: rest)
  = note_head ++ LF :: rl re_automodule f (Some LF) rest.
Proof.
  let e := eval vm_compute in note_head in change note_head with e.
  cbn [app]. do 28 copy_unit. reflexivity.
Qed.

Lemma autoclass_note f prev rest :
  rl re_autoclass f prev (note_head ++ LF :: rest)
  = note_head ++ LF :: rl re_autoclass f (Some LF) rest.
Proof.
  let e := eval vm_compute in note_head in change note_head with e.
  cbn [app]. do 28 copy_unit. reflexivity.
Qed.

(** A rewrite whose replacements start with a unit other than white space
    keeps a text solid. *)
Lemma solid_rl r f prev s :
  (forall w caps, exists c t, f w caps = c :: t /\ is_ws c = false) ->
  solid s -> solid (rl r f prev s).
Proof.
  intros Hf Hs. destruct s as [|c t].
  - rewrite rl_nil. destruct (match_here r prev []) as [[[w caps] s']|]; [|exact I].
    destruct (Hf w caps) as (x & q & E & Hx). rewrite E. exact Hx.
  - rewrite rl_cons. destruct (match_here r prev (c :: t)) as [[[w caps] s']|]; [|exact Hs].
    destruct (Hf w caps) as (x & q & E & Hx). destruct w; rewrite E; exact Hx.
Qed.

Lemma block_ends_solid s : solid s -> block_ends (LF :: s) = true.
Proof. destruct s as [|c t]; [reflexivity|]. cbn [solid block_ends]. now intros ->. Qed.

Lemma first_unit_filter c0 a b prev c t :
  N.eqb c c0 = false -> match_here (Seq (Seq (Chr (eqc c0)) a) b) prev (c :: t) = None.
Proof.
  intros H. unfold match_here. rewrite run_seq, run_seq_chr. unfold eqc. now rewrite H.
Qed.

Lemma toctree_first prev c t :
  N.eqb c DOT = false -> match_here re_toctree prev (c :: t) = None.
Proof. apply first_unit_filter. Qed.

Lemma automodule_first prev c t :
  N.eqb c DOT = false -> match_here re_automodule prev (c :: t) = None.
Proof. apply first_unit_filter. Qed.

Lemma autoclass_first prev c t :
  N.eqb c DOT = false -> match_here re_autoclass prev (c :: t) = None.
Proof. apply first_unit_filter. Qed.

(** The scenario between a quiet text and a solid one: the admonition is
    rewritten where it stands, the text before it is kept, and the text
    behind it is processed as it would be on its own. *)
Lemma preprocessRST_note pre post :
  quiet pre = true -> solid post ->
  preprocessRST (pre ++ note_head ++ LF :: post)
  = pre ++ note_block ++ preprocessRST (LF :: post).
Proof.
  intros Hpre Hpost. unfold preprocessRST. rewrite !replace_all_rl.
  rewrite (rl_cons re_toctree _ None LF post), toctree_first by reflexivity.
  rewrite (rl_cons re_automodule _ None LF), automodule_first by reflexivity.
  rewrite (rl_cons re_autoclass _ None LF), autoclass_first by reflexivity.
  rewrite (@rl_quiet re_toctree _ toctree_filter pre None _ Hpre) by discriminate.
  rewrite toctree_note.
  rewrite (@rl_quiet re_automodule _ automodule_filter pre None _ Hpre) by discriminate.
  rewrite automodule_note.
  rewrite (@rl_quiet re_autoclass _ autoclass_filter pre None _ Hpre) by discriminate.
  rewrite autoclass_note.
  rewrite (@rl_quiet re_admonition _ admonition_filter pre None _ Hpre) by discriminate.
  fold note_replacer. rewrite rl_note; [reflexivity|].
  apply block_ends_solid.
  repeat (apply solid_rl;
          [intros w caps; eexists _, _; split; [reflexivity|reflexivity]|]).
  exact Hpost.
Qed.

End Admonition.

(** * The conversion of the sample *)

Module Demo.

(** The embedding computes, unit for unit, the text that the program saved
    for its sample: the separators written with a doubled backslash show in
    it as a backslash and the letter n, the emphasis patterns wrap the text
    in asterisks, the marker line of the first admonition closes the title
    of a section that starts at the top of the sample, and a final letter t
    is stripped from the lines. *)
Lemma demo_conversion :
  convertToMarkdown demo_rst (mkConversionOptions None None None) = demo_markdown.
Proof. vm_compute. reflexivity. Qed.

End Demo.

(** * What a match reads and captures *)

Module Engine.

Lemma extends_refl s : extends s s.
Proof. split; exists []; reflexivity. Qed.

Lemma extends_trans a b c : extends a b -> extends b c -> extends a c.
Proof.
  intros [[w1 H1] [n1 C1]] [[w2 H2] [n2 C2]]. split.
  - exists (w1 ++ w2). now rewrite H1, H2, app_assoc.
  - exists (n2 ++ n1). now rewrite C2, C1, app_assoc.
Qed.

Lemma rep_loop_extends step g :
  (forall s s', In s' (step s) -> extends s s') ->
  forall fuel lo hi s s', In s' (rep_loop step g fuel lo hi s) -> extends s s'.
Proof.
  intros Hstep. induction fuel as [|fuel IH]; intros lo hi s s' H.
  - cbn [rep_loop] in H. destruct lo; [|contradiction].
    destruct H as [<-|[]]. apply extends_refl.
  - cbn [rep_loop] in H.
    assert (Hmore : forall l,
              In s' (flat_map
                       (fun s1 => if length (m_rest s1) <? length (m_rest s)
                                  then rep_loop step g fuel (pred lo) (option_map pred hi) s1
                                  else []) l) ->
              (forall s1, In s1 l -> extends s s1) -> extends s s').
    { intros l Hl Hall. apply in_flat_map in Hl. destruct Hl as (s1 & H1 & H2).
      destruct (length (m_rest s1) <? length (m_rest s)); [|contradiction].
      eapply extends_trans; [apply Hall, H1|]. eapply IH, H2. }
    assert (Hm : In s' (match hi with
                        | Some 0 => []
                        | _ => flat_map
                                 (fun s1 => if length (m_rest s1) <? length (m_rest s)
                                            then rep_loop step g fuel (pred lo)
                                                          (option_map pred hi) s1
                                            else []) (step s)
                        end) -> extends s s').
    { intros Hin. destruct hi as [[|h]|]; [contradiction| |];
        (eapply Hmore; [exact Hin|intros s1 H1; now apply Hstep]). }
    destruct lo as [|lo]; [|now apply Hm].
    destruct g.
    + apply in_app_or in H. destruct H as [H|[<-|[]]]; [now apply Hm|apply extends_refl].
    + destruct H as [<-|H]; [apply extends_refl|now apply Hm].
Qed.

Lemma run_extends : forall r s s', In s' (run r s) -> extends s s'.
Proof.
  induction r as [p| |a IHa b IHb|a IHa b IHb|g lo hi r IH|n r IH|ml|ml|r IH|n];
    intros s s' H; cbn [run] in H.
  - destruct s as [prev rest caps]. cbn [m_rest m_caps] in H.
    destruct rest as [|c t]; [contradiction|]. destruct (p c); [|contradiction].
    destruct H as [<-|[]]. split; [exists [c]|exists []]; reflexivity.
  - destruct H as [<-|[]]. apply extends_refl.
  - apply in_flat_map in H. destruct H as (s1 & H1 & H2).
    eapply extends_trans; [apply IHa, H1|apply IHb, H2].
  - apply in_app_or in H. destruct H; [now apply IHa|now apply IHb].
  - eapply rep_loop_extends; [|exact H]. exact IH.
  - apply in_map_iff in H. destruct H as (s1 & <- & H1). apply IH in H1.
    destruct H1 as [[w Hw] [new Hn]]. split; cbn [m_rest m_caps].
    + now exists w.
    + exists ((n, consumed s s1) :: new). now rewrite Hn.
  - destruct (m_prev s) as [c|]; [destruct (ml && is_lt c)|];
      try contradiction; destruct H as [<-|[]]; apply extends_refl.
  - destruct (m_rest s) as [|c t]; [|destruct (ml && is_lt c)];
      try contradiction; destruct H as [<-|[]]; apply extends_refl.
  - destruct (run r s) as [|s1 l] eqn:E; [contradiction|]. destruct H as [<-|[]].
    assert (H1 : extends s s1) by (apply IH; rewrite E; now left).
    destruct H1 as [_ [new Hn]]. split; cbn [m_rest m_caps]; [now exists []|now exists new].
  - destruct (cap_lookup n (m_caps s)) as [w|]; [|destruct H as [<-|[]]; apply extends_refl].
    destruct (strip_prefix w (m_rest s)) as [t|] eqn:E; [|contradiction].
    destruct H as [<-|[]]. split; cbn [m_rest m_caps]; [|now exists []].
    exists w. now apply strip_prefix_some.
Qed.

Lemma free_app c a b : free c (a ++ b) = free c a && free c b.
Proof. apply forallb_app. Qed.

Lemma free_extends c s s' : extends s s' -> free c (m_rest s) = true -> free c (m_rest s') = true.
Proof.
  intros [[w Hw] _] H. rewrite Hw, free_app in H. now apply andb_true_iff in H as [_ H].
Qed.

(** A pattern that asks for the unit [c] after a first part finds nothing
    in a text that does not hold it. *)
Lemma run_needs c a b s :
  free c (m_rest s) = true -> run (Seq a (Seq (Chr (eqc c)) b)) s = [].
Proof.
  intros H. rewrite run_seq. apply flat_map_nil. intros s1 H1.
  apply run_extends in H1. apply (free_extends c H1) in H.
  destruct s1 as [prev rest caps]. rewrite run_seq_chr. cbn [m_rest] in H.
  destruct rest as [|x t]; [reflexivity|]. cbn [free forallb] in H.
  apply andb_true_iff in H as [H _]. unfold neqc in H. unfold eqc.
  apply negb_true_iff in H. now rewrite H.
Qed.

Lemma free_tail c x t : free c (x :: t) = true -> free c t = true.
Proof. cbn [free forallb]. intros H. now apply andb_true_iff in H as [_ H]. Qed.

Lemma search_from_none r : forall s prev skipped,
  (forall prev t, (exists w, s = w ++ t) -> match_here r prev t = None) ->
  search_from r prev skipped s = None.
Proof.
  induction s as [|c t IH]; intros prev skipped H.
  - cbn [search_from]. rewrite H; [reflexivity|now exists []].
  - cbn [search_from]. rewrite H; [|now exists []]. apply IH.
    intros prev' t' [w ->]. apply H. now exists (c :: w).
Qed.

End Engine.

(** * The captures of a header line *)

Module Headers.
Import Engine Chunker Parts Admonition.

Lemma consumed_of s s' w : m_rest s = w ++ m_rest s' -> consumed s s' = w.
Proof.
  destruct s as [p r c], s' as [p' r' c']. cbn [m_rest]. intros ->. apply consumed_app.
Qed.

(** A bounded run of units of a class reads between [lo] and [hi] of them
    and leaves the captures alone. *)
Lemma rep_loop_bounded p g : forall fuel lo hi s s',
  In s' (rep_loop (run (Chr p)) g fuel lo (Some hi) s) ->
  exists w, m_rest s = w ++ m_rest s' /\ lo <= length w <= hi /\ m_caps s' = m_caps s.
Proof.
  induction fuel as [|fuel IH]; intros lo hi s s' H.
  - cbn [rep_loop] in H. destruct lo; [|contradiction]. destruct H as [<-|[]].
    exists []. repeat split; cbn [length]; lia.
  - cbn [rep_loop] in H.
    assert (Hm : In s' (match hi with
                        | 0 => []
                        | S _ => flat_map
                                 (fun s1 => if length (m_rest s1) <? length (m_rest s)
                                            then rep_loop (run (Chr p)) g fuel (pred lo)
                                                          (option_map pred (Some hi)) s1
                                            else []) (run (Chr p) s)
                        end) ->
                 exists w, m_rest s = w ++ m_rest s' /\ lo <= length w <= hi /\
                           m_caps s' = m_caps s).
    { destruct hi as [|hi]; [contradiction|]. intros Hin.
      apply in_flat_map in Hin. destruct Hin as (s1 & H1 & H2).
      destruct (length (m_rest s1) <? length (m_rest s)); [|contradiction].
      cbn [option_map pred] in H2. apply IH in H2. destruct H2 as (w & Hw & Hl & Hc).
      cbn [run] in H1. destruct (m_rest s) as [|c t] eqn:E; [contradiction|].
      destruct (p c); [|contradiction]. destruct H1 as [<-|[]].
      cbn [m_rest m_caps] in *. exists (c :: w). rewrite Hw. cbn [length app].
      repeat split; try lia. exact Hc. }
    destruct lo as [|lo].
    + assert (H0 : s' = s -> exists w, m_rest s = w ++ m_rest s' /\ 0 <= length w <= hi /\
                                       m_caps s' = m_caps s).
      { intros ->. exists []. repeat split; cbn [length]; lia. }
      destruct g.
      * apply in_app_or in H. destruct H as [H|[<-|[]]]; [now apply Hm|now apply H0].
      * destruct H as [<-|H]; [now apply H0|now apply Hm].
    + now apply Hm.
Qed.

Lemma rep_chr_list_caps p : forall rest lo prev caps st,
  In st (rep_chr_list p lo prev rest caps) ->
  m_caps st = caps /\ exists w, rest = w ++ m_rest st /\ lo <= length w.
Proof.
  induction rest as [|c t IH]; intros lo prev caps st H; cbn [rep_chr_list] in H.
  - destruct lo; [|contradiction]. destruct H as [<-|[]]. split; [reflexivity|].
    exists []. split; [reflexivity|cbn [length]; lia].
  - assert (Hstop : In st (match lo with 0 => [MState prev (c :: t) caps] | S _ => [] end) ->
                    m_caps st = caps /\ exists w, c :: t = w ++ m_rest st /\ lo <= length w).
    { destruct lo; [|contradiction]. intros [<-|[]]. split; [reflexivity|].
      exists []. split; [reflexivity|cbn [length]; lia]. }
    destruct (p c); [|now apply Hstop].
    apply in_app_or in H. destruct H as [H|H]; [|now apply Hstop].
    apply IH in H. destruct H as [Hc (w & Hw & Hl)]. split; [exact Hc|].
    exists (c :: w). rewrite Hw at 1. split; [reflexivity|cbn [length]; lia].
Qed.

(** The captures of a header line: the hashes, one to six of them, and a
    title that is not empty. *)
Lemma header_caps prev s w caps s' :
  match_here re_md_header prev s = Some (w, caps, s') ->
  exists hashes title,
    caps = [(2, title); (1, hashes)] /\ 1 <= length hashes <= 6 /\ nonempty title = true.
Proof.
  unfold match_here.
  destruct (run re_md_header (MState prev s [])) as [|st l] eqn:E; [discriminate|].
  intros H. injection H as _ <- _.
  assert (Hin : In st (run re_md_header (MState prev s []))) by (rewrite E; now left).
  clear E. unfold re_md_header in Hin. cbn [seqs] in Hin.
  rewrite run_seq in Hin. apply in_flat_map in Hin. destruct Hin as (s0 & H0 & Hin).
  assert (m_caps s0 = []) as C0.
  { cbn [run m_prev] in H0. destruct prev; cbn in H0; [contradiction|].
    destruct H0 as [<-|[]]. reflexivity. }
  clear H0. rewrite run_seq in Hin. apply in_flat_map in Hin. destruct Hin as (s1 & H1 & Hin).
  rewrite run_grp in H1. apply in_map_iff in H1. destruct H1 as (s1' & <- & H1).
  cbn [run] in H1. apply rep_loop_bounded in H1. destruct H1 as (hashes & Hw & Hl & Hc).
  rewrite (@consumed_of s0 s1' hashes Hw), Hc, C0 in Hin.
  rewrite run_seq in Hin. apply in_flat_map in Hin. destruct Hin as (s2 & H2 & Hin).
  assert (C2 : m_caps s2 = [(1, hashes)]).
  { unfold bsl in H2. cbn [run m_rest m_caps] in H2.
    destruct (m_rest s1') as [|c t]; [contradiction|].
    destruct (eqc BSL c); [|contradiction]. destruct H2 as [<-|[]]. reflexivity. }
  clear H2. rewrite run_seq in Hin. apply in_flat_map in Hin. destruct Hin as (s3 & H3 & Hin).
  destruct s2 as [p2 r2 c2]. cbn [m_caps] in C2. rewrite C2 in H3.
  unfold plus, C in H3. rewrite run_rep_chr in H3.
  apply rep_chr_list_caps in H3. destruct H3 as [C3 _].
  rewrite run_grp in Hin. apply in_map_iff in Hin. destruct Hin as (s4 & <- & H4).
  destruct s3 as [p3 r3 c3]. cbn [m_caps] in C3. rewrite C3 in H4 |- *.
  unfold plus, dot in H4. rewrite run_rep_chr in H4.
  apply rep_chr_list_caps in H4. destruct H4 as [C4 (title & Ht & Hlen)].
  exists hashes, title. cbn [m_caps]. rewrite C4.
  rewrite (@consumed_of (MState p3 r3 [(1, hashes)]) s4 title Ht).
  split; [reflexivity|]. split; [exact Hl|].
  destruct title; [cbn [length] in Hlen; lia|reflexivity].
Qed.

Lemma search_from_caps r : forall s prev skipped before w caps after,
  search_from r prev skipped s = Some (before, w, caps, after) ->
  exists prev' t s', match_here r prev' t = Some (w, caps, s').
Proof.
  induction s as [|c t IH]; intros prev skipped before w caps after H; cbn [search_from] in H.
  - destruct (match_here r prev []) as [[[w0 caps0] s0]|] eqn:E; [|discriminate].
    injection H as _ <- <- _. eauto.
  - destruct (match_here r prev (c :: t)) as [[[w0 caps0] s0]|] eqn:E.
    + injection H as _ <- <- _. eauto.
    + eapply IH, H.
Qed.

Lemma search_header line before w caps after :
  search re_md_header line = Some (before, w, caps, after) ->
  exists hashes title,
    caps = [(2, title); (1, hashes)] /\ 1 <= length hashes <= 6 /\ nonempty title = true.
Proof.
  intros H. apply search_from_caps in H. destruct H as (prev & t & s' & H).
  eapply header_caps, H.
Qed.

End Headers.

(** * The sections of [splitByHeaders] *)

Module Sections.
Import Engine Chunker Parts Headers.

Lemma join_last sep : forall cs c x,
  join sep (cs ++ [c ++ sep ++ x]) = join sep (cs ++ [c]) ++ sep ++ x.
Proof.
  induction cs as [|y cs IH]; intros c x; [reflexivity|].
  cbn [app]. rewrite !join_cons by (destruct cs; discriminate).
  now rewrite IH, <- !app_assoc.
Qed.

Lemma section_contents_push sections cur :
  section_contents (sections, Some cur) = List.map h_content sections ++ [h_content cur].
Proof. unfold section_contents. cbn [fst snd]. now rewrite map_app. Qed.

Lemma contents_inv_snoc done line st :
  section_contents st <> [] ->
  join NL (section_contents st) = join NL (done ++ [line]) ->
  (snd st = None -> length (fst st) <= 1) ->
  contents_inv (done ++ [line]) st.
Proof.
  intros H1 H2 H3. unfold contents_inv. destruct (done ++ [line]) eqn:E.
  - destruct done; discriminate.
  - split; [exact H1|split; [exact H2|exact H3]].
Qed.

Lemma header_step_contents done line st :
  contents_inv done st -> contents_inv (done ++ [line]) (header_step st line).
Proof.
  destruct st as [sections current]. intros H. unfold header_step.
  destruct done as [|d done].
  - (* the first line *)
    injection H as -> ->. cbn [app].
    destruct (search re_md_header line) as [[[[before w] caps] after]|];
      (split; [discriminate|split; [reflexivity|]]); cbn [fst snd length]; intros; lia.
  - destruct H as (Hne & Hj & Hone).
    destruct (search re_md_header line) as [[[[before w] caps] after]|].
    + (* a header line *)
      set (new := mkMdSection (cap 2 caps) line (length (cap 1 caps))).
      assert (E : section_contents
                    (match current with Some cur => sections ++ [cur] | None => sections end,
                     Some new)
                  = section_contents (sections, current) ++ [line]).
      { unfold section_contents. cbn [fst snd]. rewrite !map_app. cbn [List.map h_content new].
        destruct current; [now rewrite map_app|now rewrite app_nil_r]. }
      apply contents_inv_snoc.
      * rewrite E. destruct (section_contents (sections, current)); discriminate.
      * rewrite E, (@join_snoc NL (d :: done) line) by discriminate.
        rewrite join_snoc by exact Hne. now rewrite Hj.
      * discriminate.
    + destruct current as [cur|].
      * (* a line of the current section *)
        apply contents_inv_snoc.
        -- rewrite section_contents_push. destruct (List.map h_content sections); discriminate.
        -- rewrite section_contents_push. cbn [append_line h_content].
           rewrite (join_last NL), <- section_contents_push, Hj.
           now rewrite (@join_snoc NL (d :: done) line) by discriminate.
        -- discriminate.
      * (* a line before the first header *)
        cbn [snd fst] in Hone. specialize (Hone eq_refl).
        destruct sections as [|first others].
        { exfalso. apply Hne. reflexivity. }
        destruct others as [|o others]; [|cbn [length] in Hone; lia].
        unfold section_contents in Hj. cbn [fst snd] in Hj.
        change (join NL (List.map h_content ([first] ++ []))) with (h_content first) in Hj.
        apply contents_inv_snoc.
        -- discriminate.
        -- unfold section_contents. cbn [fst snd].
           change (join NL (List.map h_content ([append_line first line] ++ [])))
             with (h_content first ++ NL ++ line).
           rewrite (@join_snoc NL (d :: done) line) by discriminate. now rewrite <- Hj.
        -- intros _. cbn [fst length]. lia.
Qed.

Lemma split_nonempty s sep : split s sep <> [].
Proof. apply split_go_nonempty. Qed.

Lemma join_split_nl s : join NL (split s NL) = s.
Proof.
  unfold split. rewrite (@join_split_go NL BSL [chr "n"] eq_refl s 0 []) by lia.
  reflexivity.
Qed.

Lemma splitByHeaders_contents markdown :
  splitByHeaders markdown
  = fst (fold_left header_step (split markdown NL) ([], None))
    ++ match snd (fold_left header_step (split markdown NL) ([], None)) with
       | Some cur => [cur]
       | None => []
       end.
Proof.
  unfold splitByHeaders. fold NL.
  destruct (fold_left header_step (split markdown NL) ([], None)) as [sections [cur|]];
    cbn [fst snd]; [reflexivity|now rewrite app_nil_r].
Qed.

Lemma fold_header_contents lines :
  lines <> [] ->
  section_contents (fold_left header_step lines ([], None)) <> [] /\
  join NL (section_contents (fold_left header_step lines ([], None))) = join NL lines.
Proof.
  intros Hl.
  pose proof (@fold_left_invariant _ _ header_step contents_inv header_step_contents
                lines [] ([], None) eq_refl) as H.
  cbn [app] in H. unfold contents_inv in H. destruct lines; [congruence|].
  destruct H as (Hne & Hj & _). now split.
Qed.

Lemma splitByHeaders_join markdown :
  join NL (List.map h_content (splitByHeaders markdown)) = markdown /\
  splitByHeaders markdown <> [].
Proof.
  rewrite splitByHeaders_contents.
  destruct (@fold_header_contents (split markdown NL) (split_nonempty markdown NL))
    as [Hne Hj].
  rewrite join_split_nl in Hj. unfold section_contents in Hne, Hj. split; [exact Hj|].
  intros H0. apply Hne. now rewrite H0.
Qed.

Lemma header_step_ok done line st :
  sections_inv done st -> sections_inv (done ++ [line]) (header_step st line).
Proof.
  destruct st as [sections current]. intros [Hs Hc]. cbn [fst snd] in Hs, Hc.
  unfold header_step.
  destruct (search re_md_header line) as [[[[before w] caps] after]|] eqn:E.
  - apply search_header in E. destruct E as (hashes & title & -> & Hl & Ht).
    split; cbn [fst snd].
    + intros s Hin. destruct current as [cur|]; [|now apply Hs].
      apply in_app_or in Hin. destruct Hin as [Hin|[<-|[]]]; [now apply Hs|now apply Hc].
    + intros cur [= <-]. split; cbn [h_level h_title]; [exact Hl|exact Ht].
  - destruct current as [cur|].
    + split; cbn [fst snd]; [exact Hs|]. intros c [= <-]. now apply (Hc cur).
    + destruct sections as [|first others].
      * split; cbn [fst snd]; [|discriminate]. intros s [<-|[]].
        split; cbn [h_level h_title]; [lia|reflexivity].
      * split; cbn [fst snd]; [|discriminate]. intros s [<-|Hin].
        -- apply (Hs first). now left.
        -- apply Hs. now right.
Qed.

Lemma splitByHeaders_ok markdown s : In s (splitByHeaders markdown) -> section_ok s.
Proof.
  rewrite splitByHeaders_contents.
  pose proof (@fold_left_invariant _ _ header_step sections_inv header_step_ok
                (split markdown NL) [] ([], None)) as H.
  destruct H as [Hs Hc].
  { split; cbn [fst snd]; [intros ? []|discriminate]. }
  intros Hin. apply in_app_or in Hin. destruct Hin as [Hin|Hin]; [now apply Hs|].
  destruct (snd (fold_left header_step (split markdown NL) ([], None))) as [cur|] eqn:E;
    [|destruct Hin].
  destruct Hin as [<-|[]]. cbn [app] in Hc. now apply Hc.
Qed.

End Sections.

(** * The numbering of the chunks *)

Module Numbering.
Import Chunker Parts WordCount Sections.

Lemma ids_snoc chunks cur n :
  length chunks = n ->
  (forall k c, nth_error chunks k = Some c -> c_id c = u "chunk-" ++ showNat (k + 1)) ->
  c_id cur = u "chunk-" ++ showNat (S n) ->
  forall k c, nth_error (chunks ++ [cur]) k = Some c ->
              c_id c = u "chunk-" ++ showNat (k + 1).
Proof.
  intros Hl Hc Hcur k c H. apply nth_error_snoc in H.
  destruct H as [[_ H]|[-> ->]]; [now apply Hc|].
  rewrite Hcur, Hl. now replace (n + 1) with (S n) by lia.
Qed.

Lemma new_chunk_ids size st section :
  ids_inv st -> ids_inv (new_chunk size st section).
Proof.
  intros [Hl Hid]. unfold new_chunk.
  destruct (size <? countWords (h_content section)).
  - split; unfold push_current; cbn [cs_current cs_chunks cs_index].
    + rewrite length_app, sub_chunks_length. fold (push_current st). lia.
    + fold (push_current st). intros k c H.
      destruct (Nat.lt_ge_cases k (length (push_current st))) as [Hk|Hk].
      * rewrite nth_error_app1 in H by exact Hk. now apply Hid.
      * rewrite nth_error_app2 in H by exact Hk. apply sub_chunks_nth in H.
        destruct H as (sub & _ & ->). cbn [c_id]. rewrite <- Hl.
        now replace (length (push_current st) + (k - length (push_current st)) + 1)
          with (k + 1) by lia.
  - split; unfold push_current at 1; cbn [cs_current cs_chunks cs_index].
    + rewrite length_app. cbn [length]. lia.
    + unfold push_current at 1. cbn [cs_current cs_chunks]. apply ids_snoc with (n := cs_index st).
      * exact Hl.
      * exact Hid.
      * reflexivity.
Qed.

Lemma chunk_step_ids size st section : ids_inv st -> ids_inv (chunk_step size st section).
Proof.
  intros H. unfold chunk_step. destruct (cs_current st) as [cur|] eqn:E;
    [|now apply new_chunk_ids].
  destruct (c_wordCount cur + countWords (h_content section) <=? size);
    [|now apply new_chunk_ids].
  destruct H as [Hl Hid]. unfold push_current in Hl, Hid. rewrite E in Hl, Hid.
  split; unfold push_current; cbn [cs_current cs_chunks cs_index].
  - rewrite length_app in *. exact Hl.
  - intros k c H. apply nth_error_snoc in H. destruct H as [[Hk H]|[-> ->]].
    + apply Hid. now rewrite nth_error_app1.
    + cbn [c_id]. apply Hid. rewrite nth_error_app2 by lia.
      now rewrite Nat.sub_diag.
Qed.

Lemma fold_chunk_ids size : forall sections st,
  ids_inv st -> ids_inv (fold_left (chunk_step size) sections st).
Proof.
  induction sections as [|s sections IH]; intros st H; [exact H|].
  cbn [fold_left]. apply IH. now apply chunk_step_ids.
Qed.

Lemma chunkContent_ids markdown options k c :
  nth_error (chunkContent markdown options) k = Some c ->
  c_id c = u "chunk-" ++ showNat (k + 1).
Proof.
  unfold chunkContent. intros H. apply addChunkContext_nth in H.
  destruct H as (c0 & H & ->). cbn [with_context c_id].
  eapply (fold_chunk_ids (chunkSize options) (splitByHeaders markdown)); [|exact H].
  split; [reflexivity|]. intros j x Hx. destruct j; discriminate.
Qed.

(** As soon as a section has been read, there is a chunk, provided the
    budget is of one word at least. *)
Lemma new_chunk_nonempty size st section :
  1 <= size -> push_current (new_chunk size st section) <> [].
Proof.
  intros Hsize. unfold new_chunk.
  destruct (size <? countWords (h_content section)) eqn:E.
  - apply Nat.ltb_lt in E. rewrite countWords_spec in E.
    pose proof (@splitLargeSection_nonempty section size) as H.
    unfold push_current at 1. cbn [cs_current cs_chunks].
    destruct (splitLargeSection section size) as [|x l]; [cbn [length] in H; lia|].
    cbn [sub_chunks]. intros H0. apply app_eq_nil in H0 as [_ H0]. discriminate.
  - unfold push_current at 1. cbn [cs_current cs_chunks]. intros H0.
    apply app_eq_nil in H0 as [_ H0]. discriminate.
Qed.

Lemma chunk_step_nonempty size st section :
  1 <= size -> push_current (chunk_step size st section) <> [].
Proof.
  intros Hsize. unfold chunk_step. destruct (cs_current st) as [cur|];
    [|now apply new_chunk_nonempty].
  destruct (c_wordCount cur + countWords (h_content section) <=? size);
    [|now apply new_chunk_nonempty].
  unfold push_current. cbn [cs_current cs_chunks]. intros H0.
  apply app_eq_nil in H0 as [_ H0]. discriminate.
Qed.

Lemma fold_chunk_nonempty size : forall sections st,
  1 <= size -> (sections <> [] \/ push_current st <> []) ->
  push_current (fold_left (chunk_step size) sections st) <> [].
Proof.
  induction sections as [|s sections IH]; intros st Hsize H.
  - destruct H as [H|H]; [congruence|exact H].
  - cbn [fold_left]. apply IH; [exact Hsize|]. right. now apply chunk_step_nonempty.
Qed.

Lemma chunkContent_nonempty markdown options :
  1 <= chunkSize options -> chunkContent markdown options <> [].
Proof.
  intros Hsize. unfold chunkContent. intros H0.
  apply (f_equal (@length _)) in H0. rewrite addChunkContext_length in H0.
  apply length_zero_iff_nil in H0. revert H0. apply fold_chunk_nonempty; [exact Hsize|].
  left. apply splitByHeaders_join.
Qed.

End Numbering.

(** * Texts without a backslash *)

Module Plain.
Import Engine Chunker Parts WordCount Sections Admonition.

Lemma free_head c x t : free c (x :: t) = true -> N.eqb x c = false.
Proof.
  cbn [free forallb]. intros H. apply andb_true_iff in H as [H _].
  unfold neqc in H. now apply negb_true_iff in H.
Qed.

Lemma bsl_s_count_free : forall s, free BSL s = true -> bsl_s_count s = 0.
Proof.
  induction s as [|c t IH]; intros H; [reflexivity|].
  cbn [bsl_s_count]. rewrite (@free_head _ _ _ H). cbn [andb]. apply IH. eapply free_tail, H.
Qed.

Lemma countWords_free text : free BSL text = true -> countWords text = 1.
Proof. intros H. now rewrite countWords_spec, bsl_s_count_free. Qed.

(** A text that does not hold the first unit of the separator is not split. *)
Lemma split_go_free c sep : forall s cur,
  free c s = true -> split_go (c :: sep) 0 cur s = [rev cur ++ s].
Proof.
  induction s as [|x t IH]; intros cur H.
  - cbn [split_go]. now rewrite app_nil_r.
  - cbn [split_go]. unfold startsWith. cbn [strip_prefix]. rewrite (@free_head _ _ _ H).
    rewrite IH by (eapply free_tail, H). cbn [rev]. now rewrite <- app_assoc.
Qed.

Lemma split_free s : free BSL s = true -> split s (u "\n") = [s].
Proof. intros H. exact (@split_go_free BSL [chr "n"] s [] H). Qed.

Lemma free_suffix c w t : free c (w ++ t) = true -> free c t = true.
Proof. rewrite free_app. intros H. now apply andb_true_iff in H as [_ H]. Qed.

(** No header line without a backslash: the pattern asks for one after the
    hashes. *)
Lemma header_free line : free BSL line = true -> search re_md_header line = None.
Proof.
  intros H. unfold search. apply search_from_none. intros prev t [w ->].
  apply free_suffix in H. unfold match_here, re_md_header. cbn [seqs].
  rewrite run_seq. unfold bsl.
  rewrite flat_map_nil; [reflexivity|]. intros s Hs. apply run_needs.
  apply run_extends in Hs. now apply (@free_extends BSL _ _ Hs).
Qed.

Lemma splitByHeaders_free markdown :
  free BSL markdown = true ->
  splitByHeaders markdown = [mkMdSection (u "Introduction") markdown 1].
Proof.
  intros H. unfold splitByHeaders. rewrite (@split_free _ H). cbn [fold_left header_step].
  now rewrite (@header_free _ H).
Qed.

Lemma chunkContent_free markdown options :
  free BSL markdown = true -> 1 <= chunkSize options ->
  chunkContent markdown options
  = [mkChunk (u "chunk-1") (u "Introduction") markdown
             [(u "sections", MList [u "Introduction"]); (u "chunkType", MStr (u "section"))]
             1 (Some [])].
Proof.
  intros H Hsize. unfold chunkContent. rewrite (@splitByHeaders_free _ H).
  cbn [fold_left chunk_step cs_current]. unfold new_chunk. cbn [h_content h_title].
  rewrite (@countWords_free _ H).
  replace (chunkSize options <? 1) with false by (symmetry; apply Nat.ltb_ge; exact Hsize).
  reflexivity.
Qed.

End Plain.

(** * The context lines of [addContextHeaders] *)

Module Context.
Import Engine Chunker Parts Sections Plain.

Lemma set_context_length currentContext level title :
  1 <= level -> length (set_context currentContext level title) = level.
Proof.
  intros H. unfold set_context. rewrite !length_app, repeat_length, length_firstn.
  cbn [length]. lia.
Qed.

Lemma context_step_shallow result currentContext line :
  shallow line = true ->
  fst (context_step (result, currentContext) line) = result ++ [line].
Proof.
  unfold shallow, context_step.
  destruct (search re_md_header line) as [[[[before w] caps] after]|]; [|reflexivity].
  intros H. apply Nat.leb_le in H.
  replace (2 <? length (cap 1 caps)) with false by (symmetry; apply Nat.ltb_ge; exact H).
  reflexivity.
Qed.

Lemma fold_context_shallow : forall lines result currentContext,
  forallb shallow lines = true ->
  fst (fold_left context_step lines (result, currentContext)) = result ++ lines.
Proof.
  induction lines as [|line lines IH]; intros result ctx H.
  - cbn [fold_left fst]. now rewrite app_nil_r.
  - cbn [forallb] in H. apply andb_true_iff in H as [Hl H]. cbn [fold_left].
    pose proof (context_step_shallow result ctx line Hl) as E.
    destruct (context_step (result, ctx) line) as [result' ctx']. cbn [fst] in E. subst result'.
    rewrite IH by exact H. now rewrite <- app_assoc.
Qed.

Lemma addContextHeaders_shallow markdown :
  forallb shallow (split markdown (u "\n")) = true -> addContextHeaders markdown = markdown.
Proof.
  intros H. unfold addContextHeaders. rewrite fold_context_shallow by exact H.
  cbn [app]. apply join_split_nl.
Qed.

Lemma context_step_deep result currentContext line before w caps after :
  search re_md_header line = Some (before, w, caps, after) ->
  3 <= length (cap 1 caps) ->
  context_step (result, currentContext) line
  = (result ++ [cap 1 caps ++ u " " ++ cap 2 caps; [];
                u "*Context: "
                  ++ join [32%N; ARROW; 32%N]
                       (List.map hole_text
                          (removelast
                             (set_context currentContext (length (cap 1 caps)) (cap 2 caps))))
                  ++ u "*"; []],
     set_context currentContext (length (cap 1 caps)) (cap 2 caps)).
Proof.
  intros E H. unfold context_step. rewrite E.
  rewrite set_context_length by lia.
  replace (2 <? length (cap 1 caps)) with true by (symmetry; apply Nat.ltb_lt; lia).
  replace (1 <? length (cap 1 caps)) with true by (symmetry; apply Nat.ltb_lt; lia).
  reflexivity.
Qed.

End Context.

(** * Trimmed texts *)

Module Trim.
Import Chunker Parts WordCount.

Lemma dropWhile_first p : forall s,
  match dropWhile p s with c :: _ => p c = false | [] => True end.
Proof.
  induction s as [|x s IH]; [exact I|]. cbn [dropWhile]. destruct (p x) eqn:E; [exact IH|exact E].
Qed.

Lemma dropWhile_fix p s :
  match s with c :: _ => p c = false | [] => True end -> dropWhile p s = s.
Proof. destruct s as [|c t]; [reflexivity|]. cbn [dropWhile]. now intros ->. Qed.

Lemma first_is_ws_dropWhile s : first_is_ws (dropWhile is_ws s) = false.
Proof.
  pose proof (dropWhile_first is_ws s) as H. unfold first_is_ws.
  destruct (dropWhile is_ws s); [reflexivity|exact H].
Qed.

Lemma first_trimEnd s : first_is_ws s = false -> first_is_ws (trimEnd s) = false.
Proof.
  intros Hs. destruct (trimEnd_split s) as (w & E & _).
  destruct (trimEnd s) as [|c t] eqn:Et; [reflexivity|].
  rewrite E in Hs. exact Hs.
Qed.

Lemma trim_trimmed s : trimmed (trim s) = true.
Proof.
  unfold trimmed, trim. rewrite first_trimEnd by apply first_is_ws_dropWhile.
  unfold trimEnd. now rewrite rev_involutive, first_is_ws_dropWhile.
Qed.

Lemma trimmed_trim s : trimmed s = true -> trim s = s.
Proof.
  unfold trimmed. intros H. apply andb_true_iff in H as [H1 H2].
  apply negb_true_iff in H1, H2. unfold trim, trimStart.
  rewrite dropWhile_fix by (destruct s; [exact I|exact H1]).
  unfold trimEnd. rewrite dropWhile_fix by (destruct (rev s); [exact I|exact H2]).
  apply rev_involutive.
Qed.

Lemma trim_idempotent s : trim (trim s) = trim s.
Proof. apply trimmed_trim, trim_trimmed. Qed.

(** A text that starts with a unit other than white space keeps it when
    trimmed. *)
Lemma trim_first c s : is_ws c = false -> exists t, trim (c :: s) = c :: t.
Proof.
  intros Hc. unfold trim, trimStart. cbn [dropWhile]. rewrite Hc.
  destruct (trimEnd_split (c :: s)) as (w & E & Hw).
  destruct (trimEnd (c :: s)) as [|d t] eqn:Et.
  - cbn [app] in E. subst w. cbn [forallb] in Hw. rewrite Hc in Hw. discriminate.
  - cbn [app] in E. injection E as <- _. now exists t.
Qed.

Lemma countWords_trim s : countWords (trim s) = countWords s.
Proof. unfold countWords. now rewrite trim_idempotent. Qed.

End Trim.

(** * The pieces of [splitLargeSection] are not blank *)

Module Pieces.
Import Chunker Parts WordCount Trim.

Lemma part_chunk_ok section n title currentChunk :
  nonempty (trim currentChunk) = true -> piece_ok (part_chunk section n title currentChunk).
Proof.
  intros H. unfold piece_ok, part_chunk. cbn [c_content c_wordCount].
  split; [exact H|split].
  - apply trim_trimmed.
  - symmetry. apply countWords_trim.
Qed.

Lemma paragraph_step_pieces section maxSize done x st :
  pieces_inv done st -> pieces_inv (done ++ [x]) (paragraph_step section maxSize st x).
Proof.
  destruct st as [[chunks currentChunk] chunkIndex]. unfold pieces_inv. cbn [fst].
  intros H. unfold paragraph_step.
  destruct ((countWords currentChunk + countWords x <=? maxSize) && nonempty currentChunk);
    [exact H|].
  destruct (nonempty (trim currentChunk)) eqn:E; cbn [fst]; [|exact H].
  intros c Hin. apply in_app_or in Hin. destruct Hin as [Hin|[<-|[]]]; [now apply H|].
  now apply part_chunk_ok.
Qed.

Lemma splitLargeSection_pieces section maxSize c :
  In c (splitLargeSection section maxSize) -> piece_ok c.
Proof.
  unfold splitLargeSection.
  pose proof (@fold_left_invariant _ _ (paragraph_step section maxSize) pieces_inv
                (@paragraph_step_pieces section maxSize)
                (split (h_content section) (u "\n\n")) [] ([], [], 0)) as H.
  destruct (fold_left (paragraph_step section maxSize)
                      (split (h_content section) (u "\n\n")) ([], [], 0))
    as [[chunks currentChunk] chunkIndex].
  unfold pieces_inv in H. cbn [fst] in H.
  assert (Hc : forall c, In c chunks -> piece_ok c) by (apply H; intros ? []).
  destruct (nonempty (trim currentChunk)) eqn:E; [|now apply Hc].
  intros Hin. apply in_app_or in Hin. destruct Hin as [Hin|[<-|[]]]; [now apply Hc|].
  now apply part_chunk_ok.
Qed.

End Pieces.

(** * The order of the sections and the end of the scan *)

Module Scan.
Import Parser.

Lemma StronglySorted_snoc {A : Type} (R : A -> A -> Prop) l x :
  StronglySorted R l -> Forall (fun a => R a x) l -> StronglySorted R (l ++ [x]).
Proof.
  induction 1 as [|a l Hs IH Ha]; intros Hx; cbn [app].
  - constructor; constructor.
  - inversion Hx as [|? ? Hax Hlx]; subst. constructor; [now apply IH|].
    apply Forall_app. split; [exact Ha|]. constructor; [exact Hax|constructor].
Qed.

Lemma starts_append secs text : starts (append_to_current secs text) = starts secs.
Proof.
  unfold append_to_current, starts. destruct (rev secs) as [|s before] eqn:E.
  - apply (f_equal (@rev _)) in E. rewrite rev_involutive in E. now rewrite E.
  - apply (f_equal (@rev _)) in E. rewrite rev_involutive in E. cbn [rev] in E.
    rewrite E, !map_app. reflexivity.
Qed.

Lemma Forall_le_mono (l : list nat) i j :
  i <= j -> Forall (fun a => a + 2 <= i) l -> Forall (fun a => a + 2 <= j) l.
Proof. intros Hij H. eapply Forall_impl; [|exact H]. cbn. intros. lia. Qed.

Lemma parse_step_order lines st st' :
  order_inv st -> parse_step lines st = Some st' -> order_inv st'.
Proof.
  intros [Hs Hf]. unfold parse_step.
  destruct (ps_i st <? length lines) eqn:Ei; [|discriminate]. cbn [negb].
  destruct ((ps_i st + 1 <? length lines)
            && isUnderline (line_at lines (ps_i st + 1))
            && nonempty (trim (line_at lines (ps_i st)))).
  - destruct (negb (nonempty (ps_title st)) && _); intros H; injection H as <-;
      split; cbn [ps_sections ps_i].
    + exact Hs.
    + eapply Forall_le_mono; [|exact Hf]. lia.
    + unfold starts. rewrite map_app. cbn [List.map s_lineStart].
      apply StronglySorted_snoc; [exact Hs|exact Hf].
    + unfold starts. rewrite map_app. cbn [List.map s_lineStart].
      apply Forall_app. split.
      * eapply Forall_le_mono; [|exact Hf]. lia.
      * constructor; [lia|constructor].
  - destruct (test re_directive_open (line_at lines (ps_i st))).
    + pose proof (parseDirective_bounds lines (ps_i st)) as Hd.
      destruct (parseDirective lines (ps_i st)) as [directive nextIndex].
      cbn [snd] in Hd. intros H. injection H as <-. split; cbn [ps_sections ps_i].
      * exact Hs.
      * eapply Forall_le_mono; [|exact Hf]. lia.
    + intros H. injection H as <-. split; cbn [ps_sections ps_i];
        (destruct (ps_current st); [rewrite starts_append|]);
        try exact Hs; (eapply Forall_le_mono; [|exact Hf]; lia).
Qed.

Lemma parse_loop_order lines : forall fuel st,
  order_inv st -> order_inv (parse_loop lines fuel st).
Proof.
  induction fuel as [|fuel IH]; intros st Hinv; [exact Hinv|].
  cbn [parse_loop]. destruct (parse_step lines st) as [st'|] eqn:E; [|exact Hinv].
  apply IH. eapply parse_step_order; eauto.
Qed.

Lemma parseRST_order content :
  StronglySorted apart (starts (p_sections (parseRST content))).
Proof.
  unfold parseRST. cbn [p_sections]. apply parse_loop_order.
  split; cbn [ps_sections starts List.map]; constructor.
Qed.

Lemma getHeaderLevel_range char : 1 <= getHeaderLevel char <= 6.
Proof.
  unfold getHeaderLevel.
  repeat match goal with |- context [if ?b then _ else _] => destruct b end; lia.
Qed.

Lemma parseRST_level content s :
  In s (p_sections (parseRST content)) -> 1 <= s_level s <= 6.
Proof.
  intros H. apply parseRST_from_header in H. destruct H as (_ & _ & _ & _ & -> & _).
  destruct (line_at _ _); [lia|apply getHeaderLevel_range].
Qed.

(** Without an underline there is no header: the scan keeps no title and
    no section. *)
Lemma parse_step_bare lines st st' :
  no_underline lines = true -> bare st -> parse_step lines st = Some st' -> bare st'.
Proof.
  intros Hn (Ht & Hs & Hc). unfold parse_step.
  destruct (ps_i st <? length lines) eqn:Ei; [|discriminate]. cbn [negb].
  destruct (ps_i st + 1 <? length lines) eqn:E1.
  - apply Nat.ltb_lt in E1.
    assert (Hu : isUnderline (line_at lines (ps_i st + 1)) = false).
    { unfold no_underline in Hn. rewrite forallb_forall in Hn.
      apply negb_true_iff, Hn. unfold line_at.
      destruct lines as [|l0 lines]; [cbn [length] in E1; lia|].
      replace (ps_i st + 1) with (S (ps_i st)) by lia. cbn [nth tl].
      apply nth_In. cbn [length] in E1. lia. }
    rewrite Hu. cbn [andb].
    destruct (test re_directive_open (line_at lines (ps_i st))).
    + destruct (parseDirective lines (ps_i st)) as [directive nextIndex].
      intros H. injection H as <-. now split.
    + intros H. injection H as <-. rewrite Hc. now split.
  - cbn [andb].
    destruct (test re_directive_open (line_at lines (ps_i st))).
    + destruct (parseDirective lines (ps_i st)) as [directive nextIndex].
      intros H. injection H as <-. now split.
    + intros H. injection H as <-. rewrite Hc. now split.
Qed.

Lemma parse_loop_bare lines : forall fuel st,
  no_underline lines = true -> bare st -> bare (parse_loop lines fuel st).
Proof.
  induction fuel as [|fuel IH]; intros st Hn Hb; [exact Hb|].
  cbn [parse_loop]. destruct (parse_step lines st) as [st'|] eqn:E; [|exact Hb].
  apply IH; [exact Hn|]. eapply parse_step_bare; eauto.
Qed.

Lemma parseRST_bare content :
  no_underline (split content (u "\n")) = true ->
  p_title (parseRST content) = [] /\ p_sections (parseRST content) = [].
Proof.
  intros Hn. unfold parseRST. cbn [p_title p_sections].
  destruct (@parse_loop_bare (split content (u "\n")) (length (split content (u "\n")))
              (mkParseState 0 [] [] false []) Hn) as (Ht & Hs & _).
  { now split. }
  now split.
Qed.

Lemma convertToMarkdown_bare content options :
  no_underline (split (preprocessRST content) (u "\n")) = true ->
  convertToMarkdown content options = [].
Proof.
  intros Hn. unfold convertToMarkdown, convertParsedToMarkdown, title_markdown.
  destruct (parseRST_bare _ Hn) as [-> ->]. reflexivity.
Qed.

(** The scan ends exactly at the end of the lines. *)
Lemma parse_loop_within lines : forall fuel st,
  ps_i st <= length lines -> ps_i (parse_loop lines fuel st) <= length lines.
Proof.
  induction fuel as [|fuel IH]; intros st H; [exact H|].
  cbn [parse_loop]. destruct (parse_step lines st) as [st'|] eqn:E; [|exact H].
  apply IH. now apply parse_step_progress in E.
Qed.

Lemma parse_loop_end lines :
  ps_i (parse_loop lines (length lines) (mkParseState 0 [] [] false [])) = length lines.
Proof.
  apply Nat.le_antisymm.
  - apply parse_loop_within. cbn [ps_i]. lia.
  - apply parse_step_none, parse_loop_done. cbn [ps_i]. lia.
Qed.

End Scan.

(** * Contents without a directive *)

Module Directives.
Import Engine Admonition.

(** A pattern that starts with two given units has no match where the text
    does not start with them. *)
Lemma two_unit_start c0 c1 a b prev s :
  startsWith s [c0; c1] = false ->
  match_here (Seq (Seq (Chr (eqc c0)) (Seq (Chr (eqc c1)) a)) b) prev s = None.
Proof.
  intros H. unfold match_here. rewrite run_seq, run_seq_chr.
  destruct s as [|x t]; [reflexivity|]. unfold eqc at 1.
  unfold startsWith in H. cbn [strip_prefix] in H.
  destruct (N.eqb x c0); [|reflexivity]. rewrite run_seq_chr.
  destruct t as [|y t]; [reflexivity|]. unfold eqc at 1.
  destruct (N.eqb y c1); [discriminate|reflexivity].
Qed.

Lemma no_match_two_units c0 c1 a b : forall s prev,
  includes s [c0; c1] = false ->
  no_match (Seq (Seq (Chr (eqc c0)) (Seq (Chr (eqc c1)) a)) b) prev s.
Proof.
  induction s as [|x t IH]; intros prev H; cbn [includes] in H;
    apply orb_false_iff in H as [H1 H2]; cbn [no_match].
  - split; [now apply two_unit_start|exact I].
  - split; [now apply two_unit_start|now apply IH].
Qed.

Lemma preprocessRST_plain content :
  includes content (u "..") = false -> preprocessRST content = content.
Proof.
  intros H. unfold preprocessRST. rewrite !replace_all_rl.
  rewrite (@rl_no_match re_toctree _ content None)
    by (apply (@no_match_two_units DOT DOT); exact H).
  rewrite (@rl_no_match re_automodule _ content None)
    by (apply (@no_match_two_units DOT DOT); exact H).
  rewrite (@rl_no_match re_autoclass _ content None)
    by (apply (@no_match_two_units DOT DOT); exact H).
  apply rl_no_match. apply (@no_match_two_units DOT DOT). exact H.
Qed.

End Directives.

(** * Safe file names *)

Module SafeName.
Import Engine Cleanup Headers Admonition.

Lemma match_here_chr p prev s :
  match_here (Chr p) prev s =
  match s with
  | c :: t => if p c then Some ([c], [], MState (Some c) t []) else None
  | [] => None
  end.
Proof.
  unfold match_here. cbn [run m_rest m_caps]. destruct s as [|c t]; [reflexivity|].
  destruct (p c); [|reflexivity].
  pose proof (@consumed_app prev [c] t [] (Some c) []) as E. cbn [app] in E.
  now rewrite E.
Qed.

Lemma rl_remove p : forall s prev,
  rl (Chr p) (fun _ _ => []) prev s = filter (fun c => negb (p c)) s.
Proof.
  induction s as [|c t IH]; intros prev.
  - now rewrite rl_nil, match_here_chr.
  - rewrite rl_cons, match_here_chr. cbn [filter]. destruct (p c); cbn [negb m_prev m_rest app].
    + apply IH.
    + now rewrite IH.
Qed.

Lemma match_here_plus p prev s :
  match_here (plus (Chr p)) prev s =
  match s with
  | c :: t =>
      if p c
      then Some (c :: takeWhile p t, [],
                 MState (last_unit (Some c) (takeWhile p t)) (dropWhile p t) [])
      else None
  | [] => None
  end.
Proof.
  unfold match_here, plus. rewrite run_rep_chr. destruct s as [|c t]; [reflexivity|].
  destruct (p c) eqn:E.
  - destruct (@rep_chr_list_hd p (c :: t) 1 prev []) as [l Hl].
    { cbn [takeWhile]. rewrite E. cbn [length]. lia. }
    rewrite Hl. cbn [takeWhile dropWhile] in *. rewrite E.
    rewrite last_unit_cons. f_equal. f_equal. f_equal.
    pose proof (@consumed_app prev (c :: takeWhile p t) (dropWhile p t) []
                  (last_unit (Some c) (takeWhile p t)) []) as E0.
    cbn [app] in E0. now rewrite take_drop_while in E0.
  - rewrite rep_chr_list_short; [reflexivity|]. cbn [takeWhile]. rewrite E. cbn [length]. lia.
Qed.

Lemma squash_run p d : forall t, squash p d true t = squash p d false (dropWhile p t).
Proof.
  induction t as [|c t IH]; [reflexivity|]. cbn [squash dropWhile].
  destruct (p c) eqn:E; [exact IH|]. cbn [squash]. now rewrite E.
Qed.

Lemma rl_squash p d : forall n s prev,
  length s <= n ->
  rl (plus (Chr p)) (fun _ _ => [d]) prev s = squash p d false s.
Proof.
  induction n as [|n IH]; intros s prev Hn.
  - destruct s; [|cbn [length] in Hn; lia]. now rewrite rl_nil, match_here_plus.
  - destruct s as [|c t]; [now rewrite rl_nil, match_here_plus|].
    rewrite rl_cons, match_here_plus. cbn [squash]. destruct (p c).
    + cbn [m_prev m_rest app]. rewrite squash_run. f_equal. apply IH.
      pose proof (dropWhile_length p t). cbn [length] in Hn. lia.
    + f_equal. apply IH. cbn [length] in Hn. lia.
Qed.

Lemma match_here_edge prev s :
  match_here re_edge_hyphen prev s =
  match s with
  | c :: t =>
      if N.eqb c HYPHEN && (match prev with None => true | Some _ => false end
                            || match t with [] => true | _ :: _ => false end)
      then Some ([c], [], MState (Some c) t [])
      else None
  | [] => None
  end.
Proof.
  unfold match_here, re_edge_hyphen. rewrite run_alt, !run_seq. unfold C.
  destruct s as [|c t].
  - destruct prev; reflexivity.
  - pose proof (@consumed_app prev [c] t [] (Some c) []) as E. cbn [app] in E.
    change (chr "-") with HYPHEN.
    destruct prev as [q|]; cbn [run m_prev m_rest m_caps andb flat_map app orb];
      unfold eqc; destruct (N.eqb c HYPHEN); cbn [andb flat_map app m_rest];
      try reflexivity.
    + destruct t as [|y t]; cbn [andb flat_map app]; [|reflexivity].
      now rewrite E.
    + now rewrite E.
Qed.

Lemma rl_drop_last : forall s q,
  rl re_edge_hyphen (fun _ _ => []) (Some q) s = drop_last_hyphen s.
Proof.
  induction s as [|c t IH]; intros q.
  - now rewrite rl_nil, match_here_edge.
  - rewrite rl_cons, match_here_edge. cbn [orb drop_last_hyphen].
    destruct t as [|y t].
    + destruct (N.eqb c HYPHEN); cbn [andb m_prev m_rest app];
        now rewrite rl_nil, match_here_edge.
    + rewrite andb_false_r. now rewrite IH.
Qed.

Lemma rl_strip_edges s :
  rl re_edge_hyphen (fun _ _ => []) None s = strip_edges s.
Proof.
  destruct s as [|c t].
  - now rewrite rl_nil, match_here_edge.
  - rewrite rl_cons, match_here_edge. cbn [orb strip_edges]. rewrite andb_true_r.
    destruct (N.eqb c HYPHEN) eqn:E; cbn [m_prev m_rest app].
    + apply rl_drop_last.
    + rewrite rl_drop_last. cbn [drop_last_hyphen]. rewrite E.
      destruct t; reflexivity.
Qed.

(** The rewrites of [createSafeFilename], one after the other. *)
Lemma createSafeFilename_steps toLowerCase title :
  createSafeFilename toLowerCase title
  = strip_edges
      (squash (eqc HYPHEN) HYPHEN false
         (squash is_ws HYPHEN false (filter kept_unit (toLowerCase title)))).
Proof.
  unfold createSafeFilename. rewrite !replace_all_rl.
  unfold re_unsafe. rewrite rl_remove.
  unfold re_spaces, ws. rewrite (@rl_squash is_ws HYPHEN _ _ None (Nat.le_refl _)).
  unfold re_hyphens, C.
  rewrite (@rl_squash (eqc (chr "-")) HYPHEN _ _ None (Nat.le_refl _)).
  rewrite rl_strip_edges. f_equal. f_equal. f_equal.
  apply filter_ext. intros c. unfold kept_unit. now rewrite negb_involutive.
Qed.

Lemma safe_kept c : safe_unit c = true -> kept_unit c = true.
Proof.
  unfold safe_unit, kept_unit. intros H.
  apply orb_true_iff in H as [H|H]; [apply orb_true_iff in H as [H|H]|]; rewrite H;
    now rewrite ?orb_true_r.
Qed.

Lemma safe_not_ws c : safe_unit c = true -> is_ws c = false.
Proof.
  unfold safe_unit, is_lower, is_digit, HYPHEN. intros H.
  destruct (is_ws c) eqn:E; [|reflexivity]. exfalso. unfold is_ws in E.
  change (chr "-") with 45%N in H.
  repeat (rewrite orb_true_iff in E || rewrite andb_true_iff in E
          || rewrite N.leb_le in E || rewrite N.eqb_eq in E).
  repeat (rewrite orb_true_iff in H || rewrite andb_true_iff in H
          || rewrite N.leb_le in H || rewrite N.eqb_eq in H).
  lia.
Qed.

Lemma kept_not_ws c : kept_unit c = true -> is_ws c = false -> safe_unit c = true.
Proof.
  unfold kept_unit, safe_unit. intros H E. rewrite E, orb_false_r in H. exact H.
Qed.

Lemma hyphen_safe : safe_unit HYPHEN = true.
Proof. reflexivity. Qed.

Lemma filter_kept s : forallb kept_unit (filter kept_unit s) = true.
Proof.
  apply forallb_forall. intros c H. now apply filter_In in H as [_ H].
Qed.

Lemma squash_ws_safe : forall s b,
  forallb kept_unit s = true -> forallb safe_unit (squash is_ws HYPHEN b s) = true.
Proof.
  induction s as [|c t IH]; intros b H; [reflexivity|].
  cbn [forallb] in H. apply andb_true_iff in H as [Hc H]. cbn [squash].
  destruct (is_ws c) eqn:E.
  - destruct b; [now apply IH|]. cbn [forallb]. now rewrite hyphen_safe, IH.
  - cbn [forallb]. now rewrite (kept_not_ws c Hc E), IH.
Qed.

Lemma squash_hyphen_safe : forall s b,
  forallb safe_unit s = true ->
  forallb safe_unit (squash (eqc HYPHEN) HYPHEN b s) = true.
Proof.
  induction s as [|c t IH]; intros b H; [reflexivity|].
  cbn [forallb] in H. apply andb_true_iff in H as [Hc H]. cbn [squash].
  destruct (eqc HYPHEN c).
  - destruct b; [now apply IH|]. cbn [forallb]. now rewrite hyphen_safe, IH.
  - cbn [forallb]. now rewrite Hc, IH.
Qed.

Lemma squash_hyphen_start : forall s,
  starts_with_hyphen (squash (eqc HYPHEN) HYPHEN true s) = false.
Proof.
  induction s as [|c t IH]; [reflexivity|]. cbn [squash].
  destruct (eqc HYPHEN c) eqn:E; [exact IH|]. cbn [starts_with_hyphen]. exact E.
Qed.

Lemma single_cons x t :
  single_hyphens (x :: t) = negb (N.eqb x HYPHEN && starts_with_hyphen t) && single_hyphens t.
Proof. destruct t; reflexivity. Qed.

Lemma squash_hyphen_single : forall s b,
  single_hyphens (squash (eqc HYPHEN) HYPHEN b s) = true.
Proof.
  induction s as [|c t IH]; intros b; [reflexivity|]. cbn [squash].
  destruct (eqc HYPHEN c) eqn:E.
  - destruct b; [apply IH|]. rewrite single_cons, squash_hyphen_start, IH.
    now rewrite andb_false_r.
  - rewrite single_cons, IH. unfold eqc in E. now rewrite E.
Qed.

Lemma drop_last_safe : forall s,
  forallb safe_unit s = true -> forallb safe_unit (drop_last_hyphen s) = true.
Proof.
  induction s as [|c t IH]; intros H; [reflexivity|].
  cbn [forallb] in H. apply andb_true_iff in H as [Hc H]. cbn [drop_last_hyphen].
  destruct t as [|y t].
  - destruct (N.eqb c HYPHEN); [reflexivity|]. cbn [forallb]. now rewrite Hc.
  - cbn [forallb] in *. rewrite Hc. now apply IH.
Qed.

Lemma drop_last_start : forall s,
  single_hyphens s = true ->
  starts_with_hyphen (drop_last_hyphen s) = starts_with_hyphen s
  \/ drop_last_hyphen s = [].
Proof.
  destruct s as [|c t]; intros H; [now left|]. cbn [drop_last_hyphen].
  destruct t as [|y t]; [|now left].
  destruct (N.eqb c HYPHEN); [now right|now left].
Qed.

Lemma drop_last_single : forall s,
  single_hyphens s = true -> single_hyphens (drop_last_hyphen s) = true.
Proof.
  induction s as [|c t IH]; intros H; [reflexivity|].
  rewrite single_cons in H. apply andb_true_iff in H as [Hc H]. cbn [drop_last_hyphen].
  destruct t as [|y t].
  - destruct (N.eqb c HYPHEN); [reflexivity|].
    rewrite single_cons. cbn [starts_with_hyphen single_hyphens]. now rewrite andb_false_r.
  - rewrite single_cons, (IH H), andb_true_r.
    destruct (drop_last_start (y :: t) H) as [E|E]; [now rewrite E|].
    rewrite E. cbn [starts_with_hyphen]. now rewrite andb_false_r.
Qed.

Lemma drop_last_end : forall s,
  single_hyphens s = true -> ends_with_hyphen (drop_last_hyphen s) = false.
Proof.
  induction s as [|c t IH]; intros H; [reflexivity|].
  rewrite single_cons in H. apply andb_true_iff in H as [Hc H]. cbn [drop_last_hyphen].
  destruct t as [|y t].
  - destruct (N.eqb c HYPHEN) eqn:E; [reflexivity|]. cbn [ends_with_hyphen]. exact E.
  - specialize (IH H). cbn [ends_with_hyphen].
    destruct (drop_last_hyphen (y :: t)) as [|z r] eqn:Ed; [|exact IH].
    (* the tail was a lone hyphen: the unit before it is not one *)
    cbn [drop_last_hyphen] in Ed. destruct t as [|y' t]; [|discriminate].
    destruct (N.eqb y HYPHEN) eqn:Ey; [|discriminate].
    cbn [starts_with_hyphen] in Hc. rewrite Ey, andb_true_r in Hc.
    now apply negb_true_iff in Hc.
Qed.

Lemma strip_edges_safe s :
  forallb safe_unit s = true -> single_hyphens s = true ->
  safe_name (strip_edges s) = true.
Proof.
  intros Hs Hh. unfold safe_name, strip_edges. destruct s as [|c t]; [reflexivity|].
  rewrite single_cons in Hh. apply andb_true_iff in Hh as [Hc Ht].
  pose proof Hs as Hs'. cbn [forallb] in Hs'. apply andb_true_iff in Hs' as [_ Hst].
  destruct (N.eqb c HYPHEN) eqn:E.
  - rewrite (drop_last_safe t Hst), (drop_last_single t Ht), (drop_last_end t Ht).
    cbn [andb] in Hc. apply negb_true_iff in Hc.
    destruct (drop_last_start t Ht) as [E1|E1]; rewrite E1; [now rewrite Hc|reflexivity].
  - assert (Hh : single_hyphens (c :: t) = true) by (rewrite single_cons, Ht, E; reflexivity).
    rewrite (drop_last_safe (c :: t) Hs), (drop_last_single (c :: t) Hh),
      (drop_last_end (c :: t) Hh).
    destruct (drop_last_start (c :: t) Hh) as [E1|E1]; rewrite E1;
      [cbn [starts_with_hyphen]; now rewrite E|reflexivity].
Qed.

Lemma createSafeFilename_safe toLowerCase title :
  safe_name (createSafeFilename toLowerCase title) = true.
Proof.
  rewrite createSafeFilename_steps. apply strip_edges_safe.
  - apply squash_hyphen_safe, squash_ws_safe, filter_kept.
  - apply squash_hyphen_single.
Qed.

(** A safe name goes through the rewrites unchanged. *)
Lemma filter_all (p : N -> bool) : forall s, forallb p s = true -> filter p s = s.
Proof.
  induction s as [|c t IH]; intros H; [reflexivity|].
  cbn [forallb] in H. apply andb_true_iff in H as [Hc H]. cbn [filter].
  now rewrite Hc, IH.
Qed.

Lemma squash_none p d : forall s,
  forallb (fun c => negb (p c)) s = true -> squash p d false s = s.
Proof.
  induction s as [|c t IH]; intros H; [reflexivity|].
  cbn [forallb] in H. apply andb_true_iff in H as [Hc H]. cbn [squash].
  apply negb_true_iff in Hc. now rewrite Hc, IH.
Qed.

Lemma squash_single : forall s,
  single_hyphens s = true -> squash (eqc HYPHEN) HYPHEN false s = s.
Proof.
  induction s as [|c t IH]; intros H; [reflexivity|].
  rewrite single_cons in H. apply andb_true_iff in H as [Hc H]. cbn [squash].
  unfold eqc at 1. destruct (N.eqb c HYPHEN) eqn:E.
  - cbn [andb] in Hc. apply negb_true_iff in Hc.
    apply N.eqb_eq in E. subst c. f_equal. rewrite squash_run.
    destruct t as [|y t]; [reflexivity|]. cbn [starts_with_hyphen] in Hc.
    cbn [dropWhile]. change (eqc HYPHEN y) with (N.eqb y HYPHEN). rewrite Hc. now apply IH.
  - f_equal. now apply IH.
Qed.

Lemma drop_last_keep : forall s, ends_with_hyphen s = false -> drop_last_hyphen s = s.
Proof.
  induction s as [|c t IH]; intros H; [reflexivity|].
  cbn [ends_with_hyphen drop_last_hyphen] in *. destruct t as [|y t].
  - now rewrite H.
  - f_equal. now apply IH.
Qed.

Lemma createSafeFilename_fixed toLowerCase s :
  (forall t, forallb safe_unit t = true -> toLowerCase t = t) ->
  safe_name s = true -> createSafeFilename toLowerCase s = s.
Proof.
  intros Hlow H. unfold safe_name in H.
  apply andb_true_iff in H as [H He]. apply andb_true_iff in H as [H Hs].
  apply andb_true_iff in H as [Hu Hh]. apply negb_true_iff in He, Hs.
  rewrite createSafeFilename_steps, (Hlow s Hu).
  rewrite filter_all by (apply forallb_forall; intros c Hc; apply safe_kept;
                         rewrite forallb_forall in Hu; now apply Hu).
  rewrite (@squash_none is_ws HYPHEN s)
    by (apply forallb_forall; intros c Hc; apply negb_true_iff,
                          safe_not_ws; rewrite forallb_forall in Hu; now apply Hu).
  rewrite (squash_single s Hh). unfold strip_edges. destruct s as [|c t]; [reflexivity|].
  cbn [starts_with_hyphen] in Hs. rewrite Hs. now apply drop_last_keep.
Qed.

(** The lowering of the embedding leaves the units of a safe name alone. *)
Lemma toLowerUnit_safe c : safe_unit c = true -> toLowerUnit c = c.
Proof.
  unfold safe_unit, is_lower, is_digit, HYPHEN, toLowerUnit. intros H.
  change (chr "-") with 45%N in H.
  repeat (rewrite orb_true_iff in H || rewrite andb_true_iff in H
          || rewrite N.leb_le in H || rewrite N.eqb_eq in H).
  destruct ((65 <=? c)%N && (c <=? 90)%N) eqn:E1.
  - apply andb_true_iff in E1 as [E1 E2]. apply N.leb_le in E1, E2. lia.
  - destruct ((192 <=? c)%N && (c <=? 222)%N) eqn:E2; [|reflexivity].
    apply andb_true_iff in E2 as [E2 E3]. apply N.leb_le in E2, E3. lia.
Qed.

Lemma toLowerCase_safe : forall t, forallb safe_unit t = true -> toLowerCase t = t.
Proof.
  induction t as [|c t IH]; intros H; [reflexivity|].
  cbn [forallb] in H. apply andb_true_iff in H as [Hc H].
  unfold toLowerCase in *. cbn [List.map]. now rewrite (toLowerUnit_safe c Hc), IH.
Qed.

End SafeName.

(** * The files of a table of contents *)

Module Toctree.
Import Engine Chunker Headers Admonition Directives.

Lemma strip_prefix_all : forall w t, strip_prefix w t = Some [] -> t = w.
Proof.
  intros w t H. apply strip_prefix_some in H. now rewrite app_nil_r in H.
Qed.

Lemma run_lit_strip s prev t caps :
  u s <> [] ->
  run (lit s) (MState prev t caps) =
  match strip_prefix (u s) t with
  | Some r => [MState (last_unit prev (u s)) r caps]
  | None => []
  end.
Proof.
  intros H. unfold lit. destruct (u s) as [|x w]; [congruence|]. apply run_literal.
Qed.

(** The extension pattern matches the text [.rst] and the text [.md], and
    nothing else. *)
Lemma match_here_doc_ext prev s :
  match_here re_doc_ext prev s =
  if is_doc_ext s
  then Some (s, [(1, skipn 1 s)], MState (last_unit prev s) [] [(1, skipn 1 s)])
  else None.
Proof.
  unfold is_doc_ext, match_here, re_doc_ext. cbn [seqs]. unfold C. rewrite run_seq_chr.
  destruct s as [|c t]; [reflexivity|]. unfold eqc at 1.
  change (u ".rst") with (chr "." :: u "rst"). change (u ".md") with (chr "." :: u "md").
  cbn [str_eqb skipn]. destruct (N.eqb c (chr ".")) eqn:Ec; [|reflexivity].
  cbn [andb]. rewrite run_seq, run_grp, run_alt, !run_lit_strip by discriminate.
  destruct (str_eqb t (u "rst")) eqn:E1.
  - apply str_eqb_eq in E1. subst t. reflexivity.
  - destruct (str_eqb t (u "md")) eqn:E2.
    + apply str_eqb_eq in E2. subst t. reflexivity.
    + cbn [orb].
      destruct (strip_prefix (u "rst") t) as [r1|] eqn:S1;
        destruct (strip_prefix (u "md") t) as [r2|] eqn:S2;
        cbn [app List.map flat_map m_rest m_prev m_caps run];
        try (destruct r1 as [|x1 r1];
             [apply strip_prefix_all in S1; subst t; discriminate|]);
        try (destruct r2 as [|x2 r2];
             [apply strip_prefix_all in S2; subst t; discriminate|]);
        reflexivity.
Qed.

Lemma search_doc_ext_none : forall s prev skipped,
  ends_with_doc_ext s = false -> search_from re_doc_ext prev skipped s = None.
Proof.
  induction s as [|c t IH]; intros prev skipped H; cbn [ends_with_doc_ext] in H;
    apply orb_false_iff in H as [H1 H2]; cbn [search_from];
    rewrite match_here_doc_ext, H1; [reflexivity|now apply IH].
Qed.

Lemma search_doc_ext_end ext : forall name prev skipped,
  is_doc_ext ext = true ->
  search_from re_doc_ext prev skipped (name ++ ext)
  = Some (rev skipped ++ name, ext, [(1, skipn 1 ext)], []).
Proof.
  intros name prev skipped Hext. revert prev skipped.
  induction name as [|x name IH]; intros prev skipped.
  - cbn [app]. rewrite app_nil_r. destruct ext as [|e ext]; [discriminate|].
    cbn [search_from]. now rewrite match_here_doc_ext, Hext.
  - cbn [app search_from]. rewrite match_here_doc_ext.
    assert (E : is_doc_ext (x :: name ++ ext) = false).
    { unfold is_doc_ext in *. apply orb_true_iff in Hext.
      apply orb_false_iff.
      split;
        match goal with
        | |- str_eqb ?a ?b = false => destruct (str_eqb a b) eqn:E; [|reflexivity]
        end;
        apply str_eqb_eq in E; destruct Hext as [H|H]; apply str_eqb_eq in H; subst ext;
        try (destruct name as [|y name]; [discriminate|]);
        apply (f_equal (@length N)) in E; cbn [length app] in E; rewrite length_app in E;
        cbn in E; lia. }
    rewrite E, IH. cbn [rev]. now rewrite <- app_assoc.
Qed.

Lemma toctree_file_ext name ext :
  is_doc_ext ext = true -> toctree_file (name ++ ext) = name ++ u ".rst".
Proof.
  intros H. unfold toctree_file, replace_first, search.
  rewrite (@search_doc_ext_end ext name None [] H). cbn [rev app]. now rewrite app_nil_r.
Qed.

Lemma toctree_file_bare name :
  ends_with_doc_ext name = false -> toctree_file name = name ++ u ".rst".
Proof.
  intros H. unfold toctree_file, replace_first, search.
  now rewrite search_doc_ext_none.
Qed.

Lemma toctree_file_shape trimmed : exists base, toctree_file trimmed = base ++ u ".rst".
Proof. unfold toctree_file. eexists. reflexivity. Qed.

Lemma toctree_file_idempotent trimmed :
  toctree_file (toctree_file trimmed) = toctree_file trimmed.
Proof.
  destruct (toctree_file_shape trimmed) as [base ->]. now apply toctree_file_ext.
Qed.

Lemma fold_toctree_shape : forall lines files,
  (forall f, In f files -> exists base, f = base ++ u ".rst") ->
  forall f, In f (fold_left toctree_step lines files) -> exists base, f = base ++ u ".rst".
Proof.
  induction lines as [|line lines IH]; intros files H; [exact H|].
  cbn [fold_left]. apply IH. unfold toctree_step.
  destruct (nonempty (trim line) && _ && _); [|exact H].
  intros f Hin. apply in_app_or in Hin. destruct Hin as [Hin|[<-|[]]]; [now apply H|].
  apply toctree_file_shape.
Qed.

Lemma extractToctree_shape content f :
  In f (extractToctree content) -> exists base, f = base ++ u ".rst".
Proof.
  unfold extractToctree.
  destruct (search re_toctree content) as [[[[before w] caps] after]|]; [|intros []].
  apply fold_toctree_shape. intros ? [].
Qed.

Lemma extractToctree_none content :
  includes content (u "..") = false -> extractToctree content = [].
Proof.
  intros H. unfold extractToctree, search.
  rewrite search_from_none; [reflexivity|].
  intros prev t [w ->]. apply two_unit_start.
  clear prev. induction w as [|x w IH].
  - cbn [app] in H. destruct t; cbn [includes] in H; now apply orb_false_iff in H as [H _].
  - apply IH. cbn [app includes] in H. now apply orb_false_iff in H as [_ H].
Qed.

End Toctree.

(** * The titles of the chunks *)

Module Titles.
Import Chunker Parts WordCount Sections Numbering.

Lemma part_title_nonempty title n : nonempty (part_title title n) = true.
Proof. unfold part_title. destruct title; reflexivity. Qed.

Lemma splitLargeSection_titled section maxSize c :
  nonempty (h_title section) = true -> In c (splitLargeSection section maxSize) -> titled c.
Proof.
  intros Ht Hin. apply In_nth_error in Hin. destruct Hin as [k Hk].
  apply splitLargeSection_titles in Hk. destruct Hk as (_ & _ & [E|E]); unfold titled; rewrite E.
  - exact Ht.
  - apply part_title_nonempty.
Qed.

Lemma sub_chunks_titled section : forall subChunks chunkIndex c,
  (forall sub, In sub subChunks -> titled sub) ->
  In c (sub_chunks section chunkIndex subChunks) -> titled c.
Proof.
  intros subChunks chunkIndex c H Hin. apply sub_chunks_in in Hin.
  destruct Hin as (sub & Hs & _ & _ & Ht & _). unfold titled. rewrite Ht. now apply H.
Qed.

Lemma new_chunk_titled size st section :
  section_ok section -> titled_inv st -> titled_inv (new_chunk size st section).
Proof.
  intros [_ Ht] H. unfold new_chunk, titled_inv.
  destruct (size <? countWords (h_content section)); unfold push_current at 1;
    cbn [cs_current cs_chunks]; intros c Hin; apply in_app_or in Hin;
    destruct Hin as [Hin|Hin]; try (now apply H).
  - eapply sub_chunks_titled; [|exact Hin]. intros sub Hs.
    eapply splitLargeSection_titled; eauto.
  - destruct Hin as [<-|[]]. unfold titled. cbn [c_title]. now rewrite Ht.
Qed.

Lemma chunk_step_titled size st section :
  section_ok section -> titled_inv st -> titled_inv (chunk_step size st section).
Proof.
  intros Hs H. unfold chunk_step. destruct (cs_current st) as [cur|] eqn:E;
    [|now apply new_chunk_titled].
  destruct (c_wordCount cur + countWords (h_content section) <=? size);
    [|now apply new_chunk_titled].
  unfold titled_inv, push_current in *. rewrite E in H. cbn [cs_current cs_chunks].
  intros c Hin. apply in_app_or in Hin. destruct Hin as [Hin|[<-|[]]].
  - apply H. apply in_or_app. now left.
  - unfold titled. cbn [c_title]. apply (H cur). apply in_or_app. right. now left.
Qed.

Lemma fold_chunk_titled size : forall sections st,
  (forall s, In s sections -> section_ok s) -> titled_inv st ->
  titled_inv (fold_left (chunk_step size) sections st).
Proof.
  induction sections as [|s sections IH]; intros st Hs H; [exact H|].
  cbn [fold_left]. apply IH.
  - intros x Hx. apply Hs. now right.
  - apply chunk_step_titled; [|exact H]. apply Hs. now left.
Qed.

Lemma chunkContent_titled markdown options c :
  In c (chunkContent markdown options) -> nonempty (c_title c) = true.
Proof.
  unfold chunkContent. intros H. apply addChunkContext_in in H.
  destruct H as (c0 & context & H & ->). cbn [with_context c_title].
  eapply (@fold_chunk_titled (chunkSize options) (splitByHeaders markdown)); [| |exact H].
  - intros s Hs. eapply splitByHeaders_ok, Hs.
  - intros x [].
Qed.

End Titles.

(** * The metadata of a document *)

Module Metadata.
Import Engine Plain Trim.

Lemma search_needs c a b content :
  free c content = true -> search (Seq a (Seq (Chr (eqc c)) b)) content = None.
Proof.
  intros H. unfold search. apply search_from_none. intros prev t [w ->].
  apply free_suffix in H. unfold match_here. now rewrite run_needs.
Qed.

Lemma extractMetadata_free content : free BSL content = true -> extractMetadata content = [].
Proof.
  intros H. unfold extractMetadata, set_from_match.
  assert (E1 : search re_meta_title content = None).
  { unfold search. apply search_from_none. intros prev t [w ->].
    apply free_suffix in H. unfold match_here, re_meta_title. cbn [seqs].
    rewrite run_seq. unfold bsl. rewrite flat_map_nil; [reflexivity|].
    intros s Hs. apply run_needs. apply run_extends in Hs.
    now apply (@free_extends BSL _ _ Hs). }
  rewrite E1.
  unfold re_meta_author, re_meta_date. cbn [seqs]. unfold bsl.
  now rewrite !search_needs.
Qed.

Lemma obj_set_values (P : str -> Prop) k v : forall o,
  P v -> (forall k' v', In (k', v') o -> P v') ->
  forall k' v', In (k', v') (obj_set k v o) -> P v'.
Proof.
  induction o as [|[k0 v0] o IH]; intros Hv Ho k' v' Hin; cbn [obj_set] in Hin.
  - destruct Hin as [[= <- <-]|[]]. exact Hv.
  - destruct (str_eqb k0 k).
    + destruct Hin as [[= <- <-]|Hin]; [exact Hv|]. eapply Ho. right. exact Hin.
    + destruct Hin as [[= <- <-]|Hin]; [eapply Ho; now left|].
      eapply IH; [exact Hv| |exact Hin]. intros ? ? ?. eapply Ho. right. eassumption.
Qed.

Lemma set_from_match_values r key content metadata :
  (forall k v, In (k, v) metadata -> trimmed v = true) ->
  forall k v, In (k, v) (set_from_match r key content metadata) -> trimmed v = true.
Proof.
  intros H. unfold set_from_match.
  destruct (search r content) as [[[[before w] caps] after]|]; [|exact H].
  apply (obj_set_values (fun v => trimmed v = true)); [apply trim_trimmed|exact H].
Qed.

Lemma extractMetadata_trimmed content k v :
  In (k, v) (extractMetadata content) -> trimmed v = true.
Proof.
  unfold extractMetadata. repeat apply set_from_match_values. intros ? ? [].
Qed.

End Metadata.

(** * The title of the document *)

Module DocTitle.
Import Parser.

Lemma parse_step_title lines st st' :
  title_from_header lines (ps_title st) -> parse_step lines st = Some st' ->
  title_from_header lines (ps_title st').
Proof.
  intros Hinv. unfold parse_step. destruct (ps_i st <? length lines) eqn:Ei; [|discriminate].
  cbn [negb].
  destruct ((ps_i st + 1 <? length lines)
            && isUnderline (line_at lines (ps_i st + 1))
            && nonempty (trim (line_at lines (ps_i st)))) eqn:Eh.
  - apply andb_true_iff in Eh as [Eh Hne]. apply andb_true_iff in Eh as [Eh Hu].
    apply Nat.ltb_lt in Eh.
    destruct (negb (nonempty (ps_title st)) && _) eqn:Et; intros H; injection H as <-;
      cbn [ps_title]; [|exact Hinv].
    apply andb_true_iff in Et as [_ Et]. apply Nat.eqb_eq in Et.
    right. exists (ps_i st). repeat split; assumption.
  - destruct (test re_directive_open (line_at lines (ps_i st))).
    + destruct (parseDirective lines (ps_i st)) as [directive nextIndex].
      intros H. injection H as <-. exact Hinv.
    + intros H. injection H as <-. exact Hinv.
Qed.

Lemma parse_loop_title lines : forall fuel st,
  title_from_header lines (ps_title st) ->
  title_from_header lines (ps_title (parse_loop lines fuel st)).
Proof.
  induction fuel as [|fuel IH]; intros st Hinv; [exact Hinv|].
  cbn [parse_loop]. destruct (parse_step lines st) as [st'|] eqn:E; [|exact Hinv].
  apply IH. eapply parse_step_title; eauto.
Qed.

Lemma parseRST_title content :
  title_from_header (split content (u "\n")) (p_title (parseRST content)).
Proof. unfold parseRST. cbn [p_title]. apply parse_loop_title. now left. Qed.

End DocTitle.

(** * The context of a chunk *)

Module Navigation.
Import Chunker Parts.

Lemma chunkContent_context markdown options k c :
  nth_error (chunkContent markdown options) k = Some c ->
  let n := length (chunkContent markdown options) in
  (n = 1 -> c_context c = Some []) /\
  (2 <= n ->
   exists rest,
     c_context c
     = Some (u "Document part " ++ showNat (k + 1) ++ u " of " ++ showNat n ++ rest)).
Proof.
  intros H. cbv zeta. unfold chunkContent in *. rewrite addChunkContext_length.
  apply addChunkContext_nth in H. destruct H as (c0 & _ & ->).
  cbn [with_context c_context]. unfold chunk_context. split.
  - intros ->. reflexivity.
  - intros Hn. replace (1 <? length _) with true by (symmetry; apply Nat.ltb_lt; lia).
    eexists. reflexivity.
Qed.

End Navigation.

(** * Patterns that need a unit *)

Module Needs.
Import Engine Plain.

Lemma run_free c r : needs c r -> forall s, free c (m_rest s) = true -> run r s = [].
Proof.
  induction 1 as [|a b Ha IH|a b Hb IH|a b Ha IHa Hb IHb|g lo hi r Hr IH|n r Hr IH|r Hr IH];
    intros s Hs.
  - destruct s as [prev rest caps]. cbn [run m_rest m_caps] in *.
    destruct rest as [|x t]; [reflexivity|]. unfold eqc.
    now rewrite (@free_head _ _ _ Hs).
  - rewrite run_seq, IH by exact Hs. reflexivity.
  - rewrite run_seq. apply flat_map_nil. intros s1 H1. apply IH.
    apply run_extends in H1. now apply (@free_extends c _ _ H1).
  - cbn [run]. now rewrite IHa, IHb.
  - cbn [run rep_loop]. rewrite IH by exact Hs. cbn [flat_map].
    destruct hi as [[|h]|]; reflexivity.
  - cbn [run]. now rewrite IH.
  - cbn [run]. now rewrite IH.
Qed.

Lemma needs_match c r prev s : needs c r -> free c s = true -> match_here r prev s = None.
Proof. intros Hr Hs. unfold match_here. now rewrite (@run_free c r Hr). Qed.

Lemma needs_no_match c r : needs c r -> forall s prev, free c s = true -> no_match r prev s.
Proof.
  intros Hr. induction s as [|x t IH]; intros prev Hs; cbn [no_match].
  - split; [eapply needs_match; eassumption|exact I].
  - split; [eapply needs_match; eassumption|]. apply IH. eapply free_tail, Hs.
Qed.

Lemma needs_replace_all c r f s : needs c r -> free c s = true -> replace_all r f s = s.
Proof.
  intros Hr Hs. rewrite replace_all_rl. apply rl_no_match. eapply needs_no_match; eassumption.
Qed.

Lemma needs_search c r s : needs c r -> free c s = true -> search r s = None.
Proof.
  intros Hr Hs. unfold search. apply search_from_none. intros prev t [w ->].
  apply free_suffix in Hs. eapply needs_match; eassumption.
Qed.

Lemma needs_replace_first c r f s : needs c r -> free c s = true -> replace_first r f s = s.
Proof. intros Hr Hs. unfold replace_first. now rewrite (@needs_search c r s Hr Hs). Qed.

End Needs.

(** * The emphasis patterns *)

Module Bold.
Import Engine Plain Needs Headers Admonition Trim Context Sections.

Lemma run_star_skip c r prev s caps :
  head_is c s = false ->
  run (Seq (star (Chr (eqc c))) r) (MState prev s caps) = run r (MState prev s caps).
Proof.
  intros H. rewrite run_seq. unfold star. rewrite run_rep_chr.
  destruct s as [|x t]; cbn [rep_chr_list flat_map]; [now rewrite app_nil_r|].
  cbn [head_is] in H. unfold eqc. rewrite H. cbn [flat_map]. now rewrite app_nil_r.
Qed.

Lemma run_star_stop c prev s caps :
  head_is c s = false ->
  run (star (Chr (eqc c))) (MState prev s caps) = [MState prev s caps].
Proof.
  intros H. unfold star. rewrite run_rep_chr.
  destruct s as [|x t]; cbn [rep_chr_list]; [reflexivity|].
  cbn [head_is] in H. unfold eqc. now rewrite H.
Qed.

(** A group over a run of units of a class reads the whole run first. *)
Lemma run_grp_plus p n prev w rest caps :
  w <> [] -> forallb p w = true ->
  match rest with x :: _ => p x = false | [] => True end ->
  exists l,
    run (Grp n (plus (Chr p))) (MState prev (w ++ rest) caps)
    = MState (last_unit prev w) rest ((n, w) :: caps) :: l.
Proof.
  intros Hw Hp Hr. rewrite run_grp. unfold plus. rewrite run_rep_chr.
  destruct (takeWhile_all p w rest Hp Hr) as [Et Ed].
  destruct (@rep_chr_list_hd p (w ++ rest) 1 prev caps) as [l Hl].
  { rewrite Et. destruct w; [congruence|cbn [length]; lia]. }
  rewrite Hl, Et, Ed. cbn [List.map m_prev m_rest m_caps].
  rewrite consumed_app. eexists. reflexivity.
Qed.

Lemma run_grp_none p n prev s caps :
  match s with x :: _ => p x = false | [] => True end ->
  run (Grp n (plus (Chr p))) (MState prev s caps) = [].
Proof.
  intros H. rewrite run_grp. unfold plus. rewrite run_rep_chr.
  rewrite rep_chr_list_short; [reflexivity|].
  destruct s as [|x t]; cbn [takeWhile]; [cbn; lia|]. rewrite H. cbn. lia.
Qed.

Lemma run_lead k r prev s caps :
  head_is BSL s = false -> run (lead k r) (MState prev s caps) = run r (MState prev s caps).
Proof.
  intros H. induction k as [|k IH]; [reflexivity|].
  cbn [lead]. unfold bsl. now rewrite run_star_skip.
Qed.

Lemma run_trail k prev s caps :
  head_is BSL s = false -> run (trail k) (MState prev s caps) = [MState prev s caps].
Proof.
  intros H. induction k as [|k IH]; cbn [trail]; unfold bsl.
  - now apply run_star_stop.
  - now rewrite run_star_skip.
Qed.

Lemma free_head_is c s : free c s = true -> head_is c s = false.
Proof. destruct s as [|x t]; [reflexivity|]. cbn [head_is]. apply free_head. Qed.

Lemma match_framed k j prev w rest :
  w <> [] -> free STAR w = true -> head_is BSL w = false ->
  head_is BSL rest = false ->
  match rest with x :: _ => N.eqb x STAR = true | [] => True end ->
  match_here (framed k j) prev (w ++ rest)
  = Some (w, [(1, w)], MState (last_unit prev w) rest [(1, w)]).
Proof.
  intros Hw Hf Hb Hr Hs. unfold match_here, framed.
  rewrite run_lead by (destruct w; [congruence|exact Hb]).
  rewrite run_seq. unfold no.
  destruct (@run_grp_plus (neqc (chr "*")) 1 prev w rest [] Hw Hf) as [l Hl].
  { destruct rest as [|x t]; [exact I|]. unfold neqc. change (chr "*") with STAR.
    now rewrite Hs. }
  rewrite Hl. cbn [flat_map]. rewrite run_trail by exact Hr. cbn [app m_caps].
  now rewrite consumed_app.
Qed.

Lemma match_framed_none k j prev s :
  match s with x :: _ => N.eqb x STAR = true | [] => True end ->
  match_here (framed k j) prev s = None.
Proof.
  intros Hs. unfold match_here, framed.
  rewrite run_lead.
  - rewrite run_seq. unfold no. rewrite run_grp_none; [reflexivity|].
    destruct s as [|x t]; [exact I|]. unfold neqc. change (chr "*") with STAR. now rewrite Hs.
  - destruct s as [|x t]; [reflexivity|]. cbn [head_is]. apply N.eqb_eq in Hs. now subst x.
Qed.

(** The rewrite of a framed pattern, on a text without asterisk and on the
    same text between asterisks. *)
Lemma rl_framed k j f prev w :
  w <> [] -> free STAR w = true -> head_is BSL w = false ->
  rl (framed k j) f prev w = f w [(1, w)].
Proof.
  intros Hw Hf Hb. destruct w as [|x w'] eqn:E; [congruence|]. rewrite <- E in *.
  pose proof (@match_framed k j prev w [] Hw Hf Hb eq_refl I) as Hm.
  rewrite app_nil_r in Hm. rewrite E at 1. rewrite rl_cons. rewrite <- E, Hm.
  rewrite E at 1. cbn [m_prev m_rest]. rewrite rl_nil, match_framed_none by exact I.
  now rewrite app_nil_r, E.
Qed.

Lemma rl_framed_stars k j f prev w :
  w <> [] -> free STAR w = true -> head_is BSL w = false ->
  rl (framed k j) f prev (u "**" ++ w ++ u "**") = u "**" ++ f w [(1, w)] ++ u "**".
Proof.
  intros Hw Hf Hb. change (u "**") with [STAR; STAR]. cbn [app].
  rewrite rl_cons, match_framed_none by (apply N.eqb_refl).
  rewrite rl_cons, match_framed_none by (apply N.eqb_refl).
  destruct w as [|x w'] eqn:E; [congruence|]. rewrite <- E in *.
  pose proof (@match_framed k j (Some STAR) w [STAR; STAR] Hw Hf Hb eq_refl
                (N.eqb_refl STAR)) as Hm.
  rewrite E at 1. cbn [app]. rewrite rl_cons.
  change (x :: w' ++ [STAR; STAR]) with ((x :: w') ++ [STAR; STAR]). rewrite <- E, Hm.
  rewrite E at 1. cbn [m_prev m_rest].
  rewrite rl_cons, match_framed_none by (apply N.eqb_refl).
  rewrite rl_cons, match_framed_none by (apply N.eqb_refl).
  rewrite rl_nil, match_framed_none by exact I.
  rewrite E. reflexivity.
Qed.

Lemma free_wrap c a b w :
  free c a = true -> free c b = true -> free c w = true -> free c (a ++ w ++ b) = true.
Proof. intros Ha Hb Hw. now rewrite !free_app, Ha, Hb, Hw. Qed.

End Bold.

(** * Texts without markup *)

Module PlainText.
Import Engine Plain Needs Headers Admonition Trim Context Sections Bold.

Lemma strong_framed : re_strong = framed 2 1.
Proof. reflexivity. Qed.

Lemma emphasis_framed : re_emphasis = framed 1 0.
Proof. reflexivity. Qed.

Lemma triple_framed : re_triple_emphasis = framed 3 2.
Proof. reflexivity. Qed.

Lemma needs_inline_code : needs BTICK re_inline_code.
Proof. apply needs_first, needs_chr. Qed.

Lemma needs_code_block : needs (chr ":") re_code_block.
Proof. apply needs_first, needs_first, needs_chr. Qed.

Lemma needs_bullet : needs BSL re_bullet.
Proof. apply needs_then, needs_first, needs_chr. Qed.

Lemma needs_numbered : needs BSL re_numbered.
Proof. apply needs_then, needs_first, needs_chr. Qed.

Lemma needs_doc : needs (chr ":") re_doc.
Proof. apply needs_first, needs_first, needs_chr. Qed.

Lemma needs_external_link : needs BTICK re_external_link.
Proof. apply needs_first, needs_chr. Qed.

Lemma needs_ref : needs (chr ":") re_ref.
Proof. apply needs_first, needs_first, needs_chr. Qed.

Lemma trim_stars s : trim (STAR :: s ++ [STAR]) = STAR :: s ++ [STAR].
Proof.
  apply trimmed_trim. unfold trimmed.
  change (STAR :: s ++ [STAR]) with ((STAR :: s) ++ [STAR]) at 2.
  rewrite rev_app_distr. reflexivity.
Qed.

(** The conversion of a content without markup: it comes out between
    three asterisks on each side. *)
Lemma convertContentToMarkdown_plain content options :
  content <> [] ->
  free STAR content = true -> free BSL content = true ->
  free BTICK content = true -> free (chr ":") content = true ->
  convertContentToMarkdown content options = u "***" ++ content ++ u "***".
Proof.
  intros Hne Hs Hb Ht Hc. unfold convertContentToMarkdown, convertDocReferences.
  rewrite (replace_all_rl re_strong), strong_framed.
  rewrite rl_framed by (try assumption; now apply free_head_is).
  rewrite (replace_all_rl re_emphasis), emphasis_framed.
  unfold cap. cbn [cap_lookup Nat.eqb].
  rewrite rl_framed_stars by (try assumption; now apply free_head_is).
  cbn [cap_lookup Nat.eqb].
  assert (F : forall c, N.eqb STAR c = false -> free c content = true ->
                        free c (u "**" ++ (u "*" ++ content ++ u "*") ++ u "**") = true).
  { intros c Hc0 Hf. change (u "**") with [STAR; STAR]. change (u "*") with [STAR].
    rewrite !free_app, Hf. cbn [free forallb]. unfold neqc. now rewrite Hc0. }
  rewrite (@needs_replace_all _ _ _ _ needs_inline_code) by (apply F; [reflexivity|assumption]).
  rewrite (@needs_replace_all _ _ _ _ needs_code_block) by (apply F; [reflexivity|assumption]).
  rewrite (@needs_replace_all _ _ _ _ needs_bullet) by (apply F; [reflexivity|assumption]).
  rewrite (@needs_replace_all _ _ _ _ needs_numbered) by (apply F; [reflexivity|assumption]).
  rewrite (@needs_replace_all _ _ _ _ needs_doc) by (apply F; [reflexivity|assumption]).
  rewrite (@needs_replace_all _ _ _ _ needs_external_link) by (apply F; [reflexivity|assumption]).
  rewrite (@needs_replace_all _ _ _ _ needs_ref) by (apply F; [reflexivity|assumption]).
  change (u "**" ++ (u "*" ++ content ++ u "*") ++ u "**")
    with (STAR :: ([STAR; STAR] ++ content ++ [STAR]) ++ [STAR; STAR]).
  replace (STAR :: ([STAR; STAR] ++ content ++ [STAR]) ++ [STAR; STAR])
    with (STAR :: ([STAR; STAR] ++ content ++ [STAR; STAR]) ++ [STAR])
    by (cbn [app]; rewrite <- !app_assoc; reflexivity).
  rewrite trim_stars. cbn [app]. now rewrite <- !app_assoc.
Qed.

Lemma needs_deep_header : needs BSL re_deep_header.
Proof. apply needs_then, needs_then, needs_first, needs_chr. Qed.

Lemma needs_letter_item : needs (chr ")") re_letter_item.
Proof. apply needs_then, needs_then, needs_then, needs_first, needs_chr. Qed.

Lemma needs_roman_item : needs (chr ")") re_roman_item.
Proof. apply needs_then, needs_then, needs_then, needs_first, needs_chr. Qed.

Lemma needs_table : needs BSL re_table.
Proof.
  apply needs_alt; [apply needs_chr|].
  apply needs_alt; [apply needs_then, needs_chr|].
  apply needs_alt; [apply needs_first, needs_chr|].
  apply needs_alt; [apply needs_then, needs_chr|].
  apply needs_first, needs_chr.
Qed.

Lemma needs_newlines : needs BSL re_newlines.
Proof. apply needs_first, needs_chr. Qed.

Lemma needs_self_link : needs (chr "[") re_self_link.
Proof. apply needs_first, needs_chr. Qed.

Lemma needs_empty_section : needs BSL re_empty_section.
Proof. apply needs_then, needs_then, needs_first, needs_chr. Qed.

Lemma needs_fence : needs BSL re_fence.
Proof. apply needs_then, needs_then, needs_first, needs_chr. Qed.

Lemma needs_dash_item : needs BSL re_dash_item.
Proof. apply needs_then, needs_then, needs_first, needs_chr. Qed.

Lemma needs_major_header : needs BSL re_major_header.
Proof. apply needs_then, needs_first, needs_grp, needs_then, needs_first, needs_chr. Qed.

Lemma needs_leading_rule : needs BSL re_leading_rule.
Proof. apply needs_then, needs_first, needs_chr. Qed.

Lemma simplifyStructure_plain markdown :
  free BSL markdown = true -> free (chr ")") markdown = true ->
  simplifyStructure markdown = markdown.
Proof.
  intros Hb Hp. unfold simplifyStructure, clampHeaders, simplifyTables.
  rewrite (@needs_replace_all _ _ _ _ needs_deep_header Hb).
  rewrite (@needs_replace_all _ _ _ _ needs_letter_item Hp).
  rewrite (@needs_replace_all _ _ _ _ needs_roman_item Hp).
  apply (@needs_replace_all _ _ _ _ needs_table Hb).
Qed.

Lemma removeRedundancy_plain markdown :
  markdown <> [] ->
  free STAR markdown = true -> free BSL markdown = true -> free (chr "[") markdown = true ->
  removeRedundancy markdown = u "**" ++ markdown ++ u "**".
Proof.
  intros Hne Hs Hb Hl. unfold removeRedundancy, collapseNewlines.
  rewrite (@needs_replace_all _ _ _ _ needs_newlines Hb).
  rewrite (replace_all_rl re_triple_emphasis), triple_framed.
  rewrite rl_framed by (try assumption; now apply free_head_is).
  unfold cap. cbn [cap_lookup Nat.eqb].
  rewrite (@needs_replace_all _ _ _ _ needs_self_link)
    by (apply free_wrap; [reflexivity|reflexivity|exact Hl]).
  apply (@needs_replace_all _ _ _ _ needs_empty_section).
  apply free_wrap; [reflexivity|reflexivity|exact Hb].
Qed.

Lemma addContextHeaders_plain markdown :
  free BSL markdown = true -> addContextHeaders markdown = markdown.
Proof.
  intros Hb. apply addContextHeaders_shallow. rewrite (@split_free _ Hb).
  cbn [forallb]. unfold shallow. now rewrite (@header_free _ Hb).
Qed.

Lemma optimizeFormatting_plain markdown :
  free BSL markdown = true -> optimizeFormatting markdown = markdown.
Proof.
  intros Hb. unfold optimizeFormatting.
  rewrite (@needs_replace_all _ _ _ _ needs_fence Hb).
  rewrite (@needs_replace_all _ _ _ _ needs_dash_item Hb).
  rewrite (@needs_replace_all _ _ _ _ needs_major_header Hb).
  apply (@needs_replace_first _ _ _ _ needs_leading_rule Hb).
Qed.

(** [optimize] on a text without markup: nothing but the emphasis rewrite
    of [removeRedundancy] applies, and it puts the text between two
    asterisks on each side. *)
Lemma optimize_plain markdown options :
  markdown <> [] ->
  free STAR markdown = true -> free BSL markdown = true ->
  free (chr ")") markdown = true -> free (chr "[") markdown = true ->
  optimize markdown options
  = if flag (o_removeRedundancy (mergeOptions options))
    then u "**" ++ markdown ++ u "**"
    else markdown.
Proof.
  intros Hne Hs Hb Hp Hl. unfold optimize.
  destruct (flag (o_simplifyStructure (mergeOptions options)));
    [rewrite (@simplifyStructure_plain markdown Hb Hp)|];
    (destruct (flag (o_removeRedundancy (mergeOptions options)));
     [rewrite (@removeRedundancy_plain markdown Hne Hs Hb Hl);
      assert (Hb' : free BSL (u "**" ++ markdown ++ u "**") = true)
        by (apply free_wrap; [reflexivity|reflexivity|exact Hb]);
      (destruct (flag (o_addContextHeaders (mergeOptions options)));
       [rewrite (@addContextHeaders_plain _ Hb')|]);
      now apply optimizeFormatting_plain
     |(destruct (flag (o_addContextHeaders (mergeOptions options)));
       [rewrite (@addContextHeaders_plain _ Hb)|]);
      now apply optimizeFormatting_plain]).
Qed.

End PlainText.

(** * Chunks of whole sections *)

Module Merging.
Import Chunker Parts WordCount.

Lemma merged_chunk_more done x c : merged_chunk done c -> merged_chunk (done ++ [x]) c.
Proof.
  intros (before & ss & after & -> & H). exists before, ss, (after ++ [x]).
  split; [now rewrite <- !app_assoc|exact H].
Qed.

Lemma list_sum_snoc l x : list_sum (l ++ [x]) = list_sum l + x.
Proof. rewrite list_sum_app. simpl. lia. Qed.

Lemma merged_fields_snoc ss cur section :
  merged_fields ss cur ->
  merged_fields (ss ++ [section])
    (mkChunk (c_id cur) (c_title cur)
             (c_content cur ++ u "\n\n" ++ h_content section)
             (push_section (h_title section) (c_metadata cur))
             (c_wordCount cur + countWords (h_content section)) (c_context cur)).
Proof.
  intros (Hne & Hc & Hw & Hm). split; [|split; [|split]];
    cbn [c_content c_wordCount c_metadata].
  - destruct ss; discriminate.
  - rewrite map_app. cbn [List.map]. rewrite join_snoc by (destruct ss; [congruence|discriminate]).
    now rewrite Hc.
  - rewrite map_app. cbn [List.map]. now rewrite list_sum_snoc, Hw.
  - rewrite Hm. cbn [push_section str_eqb]. rewrite map_app. reflexivity.
Qed.

Lemma sub_chunks_type section : forall subChunks chunkIndex c,
  In c (sub_chunks section chunkIndex subChunks) ->
  chunkType c = Some (MStr (u "subsection")).
Proof.
  intros subChunks chunkIndex c H. apply sub_chunks_in in H.
  destruct H as (sub & _ & _ & _ & _ & Hm). unfold chunkType. now rewrite Hm.
Qed.

Lemma push_current_merged done x st c :
  merge_inv done st -> In c (push_current st) ->
  chunkType c = Some (MStr (u "section")) -> merged_chunk (done ++ [x]) c.
Proof.
  intros [Hc Hcur] Hin Ht. apply merged_chunk_more. unfold push_current in Hin.
  destruct (cs_current st) as [cur|] eqn:E; [|now apply Hc].
  apply in_app_or in Hin. destruct Hin as [Hin|[<-|[]]]; [now apply Hc|].
  destruct (Hcur cur eq_refl) as (before & ss & -> & H).
  exists before, ss, []. now rewrite app_nil_r.
Qed.

Lemma new_chunk_merged size done st section :
  merge_inv done st -> merge_inv (done ++ [section]) (new_chunk size st section).
Proof.
  intros Hinv. unfold new_chunk.
  destruct (size <? countWords (h_content section)); split; cbn [cs_chunks cs_current].
  - intros c Hin Ht. apply in_app_or in Hin. destruct Hin as [Hin|Hin].
    + eapply push_current_merged; eauto.
    + apply sub_chunks_type in Hin. rewrite Hin in Ht. discriminate.
  - discriminate.
  - intros c Hin Ht. eapply push_current_merged; eauto.
  - intros cur [= <-]. exists done, [section]. split; [reflexivity|].
    split; [discriminate|]. cbn [c_content c_wordCount c_metadata List.map join].
    split; [reflexivity|]. split; [simpl; lia|reflexivity].
Qed.

Lemma chunk_step_merged size done section st :
  merge_inv done st -> merge_inv (done ++ [section]) (chunk_step size st section).
Proof.
  intros Hinv. unfold chunk_step. destruct (cs_current st) as [cur|] eqn:E;
    [|now apply new_chunk_merged].
  destruct (c_wordCount cur + countWords (h_content section) <=? size);
    [|now apply new_chunk_merged].
  destruct Hinv as [Hc Hcur]. split; cbn [cs_chunks cs_current].
  - intros c Hin Ht. apply merged_chunk_more. now apply Hc.
  - intros c [= <-]. destruct (Hcur cur E) as (before & ss & -> & H).
    exists before, (ss ++ [section]). split; [now rewrite app_assoc|].
    now apply merged_fields_snoc.
Qed.

Lemma chunkContent_merged markdown options c :
  In c (chunkContent markdown options) ->
  chunkType c = Some (MStr (u "section")) ->
  merged_chunk (splitByHeaders markdown) c.
Proof.
  unfold chunkContent. intros Hin Ht. apply addChunkContext_in in Hin.
  destruct Hin as (c0 & context & Hin & ->).
  assert (Ht0 : chunkType c0 = Some (MStr (u "section"))) by exact Ht.
  pose proof (@fold_left_invariant _ _ (chunk_step (chunkSize options)) merge_inv
                (@chunk_step_merged (chunkSize options))
                (splitByHeaders markdown) [] (mkChunkState [] None 0)) as H.
  cbn [app] in H. destruct H as [Hc Hcur].
  { split; cbn [cs_chunks cs_current]; [intros ? []|discriminate]. }
  assert (Hm : merged_chunk (splitByHeaders markdown) c0).
  { unfold push_current in Hin.
    destruct (cs_current (fold_left _ _ _)) as [cur|] eqn:E; [|now apply Hc].
    apply in_app_or in Hin. destruct Hin as [Hin|[<-|[]]]; [now apply Hc|].
    destruct (Hcur cur eq_refl) as (before & ss & Hd & H).
    exists before, ss, []. now rewrite app_nil_r. }
  destruct Hm as (before & ss & after & Hs & Hne & H1 & H2 & H3).
  exists before, ss, after. split; [exact Hs|]. split; [exact Hne|].
  cbn [with_context c_content c_wordCount c_metadata]. now repeat split.
Qed.

End Merging.

(** * The properties of the specification *)

Lemma fold_left_app_concat {A : Type} (f : A -> str) : forall (l : list A) (init : str),
  fold_left (fun acc x => acc ++ f x) l init = init ++ concat (List.map f l).
Proof.
  induction l as [|x l IH]; intros init; cbn; [now rewrite app_nil_r|].
  now rewrite IH, <- app_assoc.
Qed.

(** C1.  Every chunk returned by [chunkContent] is either a chunk of whole
    sections, whose [wordCount] is within [chunkSize], or a piece of an
    oversized section: the trimmed join of consecutive whole paragraphs of
    that section, whose [wordCount] is within [chunkSize] unless the piece
    is one single paragraph that alone exceeds the budget. *)
Theorem C1_chunk_size_bound (markdown : str) (options : OptimizationOptions) (c : ContentChunk) :
  In c (chunkContent markdown options) ->
  (chunkType c = Some (MStr (u "section")) /\ c_wordCount c <= chunkSize options) \/
  (chunkType c = Some (MStr (u "subsection")) /\
   exists section before ps after,
     In section (splitByHeaders markdown) /\
     chunkSize options < countWords (h_content section) /\
     split (h_content section) (u "\n\n") = before ++ ps ++ after /\ ps <> [] /\
     c_content c = trim (join (u "\n\n") ps) /\
     c_wordCount c = countWords (join (u "\n\n") ps) /\
     (c_wordCount c <= chunkSize options \/
      exists p, ps = [p] /\ chunkSize options < countWords p)).
Proof.
  intros Hin. apply Chunker.chunkContent_ok in Hin.
  destruct Hin as [H|[Ht (section & Hs & Hc & _ & before & ps & after & Hw)]]; [now left|].
  right. split; [exact Ht|]. exists section, before, ps, after. auto.
Qed.

Lemma C1_witness :
  let c := mkChunk (u "chunk-1") (u "Introduction") (u "a b\sc")
                   [(u "parentSection", MStr (u "Introduction"));
                    (u "chunkType", MStr (u "subsection"))] 2 (Some []) in
  let options := mkOptimizationOptions (Some 1) None None None None in
  In c (chunkContent (u "a b\sc") options) /\
  ((chunkType c = Some (MStr (u "section")) /\ c_wordCount c <= chunkSize options) \/
   (chunkType c = Some (MStr (u "subsection")) /\
    exists section before ps after,
      In section (splitByHeaders (u "a b\sc")) /\
      chunkSize options < countWords (h_content section) /\
      split (h_content section) (u "\n\n") = before ++ ps ++ after /\ ps <> [] /\
      c_content c = trim (join (u "\n\n") ps) /\
      c_wordCount c = countWords (join (u "\n\n") ps) /\
      (c_wordCount c <= chunkSize options \/
       exists p, ps = [p] /\ chunkSize options < countWords p))).
Proof.
  intros c options.
  assert (H : In c (chunkContent (u "a b\sc") options)) by (vm_compute; left; reflexivity).
  split; [exact H|]. exact (C1_chunk_size_bound (u "a b\sc") options c H).
Defined.

(** C2 (as amended).  The doc-reference rewrite of
    [convertContentToMarkdown] takes the text between the backticks whole.
    Behind a text that leaves no reference open (every [:doc:] opener in it
    is followed by a later backtick of it: a text without backticks, or
    with inline code or another reference, is such a text), [:doc:`ref`]
    becomes [[ref](ref.md)] when [preserveReferences] is true and [ref]
    otherwise, with [ref] the entire text, a [Target<label>] included; no
    label is extracted from it.  The text before and the text after are
    rewritten on their own, and a text before without an opener is kept as
    it is. *)
Theorem C2_doc_reference_whole_text (options : ConversionOptions) (pre ref post : str) :
  refs_closed pre = true -> ref <> [] -> forallb (neqc BTICK) ref = true ->
  convertDocReferences options (pre ++ u ":doc:`" ++ ref ++ u "`" ++ post)
  = convertDocReferences options pre
    ++ (if truthy_flag (preserveReferences options)
        then u "[" ++ ref ++ u "](" ++ ref ++ u ".md)"
        else ref)
    ++ convertDocReferences options post
  /\ (includes pre (u ":doc:`") = false -> convertDocReferences options pre = pre).
Proof.
  intros Hpre Hne Href. split.
  - exact (DocRefs.convertDocReferences_behind options pre post Hpre Hne Href).
  - apply DocRefs.convertDocReferences_none.
Qed.

Lemma C2_witness :
  let options := mkConversionOptions None (Some true) None in
  let pre := u "Run `make`, then see " in
  convertDocReferences options (pre ++ u ":doc:`" ++ u "Target<label>" ++ u "`" ++ u ".")
  = convertDocReferences options pre
    ++ (if truthy_flag (preserveReferences options)
        then u "[" ++ u "Target<label>" ++ u "](" ++ u "Target<label>" ++ u ".md)"
        else u "Target<label>")
    ++ convertDocReferences options (u ".")
  /\ (includes pre (u ":doc:`") = false -> convertDocReferences options pre = pre).
Proof.
  intros options pre.
  apply (C2_doc_reference_whole_text options pre (ref := u "Target<label>") (u ".")).
  - reflexivity.
  - discriminate.
  - reflexivity.
Defined.

(** C2, the claim as stated fails: a section that holds
    [:doc:`Target<label>`] is converted, with [preserveReferences] true,
    to a text that does not contain [[label](label.md)]; the link is made
    of the whole text [Target<label>]. *)
Lemma C2_counterexample :
  let options := mkConversionOptions None (Some true) None in
  let output := convertToMarkdown (u "Guide\n-----\nSee :doc:`Target<label>`.") options in
  output = u "## Guide\n\n***See [Target<label>](Target<label>.md).\n***\n\n" /\
  includes output (u "[label](label.md)") = false /\
  convertContentToMarkdown (u "See :doc:`Target<label>`.") options
  = u "***See [Target<label>](Target<label>.md).***".
Proof. vm_compute. repeat split; reflexivity. Qed.

(** C3.  [getHeaderLevel] is the fixed table of the claim: [=] gives 1,
    [-] gives 2, [~] gives 3 and a character outside the table gives 2.
    [parseRST] however looks up the first unit of the underline line as it
    stands, while [isUnderline] accepts the line by its trimmed text.  So
    the level of a section is the table's value at the underline character
    when the underline starts its line, and an indented underline is looked
    up by its blank and gets level 2 whatever its character is.  In the
    document of the lines [Sec], [ ===] and [body] the underline character
    is [=], of level 1, yet [Sec] becomes a section of level 2 and not the
    title; without the blank it is the title. *)
Theorem C3_indented_underline :
  (getHeaderLevel (chr "=") = 1 /\
   getHeaderLevel (chr "-") = 2 /\
   getHeaderLevel (chr "~") = 3 /\
   forall c : N,
     c <> chr "=" -> c <> chr "-" -> c <> chr "~" -> c <> chr "^" ->
     c <> DQUOTE -> c <> SQUOTE -> getHeaderLevel c = 2) /\
  (forall content s,
     In s (p_sections (parseRST content)) ->
     let underline := line_at (split content (u "\n")) (s_lineStart s + 1) in
     isUnderline underline = true /\
     (first_is_ws underline = false ->
      s_level s = match trim underline with
                  | c :: _ => getHeaderLevel c
                  | [] => 2
                  end) /\
     (first_is_ws underline = true -> s_level s = 2)) /\
  (isUnderline (u " ===") = true /\
   trim (u " ===") = u "===" /\
   parseRST (u "Sec\n ===\nbody")
   = mkParsed [] [mkSection (u "Sec") 2 (u "body\n") 0] [] (u "Sec\n ===\nbody") /\
   parseRST (u "Sec\n===\nbody") = mkParsed (u "Sec") [] [] (u "Sec\n===\nbody")).
Proof.
  split; [|split].
  - repeat split; try reflexivity.
    intros c H1 H2 H3 H4 H5 H6. unfold getHeaderLevel.
    repeat match goal with
           | |- context [N.eqb c ?x] =>
               let E := fresh in destruct (N.eqb c x) eqn:E;
               [apply N.eqb_eq in E; congruence|]
           end.
    reflexivity.
  - intros content s Hs underline. apply Parser.parseRST_from_header in Hs.
    destruct Hs as (_ & Hu & _ & _ & Hl & _). fold underline in Hu, Hl.
    split; [exact Hu|]. rewrite Hl. destruct underline as [|c l].
    + split; [reflexivity|discriminate].
    + cbn [first_is_ws]. split; intros Hw.
      * destruct (Trim.trim_first c l Hw) as (t & ->). reflexivity.
      * unfold getHeaderLevel.
        repeat match goal with
               | |- context [N.eqb c ?x] =>
                   let E := fresh in destruct (N.eqb c x) eqn:E;
                   [apply N.eqb_eq in E; subst c; discriminate Hw|]
               end.
        reflexivity.
  - vm_compute. repeat split.
Qed.

(** C4 (as amended).  The renderer emits the title, when there is one, as
    a level-1 heading, then for each section in order a heading of depth
    [section.level], plus 1 when the document has a title, and the
    converted content; the depth is not clamped. *)
Theorem C4_heading_depth (parsed : Parsed) (options : ConversionOptions) :
  convertParsedToMarkdown parsed options
  = (if nonempty (p_title parsed) then u "# " ++ p_title parsed ++ u "\n\n" else [])
    ++ concat
         (List.map
            (fun section =>
               repeat (chr "#")
                      (s_level section + (if nonempty (p_title parsed) then 1 else 0))
                 ++ u " " ++ s_title section ++ u "\n\n"
                 ++ convertContentToMarkdown (s_content section) options ++ u "\n\n")
            (p_sections parsed)).
Proof.
  unfold convertParsedToMarkdown. rewrite fold_left_app_concat. f_equal.
  f_equal. apply map_ext. intros section. unfold section_markdown.
  f_equal. unfold repeat_str.
  generalize (s_level section + (if nonempty (p_title parsed) then 1 else 0)).
  intros n. induction n as [|n IH]; [reflexivity|].
  cbn [repeat concat]. rewrite IH. reflexivity.
Qed.

(** C4, the claim as stated fails: a document with a title and a section
    underlined with single quotes (level 6) gets a heading of depth 7. *)
Lemma C4_counterexample :
  let parsed := parseRST (u "Title\n=====\nDeep\n'''''\ntext") in
  p_title parsed = u "Title" /\
  p_sections parsed = [mkSection (u "Deep") 6 (u "text\n") 2] /\
  convertParsedToMarkdown parsed (mkConversionOptions None None None)
  = u "# Title\n\n####### Deep\n\n***text\n***\n\n".
Proof. vm_compute. repeat split; reflexivity. Qed.

(** C5 (as amended).  [parseRST] opens a section only at a recognised
    header: the title of a section is the header line, trimmed, its level
    comes from the underline, and its content is made only of lines that
    come after the underline.  Lines before the first header are added to
    no section, and no implicit section is created for them. *)
Theorem C5_sections_from_headers (content : str) (s : Section) :
  In s (p_sections (parseRST content)) ->
  let lines := split content (u "\n") in
  s_lineStart s + 1 < length lines /\
  isUnderline (line_at lines (s_lineStart s + 1)) = true /\
  nonempty (trim (line_at lines (s_lineStart s))) = true /\
  s_title s = trim (line_at lines (s_lineStart s)) /\
  exists js,
    s_content s = concat (List.map (fun j => line_at lines j ++ u "\n") js) /\
    Forall (fun j => s_lineStart s + 2 <= j) js.
Proof.
  intros Hs lines. apply Parser.parseRST_from_header in Hs.
  destruct Hs as (H1 & H2 & H3 & H4 & _ & H6). auto.
Qed.

Lemma C5_witness :
  let s := mkSection (u "Section") 2 (u "body\n") 1 in
  let lines := split (u "intro text\nSection\n-------\nbody") (u "\n") in
  In s (p_sections (parseRST (u "intro text\nSection\n-------\nbody"))) /\
  (s_lineStart s + 1 < length lines /\
   isUnderline (line_at lines (s_lineStart s + 1)) = true /\
   nonempty (trim (line_at lines (s_lineStart s))) = true /\
   s_title s = trim (line_at lines (s_lineStart s)) /\
   exists js,
     s_content s = concat (List.map (fun j => line_at lines j ++ u "\n") js) /\
     Forall (fun j => s_lineStart s + 2 <= j) js).
Proof.
  intros s lines.
  assert (H : In s (p_sections (parseRST (u "intro text\nSection\n-------\nbody"))))
    by (vm_compute; left; reflexivity).
  split; [exact H|]. exact (C5_sections_from_headers _ s H).
Defined.

(** C5, the claim as stated fails: a non-blank line precedes the first
    header, and the document has the section of that header only; there is
    no section titled Introduction and the leading line is in no section. *)
Lemma C5_counterexample :
  let parsed := parseRST (u "intro text\nSection\n-------\nbody") in
  p_title parsed = [] /\
  p_sections parsed = [mkSection (u "Section") 2 (u "body\n") 1] /\
  ~ (exists s, In s (p_sections parsed) /\ s_title s = u "Introduction").
Proof.
  vm_compute. repeat split. intros (s & [<-|[]] & H). discriminate H.
Qed.

(** C6 (as amended).  For an input made of one section whose word count
    exceeds [chunkSize], [chunkContent] returns one chunk per piece of
    [splitLargeSection]: at least one when the budget is at least one
    word, and possibly a single one.  Every chunk, the last one
    included, carries [parentSection] equal to the section title and
    [chunkType] [subsection], and no [partOf] entry; the chunks are
    identified [chunk-1], [chunk-2], ...; as soon as there are two chunks
    the k-th one is titled with the section title followed by
    [(Part k)]. *)
Theorem C6_oversized_section_parts
        (markdown : str) (options : OptimizationOptions) (section : MdSection) :
  splitByHeaders markdown = [section] ->
  chunkSize options < countWords (h_content section) ->
  let chunks := chunkContent markdown options in
  length chunks = length (splitLargeSection section (chunkSize options)) /\
  (1 <= chunkSize options -> 1 <= length chunks) /\
  forall k c,
    nth_error chunks k = Some c ->
    c_id c = u "chunk-" ++ showNat (k + 1) /\
    c_metadata c = [(u "parentSection", MStr (h_title section));
                    (u "chunkType", MStr (u "subsection"))] /\
    meta_get (u "partOf") (c_metadata c) = None /\
    (2 <= length chunks -> c_title c = part_title (h_title section) (k + 1)) /\
    (c_title c = h_title section \/ c_title c = part_title (h_title section) (k + 1)).
Proof.
  intros Hs Hc chunks.
  assert (E : chunks = addChunkContext
                         (sub_chunks section 0
                            (splitLargeSection section (chunkSize options))))
    by (now apply Parts.chunkContent_single).
  assert (Hlen : length chunks = length (splitLargeSection section (chunkSize options)))
    by (rewrite E, Parts.addChunkContext_length; apply Parts.sub_chunks_length).
  split; [exact Hlen|].
  split.
  { intros Hsize. rewrite Hlen. apply Parts.splitLargeSection_nonempty.
    rewrite WordCount.countWords_spec in Hc. lia. }
  intros k c Hk. rewrite E in Hk.
  apply Parts.addChunkContext_nth in Hk. destruct Hk as (c0 & Hk & ->).
  apply Parts.sub_chunks_nth in Hk. destruct Hk as (sub & Hk & ->).
  apply Parts.splitLargeSection_titles in Hk. destruct Hk as (_ & H2 & H3).
  cbn [with_context c_id c_metadata c_title Nat.add].
  split; [reflexivity|]. split; [reflexivity|]. split; [reflexivity|].
  split; [|exact H3]. intros H. apply H2. now rewrite <- Hlen.
Qed.

Lemma C6_witness :
  let markdown := u "p\sq\n\nr\ss\n\nt" in
  let options := mkOptimizationOptions (Some 2) None None None None in
  let section := mkMdSection (u "Introduction") markdown 1 in
  let chunks := chunkContent markdown options in
  splitByHeaders markdown = [section] /\
  chunkSize options < countWords (h_content section) /\
  length chunks = length (splitLargeSection section (chunkSize options)) /\
  (1 <= chunkSize options -> 1 <= length chunks) /\
  forall k c,
    nth_error chunks k = Some c ->
    c_id c = u "chunk-" ++ showNat (k + 1) /\
    c_metadata c = [(u "parentSection", MStr (h_title section));
                    (u "chunkType", MStr (u "subsection"))] /\
    meta_get (u "partOf") (c_metadata c) = None /\
    (2 <= length chunks -> c_title c = part_title (h_title section) (k + 1)) /\
    (c_title c = h_title section \/ c_title c = part_title (h_title section) (k + 1)).
Proof.
  intros markdown options section chunks.
  assert (H1 : splitByHeaders markdown = [section]) by (vm_compute; reflexivity).
  assert (H2 : chunkSize options < countWords (h_content section)) by (vm_compute; lia).
  split; [exact H1|]. split; [exact H2|].
  exact (C6_oversized_section_parts markdown options H1 H2).
Defined.

(** C6, the claim as stated fails: the only section of the input has two
    words for a budget of one, and [chunkContent] returns a single chunk,
    whose title carries no part number and whose metadata has no [partOf]
    entry. *)
Lemma C6_counterexample :
  let markdown := u "a b\sc" in
  let options := mkOptimizationOptions (Some 1) None None None None in
  splitByHeaders markdown = [mkMdSection (u "Introduction") markdown 1] /\
  countWords markdown = 2 /\ chunkSize options = 1 /\
  chunkContent markdown options
  = [mkChunk (u "chunk-1") (u "Introduction") markdown
             [(u "parentSection", MStr (u "Introduction"));
              (u "chunkType", MStr (u "subsection"))] 2 (Some [])] /\
  ~ (1 < length (chunkContent markdown options)).
Proof. vm_compute. repeat split. lia. Qed.

(** C7 (as amended).  On the empty input [chunkContent] returns, for every
    budget of at least one word, exactly one chunk: [chunk-1], titled
    Introduction, with an empty content counted as one word. *)
Theorem C7_empty_input_one_chunk (options : OptimizationOptions) :
  1 <= chunkSize options ->
  chunkContent [] options
  = [mkChunk (u "chunk-1") (u "Introduction") []
             [(u "sections", MList [u "Introduction"]); (u "chunkType", MStr (u "section"))]
             1 (Some [])].
Proof.
  intros H. unfold chunkContent.
  change (splitByHeaders []) with [mkMdSection (u "Introduction") [] 1].
  cbn [fold_left]. unfold chunk_step. cbn [cs_current]. unfold new_chunk.
  change (countWords (h_content (mkMdSection (u "Introduction") [] 1))) with 1.
  assert (E : (chunkSize options <? 1) = false) by (apply Nat.ltb_ge; exact H).
  rewrite E. reflexivity.
Qed.

Lemma C7_witness :
  chunkContent [] noOptions
  = [mkChunk (u "chunk-1") (u "Introduction") []
             [(u "sections", MList [u "Introduction"]); (u "chunkType", MStr (u "section"))]
             1 (Some [])].
Proof.
  apply (C7_empty_input_one_chunk noOptions). vm_compute. lia.
Defined.

(** C7, the claim as stated fails: with the default options the empty
    input gives one chunk, not the empty sequence. *)
Lemma C7_counterexample :
  chunkContent [] noOptions <> [] /\ length (chunkContent [] noOptions) = 1.
Proof. vm_compute. split; [discriminate|reflexivity]. Qed.

(** C8.  [optimize] is not idempotent: the emphasis rewrite of
    [removeRedundancy], as it is written, wraps every run of units without
    an asterisk in a pair of double asterisks, and does so again on its own
    output.  With the default options a second [optimize] changes the
    result of the first; with [removeRedundancy] switched off the same text
    is returned as it is. *)
Theorem C8_optimize_twice :
  let x := u "x" ++ [LF] ++ u "# A" in
  optimize x noOptions = u "**x" ++ [LF] ++ u "# A**" /\
  optimize (optimize x noOptions) noOptions = u "****x" ++ [LF] ++ u "# A****" /\
  optimize (optimize x noOptions) noOptions <> optimize x noOptions /\
  removeRedundancy x = u "**x" ++ [LF] ++ u "# A**" /\
  optimize x (mkOptimizationOptions None None None None (Some false)) = x.
Proof. vm_compute. repeat split. discriminate. Qed.

(** C9 (as amended).  The rewrite of the admonitions runs before the
    structural parsing.  Where the admonition stands between a text without
    two consecutive dots or a final dot and, after its line feed, the end
    of the input or a unit other than white space, [preprocessRST] keeps
    the text before it, rewrites the admonition to the blockquote markup
    with the info marker and the body text, and processes what follows as
    it would on its own.  For the admonition alone the converted output
    contains the info marker line and the text of the body behind a
    blockquote prefix. *)
Theorem C9_note_admonition :
  (forall content options,
     convertToMarkdown content options
     = postProcess (convertParsedToMarkdown (parseRST (preprocessRST content)) options)
                   options) /\
  (forall pre post,
     quiet pre = true ->
     solid post ->
     preprocessRST (pre ++ u ".. note::" ++ [LF] ++ u "   Remember this." ++ LF :: post)
     = pre ++ u "> " ++ emoji_info ++ u " **NOTE**\n>\n> Remember this.\n"
           ++ preprocessRST (LF :: post)) /\
  (forall options,
     let output :=
       convertToMarkdown (u ".. note::" ++ [LF] ++ u "   Remember this." ++ [LF]) options in
     output = u "## > " ++ emoji_info ++ u " **NOTE**\n\n***> Remember this.\n" ++ [LF]
                ++ u "\n***\n\n" /\
     includes output (u "> " ++ emoji_info ++ u " **NOTE**") = true /\
     includes output (u "> Remember this.") = true).
Proof.
  split; [reflexivity|]. split.
  - intros pre post Hpre Hpost. exact (Admonition.preprocessRST_note pre post Hpre Hpost).
  - intros [b p i]. vm_compute. repeat split; reflexivity.
Qed.

Lemma C9_witness :
  preprocessRST (u "See below. " ++ u ".. note::" ++ [LF] ++ u "   Remember this."
                   ++ LF :: u "More text.")
  = u "See below. " ++ u "> " ++ emoji_info ++ u " **NOTE**\n>\n> Remember this.\n"
      ++ LF :: u "More text.".
Proof.
  exact (proj1 (proj2 C9_note_admonition) (u "See below. ") (u "More text.")
               eq_refl eq_refl).
Defined.

(** C9, the claim as stated fails: an input that contains the admonition,
    after an [automodule] directive, is converted to the empty text; the
    output has neither the blockquote nor the body text. *)
Lemma C9_counterexample :
  let content :=
    u ".. automodule::" ++ [LF] ++ u ".. note::" ++ [LF] ++ u "   Remember this." ++ [LF] in
  includes content (u ".. note::" ++ [LF] ++ u "   Remember this." ++ [LF]) = true /\
  preprocessRST content
  = u "<!-- AUTO-MODULE: .. note:: -->" ++ [LF] ++ u "   Remember this." ++ [LF] /\
  convertToMarkdown content (mkConversionOptions None (Some true) None) = [] /\
  includes (convertToMarkdown content (mkConversionOptions None (Some true) None))
           (u "Remember this.") = false.
Proof. vm_compute. repeat split; reflexivity. Qed.

(** C10.  The scan of [parseRST] terminates: [parseDirective] returns an
    index of at least [startIndex + 1], every iteration of the loop moves
    the cursor forward, and after as many iterations as there are lines
    the cursor is at the end of the lines, where the loop stops; further
    iterations change nothing.  The two loops of [parseDirective] stop
    because their condition fails. *)
Theorem C10_parseRST_terminates (content : str) :
  let lines := split content (u "\n") in
  let start := mkParseState 0 [] [] false [] in
  (forall startIndex, startIndex + 1 <= snd (parseDirective lines startIndex)) /\
  (forall st st', parse_step lines st = Some st' -> ps_i st < ps_i st') /\
  parse_step lines (parse_loop lines (length lines) start) = None /\
  length lines <= ps_i (parse_loop lines (length lines) start) /\
  (forall extra,
     parse_loop lines (length lines + extra) start = parse_loop lines (length lines) start) /\
  (forall i options,
     let i' := fst (parse_options lines (length lines) i options) in
     (i' <? length lines) && test re_option_open (line_at lines i') = false) /\
  (forall i body,
     let i' := fst (parse_body lines (length lines) i body) in
     (i' <? length lines)
     && (startsWith (line_at lines i') (u "   ") || negb (nonempty (trim (line_at lines i'))))
     = false).
Proof.
  intros lines start.
  assert (Hdone : parse_step lines (parse_loop lines (length lines) start) = None)
    by (apply Parser.parse_loop_done; cbn; lia).
  split; [intros i; apply Parser.parseDirective_bounds|].
  split; [intros st st' H; now apply Parser.parse_step_progress in H|].
  split; [exact Hdone|].
  split; [now apply Parser.parse_step_none|].
  split; [intros extra; apply Parser.parse_loop_more; cbn; lia|].
  split.
  - intros i options. apply Parser.parse_options_exit. lia.
  - intros i body. apply Parser.parse_body_exit. lia.
Qed.

Lemma C10_witness :
  let lines := split (u "\.\. note::\sx\n   body\nend") (u "\n") in
  let st := mkParseState 0 [] [] false [] in
  let st' := mkParseState 2 [] [] false
                          [mkDirective (u "note") [u "x"] [] [u "body"]] in
  parse_step lines st = Some st' /\ ps_i st < ps_i st'.
Proof.
  intros lines st st'.
  assert (H : parse_step lines st = Some st') by (vm_compute; reflexivity).
  split; [exact H|].
  exact (proj1 (proj2 (C10_parseRST_terminates (u "\.\. note::\sx\n   body\nend"))) st st' H).
Defined.

(** * Further properties of the code *)

(** X1.  [splitByHeaders] loses nothing: it always returns a section, and
    the contents of the sections, joined by the line separator of the
    source, give the input back. *)
Theorem X1_splitByHeaders_round_trip (markdown : str) :
  1 <= length (splitByHeaders markdown) /\
  join (u "\n") (List.map h_content (splitByHeaders markdown)) = markdown.
Proof.
  destruct (Sections.splitByHeaders_join markdown) as [Hj Hne]. split; [|exact Hj].
  destruct (splitByHeaders markdown); [congruence|cbn [length]; lia].
Qed.

(** X2.  Every section of [splitByHeaders] has a level from 1 to 6 and a
    title that is not empty. *)
Theorem X2_splitByHeaders_sections (markdown : str) :
  Forall (fun s => 1 <= h_level s <= 6 /\ nonempty (h_title s) = true)
         (splitByHeaders markdown).
Proof. apply Forall_forall. intros s H. exact (Sections.splitByHeaders_ok markdown s H). Qed.

(** X3.  [chunkContent] numbers its chunks in order: the chunk at index k
    is identified [chunk-(k+1)], whatever the input and the options. *)
Theorem X3_chunk_ids_in_order (markdown : str) (options : OptimizationOptions)
        (k : nat) (c : ContentChunk) :
  nth_error (chunkContent markdown options) k = Some c ->
  c_id c = u "chunk-" ++ showNat (k + 1).
Proof. apply Numbering.chunkContent_ids. Qed.

Lemma X3_witness :
  let markdown := u "intro\n#\sA\sb" in
  let options := mkOptimizationOptions (Some 1) None None None None in
  let c := nth 1 (chunkContent markdown options) (mkChunk [] [] [] [] 0 None) in
  nth_error (chunkContent markdown options) 1 = Some c /\ c_id c = u "chunk-2".
Proof.
  split; [reflexivity|].
  exact (X3_chunk_ids_in_order (u "intro\n#\sA\sb")
           (mkOptimizationOptions (Some 1) None None None None) 1 eq_refl).
Defined.

(** X4.  With a budget of one word or more, [chunkContent] returns at least
    one chunk, whatever the input. *)
Theorem X4_chunkContent_not_empty (markdown : str) (options : OptimizationOptions) :
  1 <= chunkSize options -> 1 <= length (chunkContent markdown options).
Proof.
  intros H. pose proof (Numbering.chunkContent_nonempty markdown options H) as Hne.
  destruct (chunkContent markdown options); [congruence|cbn [length]; lia].
Qed.

Lemma X4_witness :
  1 <= chunkSize noOptions /\ 1 <= length (chunkContent (u "   ") noOptions).
Proof.
  split; [vm_compute; lia|].
  apply (X4_chunkContent_not_empty (u "   ") noOptions). vm_compute. lia.
Defined.

(** X5.  Every chunk of [chunkContent] has a title that is not empty: the
    fallback title [Chunk n] is never used. *)
Theorem X5_chunk_titles (markdown : str) (options : OptimizationOptions) :
  Forall (fun c => nonempty (c_title c) = true) (chunkContent markdown options).
Proof. apply Forall_forall. intros c H. exact (Titles.chunkContent_titled markdown options c H). Qed.

(** X6.  [countWords] is one more than the number of places where a
    backslash is followed by the letter s: it is never 0, and it is 1 for
    every text that holds no backslash. *)
Theorem X6_countWords (text : str) :
  countWords text = S (bsl_s_count text) /\
  1 <= countWords text /\
  (free BSL text = true -> countWords text = 1).
Proof.
  split; [apply WordCount.countWords_spec|]. split; [apply WordCount.countWords_pos|].
  apply Plain.countWords_free.
Qed.

Lemma X6_witness :
  free BSL (u "three short words") = true /\ countWords (u "three short words") = 1.
Proof.
  split; [reflexivity|].
  apply (proj2 (proj2 (X6_countWords (u "three short words")))). reflexivity.
Defined.

(** X7.  A text that holds no backslash is never split: with a budget of
    one word or more, [chunkContent] returns it whole, as the single chunk
    [chunk-1] titled [Introduction], with a [wordCount] of 1 and an empty
    context. *)
Theorem X7_plain_text_one_chunk (markdown : str) (options : OptimizationOptions) :
  free BSL markdown = true ->
  1 <= chunkSize options ->
  chunkContent markdown options
  = [mkChunk (u "chunk-1") (u "Introduction") markdown
             [(u "sections", MList [u "Introduction"]); (u "chunkType", MStr (u "section"))]
             1 (Some [])].
Proof. apply Plain.chunkContent_free. Qed.

Lemma X7_witness :
  let markdown := u "# Title" ++ [LF] ++ u "one two three" ++ [LF] ++ u "## More" in
  chunkContent markdown (mkOptimizationOptions (Some 2) None None None None)
  = [mkChunk (u "chunk-1") (u "Introduction") markdown
             [(u "sections", MList [u "Introduction"]); (u "chunkType", MStr (u "section"))]
             1 (Some [])].
Proof.
  apply (X7_plain_text_one_chunk
           (u "# Title" ++ [LF] ++ u "one two three" ++ [LF] ++ u "## More")
           (mkOptimizationOptions (Some 2) None None None None)).
  - reflexivity.
  - vm_compute. lia.
Defined.

(** X8.  [addContextHeaders] changes nothing in a text none of whose lines
    is a header of level three or more. *)
Theorem X8_addContextHeaders_shallow (markdown : str) :
  forallb shallow (split markdown (u "\n")) = true -> addContextHeaders markdown = markdown.
Proof. apply Context.addContextHeaders_shallow. Qed.

Lemma X8_witness :
  addContextHeaders (u "#\sTitle\ntext\n##\sPart\nmore") = u "#\sTitle\ntext\n##\sPart\nmore".
Proof.
  apply (X8_addContextHeaders_shallow (u "#\sTitle\ntext\n##\sPart\nmore")). reflexivity.
Defined.

(** X9.  After a header of level n the context stack of
    [addContextHeaders] has exactly n entries, so that a header of level
    three or more always receives a context line, even when no shallower
    header precedes it. *)
Theorem X9_context_line (result : list str) (currentContext : list (option str)) :
  (forall level title,
     1 <= level -> length (set_context currentContext level title) = level) /\
  (forall line before w caps after,
     search re_md_header line = Some (before, w, caps, after) ->
     3 <= length (cap 1 caps) ->
     context_step (result, currentContext) line
     = (result ++ [cap 1 caps ++ u " " ++ cap 2 caps; [];
                   u "*Context: "
                     ++ join [32%N; ARROW; 32%N]
                          (List.map hole_text
                             (removelast
                                (set_context currentContext (length (cap 1 caps))
                                             (cap 2 caps))))
                     ++ u "*"; []],
        set_context currentContext (length (cap 1 caps)) (cap 2 caps))).
Proof.
  split.
  - intros level title. apply Context.set_context_length.
  - intros line before w caps after. apply Context.context_step_deep.
Qed.

Lemma X9_witness :
  context_step ([], []) (u "###\sDeep")
  = ([u "### Deep"; []; u "*Context: " ++ [32%N; ARROW; 32%N] ++ u "*"; []],
     [None; None; Some (u "Deep")]).
Proof.
  exact (proj2 (X9_context_line [] []) (u "###\sDeep") [] (u "###\sDeep")
               [(2, u "Deep"); (1, u "###")] [] eq_refl (le_n 3)).
Defined.

(** X10.  [splitLargeSection] makes no blank piece: the content of every
    piece is not empty and has no white space at either end, and the
    [wordCount] of the piece is the word count of that content. *)
Theorem X10_pieces (section : MdSection) (maxSize : nat) :
  Forall (fun c => nonempty (c_content c) = true /\ trimmed (c_content c) = true /\
                   c_wordCount c = countWords (c_content c))
         (splitLargeSection section maxSize).
Proof.
  apply Forall_forall. intros c H. exact (Pieces.splitLargeSection_pieces section maxSize c H).
Qed.

(** X11.  [parseRST] lists the sections in the order of the document: the
    header lines of two sections are at least two lines apart, the earlier
    section first; and every section has a level from 1 to 6. *)
Theorem X11_sections_in_order (content : str) :
  StronglySorted (fun a b => a + 2 <= b)
                 (List.map s_lineStart (p_sections (parseRST content))) /\
  Forall (fun s => 1 <= s_level s <= 6) (p_sections (parseRST content)).
Proof.
  split; [apply Scan.parseRST_order|].
  apply Forall_forall. intros s H. exact (Scan.parseRST_level content s H).
Qed.

(** X12.  [parseDirective] never returns an index beyond the end of the
    lines (unless it was called there), and the scan of [parseRST] ends
    exactly at the end of the lines. *)
Theorem X12_scan_bounds (lines : list str) :
  (forall startIndex,
     snd (parseDirective lines startIndex) <= Nat.max (startIndex + 1) (length lines)) /\
  ps_i (parse_loop lines (length lines) (mkParseState 0 [] [] false [])) = length lines.
Proof.
  split; [intros startIndex; apply Parser.parseDirective_bounds|apply Scan.parse_loop_end].
Qed.

(** X13.  The text returned by [convertToMarkdown] has no white space at
    either end, and neither has the converted content of a section. *)
Theorem X13_output_trimmed (content : str) (options : ConversionOptions) :
  trimmed (convertToMarkdown content options) = true /\
  trimmed (convertContentToMarkdown content options) = true.
Proof. split; apply Trim.trim_trimmed. Qed.

(** X14.  A document in which no line after the first is an underline has
    no title and no section, and is converted to the empty text: what
    stands outside every section is dropped. *)
Theorem X14_no_header_no_output (content : str) (options : ConversionOptions) :
  no_underline (split (preprocessRST content) (u "\n")) = true ->
  p_title (parseRST (preprocessRST content)) = [] /\
  p_sections (parseRST (preprocessRST content)) = [] /\
  convertToMarkdown content options = [].
Proof.
  intros H. destruct (Scan.parseRST_bare _ H) as [Ht Hs].
  split; [exact Ht|]. split; [exact Hs|]. now apply Scan.convertToMarkdown_bare.
Qed.

Lemma X14_witness :
  let content := u "A paragraph." ++ [LF] ++ [LF] ++ u "* an item" ++ [LF] in
  convertToMarkdown content (mkConversionOptions None (Some true) None) = [].
Proof.
  apply (X14_no_header_no_output (u "A paragraph." ++ [LF] ++ [LF] ++ u "* an item" ++ [LF])
           (mkConversionOptions None (Some true) None)).
  reflexivity.
Defined.

(** X15.  [preprocessRST] rewrites directives only: a content that holds no
    two consecutive dots is returned unchanged. *)
Theorem X15_preprocess_plain (content : str) :
  includes content (u "..") = false -> preprocessRST content = content.
Proof. apply Directives.preprocessRST_plain. Qed.

Lemma X15_witness :
  preprocessRST (u "Title" ++ [LF] ++ u "=====" ++ [LF] ++ u "Some text. More.")
  = u "Title" ++ [LF] ++ u "=====" ++ [LF] ++ u "Some text. More.".
Proof.
  apply (X15_preprocess_plain (u "Title" ++ [LF] ++ u "=====" ++ [LF] ++ u "Some text. More.")).
  reflexivity.
Defined.

(** X16.  [createSafeFilename] returns a safe name whatever the title:
    lower-case letters, digits and hyphens only, no two hyphens in a row
    and no hyphen at either end. *)
Theorem X16_safe_filename (toLowerCase : str -> str) (title : str) :
  safe_name (createSafeFilename toLowerCase title) = true.
Proof. apply SafeName.createSafeFilename_safe. Qed.

(** X17.  [createSafeFilename] leaves a safe name unchanged, and is
    therefore idempotent, as soon as lowering leaves lower-case letters,
    digits and hyphens alone. *)
Theorem X17_safe_filename_idempotent (toLowerCase : str -> str) :
  (forall t, forallb safe_unit t = true -> toLowerCase t = t) ->
  (forall s, safe_name s = true -> createSafeFilename toLowerCase s = s) /\
  (forall title,
     createSafeFilename toLowerCase (createSafeFilename toLowerCase title)
     = createSafeFilename toLowerCase title).
Proof.
  intros Hlow. split.
  - intros s. now apply SafeName.createSafeFilename_fixed.
  - intros title. apply SafeName.createSafeFilename_fixed; [exact Hlow|].
    apply SafeName.createSafeFilename_safe.
Qed.

Lemma X17_witness :
  createSafeFilename toLowerCase (u "getting-started-2") = u "getting-started-2" /\
  createSafeFilename toLowerCase (createSafeFilename toLowerCase (u " Getting  Started! "))
  = createSafeFilename toLowerCase (u " Getting  Started! ").
Proof.
  split.
  - apply (proj1 (X17_safe_filename_idempotent toLowerCase SafeName.toLowerCase_safe)).
    reflexivity.
  - apply (proj2 (X17_safe_filename_idempotent toLowerCase SafeName.toLowerCase_safe)).
Defined.

(** X18.  The file name that [extractToctree] makes of an entry: an entry
    that ends in [.rst] is kept, one that ends in [.md] has that ending
    replaced, any other gets [.rst] appended; making the name of a name
    changes nothing. *)
Theorem X18_toctree_file (name : str) :
  toctree_file (name ++ u ".rst") = name ++ u ".rst" /\
  toctree_file (name ++ u ".md") = name ++ u ".rst" /\
  (ends_with_doc_ext name = false -> toctree_file name = name ++ u ".rst") /\
  toctree_file (toctree_file name) = toctree_file name.
Proof.
  split; [now apply Toctree.toctree_file_ext|].
  split; [now apply Toctree.toctree_file_ext|].
  split; [apply Toctree.toctree_file_bare|apply Toctree.toctree_file_idempotent].
Qed.

Lemma X18_witness :
  toctree_file (u "api/index.html") = u "api/index.html.rst".
Proof.
  apply (proj1 (proj2 (proj2 (X18_toctree_file (u "api/index.html"))))). reflexivity.
Defined.

(** X19.  [extractToctree] returns no file for a content that holds no two
    consecutive dots (it has no directive), and every file it returns ends
    in [.rst]. *)
Theorem X19_extractToctree (content : str) :
  (includes content (u "..") = false -> extractToctree content = []) /\
  Forall (fun f => exists base, f = base ++ u ".rst") (extractToctree content).
Proof.
  split; [apply Toctree.extractToctree_none|].
  apply Forall_forall. intros f H. exact (Toctree.extractToctree_shape content f H).
Qed.

Lemma X19_witness :
  extractToctree (u "Welcome" ++ [LF] ++ u "=======" ++ [LF] ++ u "No contents here.") = [].
Proof.
  apply (proj1 (X19_extractToctree
                  (u "Welcome" ++ [LF] ++ u "=======" ++ [LF] ++ u "No contents here."))).
  reflexivity.
Defined.

(** X20.  [extractMetadata] finds no title, author or date in a content
    that holds no backslash, and every value it returns has no white space
    at either end. *)
Theorem X20_extractMetadata (content : str) :
  (free BSL content = true -> extractMetadata content = []) /\
  Forall (fun kv => trimmed (snd kv) = true) (extractMetadata content).
Proof.
  split; [apply Metadata.extractMetadata_free|].
  apply Forall_forall. intros [k v] H. exact (Metadata.extractMetadata_trimmed content k v H).
Qed.

Lemma X20_witness :
  extractMetadata (u "Guide" ++ [LF] ++ u "=====" ++ [LF] ++ u ":author: Ann" ++ [LF]) = [].
Proof.
  apply (proj1 (X20_extractMetadata
                  (u "Guide" ++ [LF] ++ u "=====" ++ [LF] ++ u ":author: Ann" ++ [LF]))).
  reflexivity.
Defined.

(** X21.  The title of the document returned by [parseRST] is either empty
    or the trimmed text of a line that is not blank and whose next line is
    an underline of level 1. *)
Theorem X21_document_title (content : str) :
  let lines := split content (u "\n") in
  p_title (parseRST content) = [] \/
  exists i,
    i + 1 < length lines /\
    isUnderline (line_at lines (i + 1)) = true /\
    match line_at lines (i + 1) with c :: _ => getHeaderLevel c | [] => 2 end = 1 /\
    p_title (parseRST content) = trim (line_at lines i) /\
    nonempty (p_title (parseRST content)) = true.
Proof. exact (DocTitle.parseRST_title content). Qed.

(** X22.  The context of a chunk of [chunkContent] is empty when the chunk
    is the only one; otherwise it starts with the rank of the chunk and the
    number of chunks returned. *)
Theorem X22_chunk_context (markdown : str) (options : OptimizationOptions)
        (k : nat) (c : ContentChunk) :
  nth_error (chunkContent markdown options) k = Some c ->
  let n := length (chunkContent markdown options) in
  (n = 1 -> c_context c = Some []) /\
  (2 <= n ->
   exists rest,
     c_context c
     = Some (u "Document part " ++ showNat (k + 1) ++ u " of " ++ showNat n ++ rest)).
Proof. apply Navigation.chunkContent_context. Qed.

Lemma X22_witness :
  let markdown := u "intro\n#\sA\sb" in
  let options := mkOptimizationOptions (Some 1) None None None None in
  let c := nth 1 (chunkContent markdown options) (mkChunk [] [] [] [] 0 None) in
  length (chunkContent markdown options) = 2 /\
  exists rest, c_context c = Some (u "Document part 2 of 2" ++ rest).
Proof.
  split; [reflexivity|].
  exact (proj2 (X22_chunk_context (u "intro\n#\sA\sb")
                  (mkOptimizationOptions (Some 1) None None None None) 1 eq_refl)
               (le_n 2)).
Defined.

(** X23.  [convertContentToMarkdown] on a content without markup (no
    asterisk, backslash, backtick or colon): the content comes out between
    three asterisks on each side, the two emphasis rewrites having wrapped
    it one after the other. *)
Theorem X23_plain_content (content : str) (options : ConversionOptions) :
  nonempty content = true ->
  free STAR content = true -> free BSL content = true ->
  free BTICK content = true -> free (chr ":") content = true ->
  convertContentToMarkdown content options = u "***" ++ content ++ u "***".
Proof.
  intros Hne. apply PlainText.convertContentToMarkdown_plain.
  now destruct content.
Qed.

Lemma X23_witness :
  convertContentToMarkdown (u "Plain words, nothing else.")
                           (mkConversionOptions None (Some true) None)
  = u "***Plain words, nothing else.***".
Proof.
  apply (X23_plain_content (u "Plain words, nothing else.")
           (mkConversionOptions None (Some true) None)); reflexivity.
Defined.

(** X24.  [optimize] on a text without markup (no asterisk, backslash,
    closing parenthesis or opening bracket): when [removeRedundancy] is on,
    as it is by default, the text comes out between two asterisks on each
    side; otherwise it comes out unchanged.  No other rewrite applies. *)
Theorem X24_optimize_plain (markdown : str) (options : OptimizationOptions) :
  nonempty markdown = true ->
  free STAR markdown = true -> free BSL markdown = true ->
  free (chr ")") markdown = true -> free (chr "[") markdown = true ->
  optimize markdown options
  = if flag (o_removeRedundancy (mergeOptions options))
    then u "**" ++ markdown ++ u "**"
    else markdown.
Proof.
  intros Hne. apply PlainText.optimize_plain. now destruct markdown.
Qed.

Lemma X24_witness :
  optimize (u "# Title" ++ [LF] ++ u "Some text.") noOptions
  = u "**# Title" ++ [LF] ++ u "Some text.**".
Proof.
  apply (X24_optimize_plain (u "# Title" ++ [LF] ++ u "Some text.") noOptions); reflexivity.
Defined.

(** X25.  A content that holds no backslash and no two consecutive dots is
    converted to the empty text, whatever it says: it is read as a single
    line, in which no header can be found. *)
Theorem X25_single_line_document (content : str) (options : ConversionOptions) :
  free BSL content = true ->
  includes content (u "..") = false ->
  split (preprocessRST content) (u "\n") = [content] /\
  convertToMarkdown content options = [].
Proof.
  intros Hb Hd. rewrite (Directives.preprocessRST_plain content Hd).
  rewrite (@Plain.split_free content Hb). split; [reflexivity|].
  apply Scan.convertToMarkdown_bare.
  rewrite (Directives.preprocessRST_plain content Hd), (@Plain.split_free content Hb).
  reflexivity.
Qed.

Lemma X25_witness :
  convertToMarkdown (u "Guide" ++ [LF] ++ u "=====" ++ [LF] ++ [LF] ++ u "Read this first.")
                    (mkConversionOptions None (Some true) None)
  = [].
Proof.
  apply (X25_single_line_document
           (u "Guide" ++ [LF] ++ u "=====" ++ [LF] ++ [LF] ++ u "Read this first.")
           (mkConversionOptions None (Some true) None)); reflexivity.
Defined.

(** X26.  A chunk of [chunkContent] whose [chunkType] is [section] is made
    of consecutive whole sections of the input: its content is their
    contents joined by the separator of the source, its [wordCount] the
    sum of their word counts, and [metadata.sections] lists their titles
    in order. *)
Theorem X26_merged_sections (markdown : str) (options : OptimizationOptions) :
  Forall (fun c =>
            chunkType c = Some (MStr (u "section")) ->
            exists before ss after,
              splitByHeaders markdown = before ++ ss ++ after /\
              1 <= length ss /\
              c_content c = join (u "\n\n") (List.map h_content ss) /\
              c_wordCount c = list_sum (List.map (fun s => countWords (h_content s)) ss) /\
              c_metadata c = [(u "sections", MList (List.map h_title ss));
                              (u "chunkType", MStr (u "section"))])
         (chunkContent markdown options).
Proof.
  apply Forall_forall. intros c Hin Ht.
  destruct (Merging.chunkContent_merged markdown options c Hin Ht)
    as (before & ss & after & Hs & Hne & H1 & H2 & H3).
  exists before, ss, after. split; [exact Hs|]. split; [|now repeat split].
  destruct ss; [congruence|cbn [length]; lia].
Qed.

(** X27.  The two cleanup rewrites are idempotent as they are written:
    the clamp of the header depth of [simplifyStructure] and the collapse
    of the newline runs of [removeRedundancy] leave their own result as it
    is. *)
Theorem X27_cleanup_rewrites_idempotent (markdown : str) :
  clampHeaders (clampHeaders markdown) = clampHeaders markdown /\
  collapseNewlines (collapseNewlines markdown) = collapseNewlines markdown.
Proof.
  split.
  - apply Cleanup.clampHeaders_idempotent.
  - apply Cleanup.collapseNewlines_idempotent.
Qed.
